(** * file-explorer: the concurrent file walker [exploreFilesAsync]

    A shallow embedding of [exploreFilesAsync] (the async generator of the
    file-explorer package) and the proofs of its scheduling, termination
    detection, error propagation and traversal properties.

    JavaScript runs every piece of code between two suspension points
    ([await], [yield]) to completion.  The embedding therefore has three
    layers:
    - [iteration]: one pass through the body of [while (true)] in
      [workerLoop], up to the next [continue], [return] or [await];
    - [workerLoop]: the iterations a worker runs until it suspends or returns;
    - [step]: one task of the event loop (a pull of the consumer, the
      continuation of the generator, of a woken worker, or of a worker whose
      I/O has completed).  The order in which pending continuations run is
      left open: every interleaving of tasks is a run.  A pull after the end
      of the sequence changes nothing and is not a task. *)

From Stdlib Require Import ZArith QArith String List Lia.
From Stdlib Require Qcanon.
From stdpp Require Import base tactics option list strings.
Close Scope Q_scope.
Local Open Scope Z_scope.

(** ** Values *)

(** An [Error] object: what a call of [node:fs/promises] rejects with and
    what [throw new Error(..)] creates. *)
Inductive JsError := Error (message : string).

(** A JavaScript number (the two zeros are not distinguished). *)
Inductive JsNumber :=
| Finite (q : Q)
| NaN
| PosInfinity
| NegInfinity.

(** What [throw] may carry: any value.  A predicate of the caller can throw
    an [Error] object, but also [undefined], [null], a boolean, a number, a
    bigint, a string, a symbol or any other object; the [catch] blocks of the
    walker store whatever they receive in [error: unknown]. *)
Inductive JsValue :=
| VError (e : JsError)
| VUndefined
| VNull
| VBoolean (b : bool)
| VNumber (n : JsNumber)
| VBigInt (z : Z)
| VString (s : string)
| VSymbol (description : string)
| VObject (ref : nat).

(** [ToBoolean], the test of [if (v)]: [undefined], [null], [false], [0],
    [NaN], [0n] and the empty string are falsy, every other value (every
    object, so every [Error]) is truthy. *)
Definition truthy (v : JsValue) : bool :=
  match v with
  | VUndefined | VNull => false
  | VBoolean b => b
  | VNumber (Finite q) => negb (Qeq_bool q 0)
  | VNumber NaN => false
  | VNumber _ => true
  | VBigInt z => negb (z =? 0)
  | VString s => negb (String.eqb s "")
  | VError _ | VSymbol _ | VObject _ => true
  end.

(** How a call ends: it returns a value of [A] or throws a value of [E].  The
    calls of [fs] and the validation throw [Error] objects ([E] is
    [JsError]); a predicate of the caller may throw anything ([E] is
    [JsValue]). *)
Inductive Completion (E A : Type) :=
| Normal (a : A)
| Throw (e : E).
Arguments Normal {E A} a.
Arguments Throw {E A} e.

Definition Number_isInteger (n : JsNumber) : bool :=
  match n with
  | Finite q => Pos.eqb (Qden (Qred q)) 1
  | _ => false
  end.

(** [n < 1] *)
Definition lessThanOne (n : JsNumber) : bool :=
  match n with
  | Finite q => negb (Qle_bool (1 # 1) q)
  | NegInfinity => true
  | NaN | PosInfinity => false
  end.

(** [asText: () => buffer.toString("utf-8")]: the reader closes over the
    buffer read from disk. *)
Record FileReader := { buffer : list Byte.byte }.

Record FileWithoutContents := { ctx_path : string }.

Record FileWithContents := { path : string; contents : FileReader }.

(** An entry of [fs.readdir(dir, { withFileTypes: true })]. *)
Record Dirent := { name : string; isDirectory : bool; isFile : bool }.

Record ExploreFileArgs := {
  rootDir : string;
  shouldExploreDir : string -> Completion JsValue bool;
  shouldReadFile : FileWithoutContents -> Completion JsValue bool;
  shouldYieldFile : option (FileWithContents -> Completion JsValue bool);
  workerCount : option JsNumber
}.

Definition MAX_WORKER_COUNT : Z := 8.

(** The same options with another [workerCount]. *)
Definition withWorkerCount (count : option JsNumber) (o : ExploreFileArgs) : ExploreFileArgs :=
  {| rootDir := rootDir o; shouldExploreDir := shouldExploreDir o;
     shouldReadFile := shouldReadFile o; shouldYieldFile := shouldYieldFile o;
     workerCount := count |}.

(** An omitted [workerCount] or a positive integer. *)
Definition validCount (count : option JsNumber) : Prop :=
  count = None \/
  exists n q k, count = Some n /\ n = Finite q /\ (q == inject_Z k)%Q /\ 1 <= k.

Definition createFileReader (b : list Byte.byte) : FileReader := {| buffer := b |}.

(** ** Shared state *)

(** Where a started [workerLoop()] call stands between two tasks. *)
Inductive WorkerState :=
| WRunning                                   (* executing (only inside a task) *)
| WAwaitRead (fileCtx : FileWithoutContents) (* at [await fs.readFile] *)
| WAwaitReaddir (dirPath : string)           (* at [await fs.readdir] *)
| WParked                                    (* resolver sits in [workerWaiters] *)
| WWoken                                     (* resolver called, continuation pending *)
| WReturned.

(** Where the generator body stands. *)
Inductive GenState :=
| GExecuting                     (* running the body (only inside a task) *)
| GSuspendedYield                (* at [yield], waiting for the next pull *)
| GAwaiting                      (* at the final [await]; [generatorWaiter] is set *)
| GWoken                         (* [generatorWaiter] was called, continuation pending *)
| GCompleted (r : Completion JsValue unit).

(** Calls of the predicates and of [fs], in program order. *)
Inductive Event :=
| EvReaddir (dirPath : string)
| EvReadFile (p : string)
| EvShouldExploreDir (dirPath : string)
| EvShouldReadFile (f : FileWithoutContents)
| EvShouldYieldFile (f : FileWithContents).

(** The variables the closures of [exploreFilesAsync] share.  The two waiter
    registries are represented by the continuations they hold:
    [workerWaiters] is the set of workers in [WParked], and [generatorWaiter]
    is non-null exactly when the generator is in [GAwaiting].  [error] is
    [None] as long as no [catch] block has assigned the slot (it holds its
    initial [null]) and [Some v] when [v] is the value assigned last; the code
    only ever tests it with [if (error)], see [setError].  [yielded] and
    [log] are history: the records handed to the consumer and the calls made. *)
Record State := {
  queueYieldCheck : list FileWithContents;
  queueRead : list FileWithoutContents;
  queueFileCheck : list FileWithoutContents;
  queueDirStat : list string;
  queueDirCheck : list string;
  outputBuffer : list FileWithContents;
  activeWorkers : Z;
  isDone : bool;
  error : option JsValue;
  workers : list WorkerState;
  gen : GenState;
  yielded : list FileWithContents;
  log : list Event
}.

Definition with_queueYieldCheck (v : list FileWithContents) (s : State) : State :=
  {| queueYieldCheck := v; queueRead := queueRead s; queueFileCheck := queueFileCheck s;
     queueDirStat := queueDirStat s; queueDirCheck := queueDirCheck s;
     outputBuffer := outputBuffer s; activeWorkers := activeWorkers s; isDone := isDone s;
     error := error s; workers := workers s; gen := gen s; yielded := yielded s; log := log s |}.

Definition with_queueRead (v : list FileWithoutContents) (s : State) : State :=
  {| queueYieldCheck := queueYieldCheck s; queueRead := v; queueFileCheck := queueFileCheck s;
     queueDirStat := queueDirStat s; queueDirCheck := queueDirCheck s;
     outputBuffer := outputBuffer s; activeWorkers := activeWorkers s; isDone := isDone s;
     error := error s; workers := workers s; gen := gen s; yielded := yielded s; log := log s |}.

Definition with_queueFileCheck (v : list FileWithoutContents) (s : State) : State :=
  {| queueYieldCheck := queueYieldCheck s; queueRead := queueRead s; queueFileCheck := v;
     queueDirStat := queueDirStat s; queueDirCheck := queueDirCheck s;
     outputBuffer := outputBuffer s; activeWorkers := activeWorkers s; isDone := isDone s;
     error := error s; workers := workers s; gen := gen s; yielded := yielded s; log := log s |}.

Definition with_queueDirStat (v : list string) (s : State) : State :=
  {| queueYieldCheck := queueYieldCheck s; queueRead := queueRead s;
     queueFileCheck := queueFileCheck s; queueDirStat := v; queueDirCheck := queueDirCheck s;
     outputBuffer := outputBuffer s; activeWorkers := activeWorkers s; isDone := isDone s;
     error := error s; workers := workers s; gen := gen s; yielded := yielded s; log := log s |}.

Definition with_queueDirCheck (v : list string) (s : State) : State :=
  {| queueYieldCheck := queueYieldCheck s; queueRead := queueRead s;
     queueFileCheck := queueFileCheck s; queueDirStat := queueDirStat s; queueDirCheck := v;
     outputBuffer := outputBuffer s; activeWorkers := activeWorkers s; isDone := isDone s;
     error := error s; workers := workers s; gen := gen s; yielded := yielded s; log := log s |}.

Definition with_outputBuffer (v : list FileWithContents) (s : State) : State :=
  {| queueYieldCheck := queueYieldCheck s; queueRead := queueRead s;
     queueFileCheck := queueFileCheck s; queueDirStat := queueDirStat s;
     queueDirCheck := queueDirCheck s;
     outputBuffer := v; activeWorkers := activeWorkers s; isDone := isDone s;
     error := error s; workers := workers s; gen := gen s; yielded := yielded s; log := log s |}.

Definition with_activeWorkers (v : Z) (s : State) : State :=
  {| queueYieldCheck := queueYieldCheck s; queueRead := queueRead s;
     queueFileCheck := queueFileCheck s; queueDirStat := queueDirStat s;
     queueDirCheck := queueDirCheck s;
     outputBuffer := outputBuffer s; activeWorkers := v; isDone := isDone s;
     error := error s; workers := workers s; gen := gen s; yielded := yielded s; log := log s |}.

Definition with_isDone (v : bool) (s : State) : State :=
  {| queueYieldCheck := queueYieldCheck s; queueRead := queueRead s;
     queueFileCheck := queueFileCheck s; queueDirStat := queueDirStat s;
     queueDirCheck := queueDirCheck s;
     outputBuffer := outputBuffer s; activeWorkers := activeWorkers s; isDone := v;
     error := error s; workers := workers s; gen := gen s; yielded := yielded s; log := log s |}.

Definition with_error (v : option JsValue) (s : State) : State :=
  {| queueYieldCheck := queueYieldCheck s; queueRead := queueRead s;
     queueFileCheck := queueFileCheck s; queueDirStat := queueDirStat s;
     queueDirCheck := queueDirCheck s;
     outputBuffer := outputBuffer s; activeWorkers := activeWorkers s; isDone := isDone s;
     error := v; workers := workers s; gen := gen s; yielded := yielded s; log := log s |}.

Definition with_workers (v : list WorkerState) (s : State) : State :=
  {| queueYieldCheck := queueYieldCheck s; queueRead := queueRead s;
     queueFileCheck := queueFileCheck s; queueDirStat := queueDirStat s;
     queueDirCheck := queueDirCheck s;
     outputBuffer := outputBuffer s; activeWorkers := activeWorkers s; isDone := isDone s;
     error := error s; workers := v; gen := gen s; yielded := yielded s; log := log s |}.

Definition with_gen (v : GenState) (s : State) : State :=
  {| queueYieldCheck := queueYieldCheck s; queueRead := queueRead s;
     queueFileCheck := queueFileCheck s; queueDirStat := queueDirStat s;
     queueDirCheck := queueDirCheck s;
     outputBuffer := outputBuffer s; activeWorkers := activeWorkers s; isDone := isDone s;
     error := error s; workers := workers s; gen := v; yielded := yielded s; log := log s |}.

Definition with_yielded (v : list FileWithContents) (s : State) : State :=
  {| queueYieldCheck := queueYieldCheck s; queueRead := queueRead s;
     queueFileCheck := queueFileCheck s; queueDirStat := queueDirStat s;
     queueDirCheck := queueDirCheck s;
     outputBuffer := outputBuffer s; activeWorkers := activeWorkers s; isDone := isDone s;
     error := error s; workers := workers s; gen := gen s; yielded := v; log := log s |}.

Definition record_event (ev : Event) (s : State) : State :=
  {| queueYieldCheck := queueYieldCheck s; queueRead := queueRead s;
     queueFileCheck := queueFileCheck s; queueDirStat := queueDirStat s;
     queueDirCheck := queueDirCheck s;
     outputBuffer := outputBuffer s; activeWorkers := activeWorkers s; isDone := isDone s;
     error := error s; workers := workers s; gen := gen s; yielded := yielded s;
     log := log s ++ [ev] |}.

Definition set_worker (w : nat) (st : WorkerState) (s : State) : State :=
  with_workers (<[w := st]> (workers s)) s.

(** [if (error)]: the value in the slot when it is truthy.  A falsy value
    that has been thrown and stored ([throw undefined]) is not seen by this
    test. *)
Definition setError (s : State) : option JsValue :=
  match error s with
  | Some v => if truthy v then Some v else None
  | None => None
  end.

(** ** Helper functions of the source *)

Definition wake (st : WorkerState) : WorkerState :=
  match st with
  | WParked => WWoken
  | _ => st
  end.

(** [notifyWorkers]: every resolver in [workerWaiters] is shifted and called. *)
Definition notifyWorkers (s : State) : State :=
  with_workers (wake <$> workers s) s.

(** [notifyGenerator]: the resolver, if any, is cleared and called. *)
Definition notifyGenerator (s : State) : State :=
  match gen s with
  | GAwaiting => with_gen GWoken s
  | _ => s
  end.

Definition allQueuesEmpty (s : State) : bool :=
  match queueYieldCheck s, queueRead s, queueFileCheck s, queueDirStat s, queueDirCheck s with
  | [], [], [], [], [] => true
  | _, _, _, _, _ => false
  end.

(** How one pass through the body of [while (true)] in [workerLoop] ends. *)
Inductive Outcome :=
| OContinue
| OReturn
| OAwaitRead (fileCtx : FileWithoutContents)
| OAwaitReaddir (dirPath : string)
| OPark.

(** The iterator object: before its first pull no line of the body has run. *)
Inductive Iterator :=
| SuspendedStart
| Started (s : State)
| ClosedAtStart (e : JsError).

(** The tasks of the event loop. *)
Inductive Label :=
| Next                      (* the consumer pulls *)
| GenResume                 (* the generator continues after its [await] *)
| WorkerResume (w : nat)    (* a woken worker continues after line 260 *)
| IoDone (w : nat).         (* the pending [fs] call of a worker settles *)

(** ** Worker accounting *)

Definition sumWorkers (f : WorkerState -> Z) (ws : list WorkerState) : Z :=
  foldr (fun st acc => f st + acc) 0 ws.

Definition isRunning (st : WorkerState) : Z :=
  match st with WRunning => 1 | _ => 0 end.

Definition isAwaitingIo (st : WorkerState) : Z :=
  match st with WAwaitRead _ | WAwaitReaddir _ => 1 | _ => 0 end.

Definition isParked (st : WorkerState) : Z :=
  match st with WParked => 1 | _ => 0 end.

Definition isWoken (st : WorkerState) : Z :=
  match st with WWoken => 1 | _ => 0 end.

(** How [activeWorkers], [isDone] and [error] relate to where the workers
    stand; [N] is [maxWorkers].  It holds between any two iterations of a
    worker, and between two tasks no worker is [WRunning]. *)
Record Accounting (N : Z) (s : State) : Prop := {
  acc_len : Z.of_nat (length (workers s)) <= N;
  acc_running : sumWorkers isRunning (workers s) <= 1;
  acc_lower :
    sumWorkers isRunning (workers s) + sumWorkers isAwaitingIo (workers s)
      + (N - Z.of_nat (length (workers s))) <= activeWorkers s;
  acc_upper :
    activeWorkers s + sumWorkers isParked (workers s) + sumWorkers isWoken (workers s) <= N;
  acc_done :
    isDone s = true ->
    allQueuesEmpty s = true /\ activeWorkers s = sumWorkers isRunning (workers s) /\
    setError s = None /\ sumWorkers isParked (workers s) = 0;
  acc_zero : activeWorkers s = 0 -> isDone s = true
}.

Definition quiescent (s : State) : Prop := sumWorkers isRunning (workers s) = 0.

(** ** Directory trees *)

(** A finite directory tree: what lies below a directory. *)
#[warnings="-register-all"]
Inductive Tree :=
| TFile (n : string) (b : list Byte.byte)
| TDir (n : string) (children : list Tree)
| TOther (n : string).          (* symbolic link, FIFO, socket, device *)

Definition entryOf (t : Tree) : Dirent :=
  match t with
  | TFile n _ => {| name := n; isDirectory := false; isFile := true |}
  | TDir n _ => {| name := n; isDirectory := true; isFile := false |}
  | TOther n => {| name := n; isDirectory := false; isFile := false |}
  end.

Definition recordOf (p : string) (b : list Byte.byte) : FileWithContents :=
  {| path := p; contents := createFileReader b |}.

(** The files the predicates select below a directory whose listing is
    [children]: those that satisfy [readOk] and whose record satisfies
    [yieldOk], in the sub-directories that satisfy [exploreOk] all the way
    down from (and not including) the directory itself. *)
Fixpoint selectedNode (join : string -> string -> string)
    (exploreOk : string -> bool) (readOk : string -> bool)
    (yieldOk : FileWithContents -> bool) (dirPath : string) (t : Tree) : list string :=
  match t with
  | TFile n b =>
      let p := join dirPath n in
      if readOk p && yieldOk (recordOf p b) then [p] else []
  | TDir n children =>
      let d := join dirPath n in
      if exploreOk d
      then flat_map (selectedNode join exploreOk readOk yieldOk d) children
      else []
  | TOther _ => []
  end.

Definition selectedPaths (join : string -> string -> string)
    (exploreOk : string -> bool) (readOk : string -> bool)
    (yieldOk : FileWithContents -> bool) (dirPath : string) (children : list Tree)
  : list string :=
  flat_map (selectedNode join exploreOk readOk yieldOk dirPath) children.

(** The set in the words of the specification: every ancestor directory of
    the file, the root among them, satisfies the directory predicate. *)
Definition claimedPaths (join : string -> string -> string)
    (exploreOk : string -> bool) (readOk : string -> bool)
    (yieldOk : FileWithContents -> bool) (root : string) (children : list Tree)
  : list string :=
  if exploreOk root then selectedPaths join exploreOk readOk yieldOk root children else [].

(** Weights of the work a tree stands for (see [measure] below). *)
Fixpoint nodeWeight (t : Tree) : Z :=
  match t with
  | TFile _ _ => 35
  | TDir _ children => 16 + (17 + foldr (fun c acc => nodeWeight c + acc) 0 children)
  | TOther _ => 0
  end.

Definition treeWeight (children : list Tree) : Z :=
  17 + foldr (fun c acc => nodeWeight c + acc) 0 children.

Fixpoint nodeDepth (t : Tree) : nat :=
  match t with
  | TDir _ children => S (foldr (fun c acc => Nat.max (nodeDepth c) acc) O children)
  | _ => O
  end.

Definition treeDepth (children : list Tree) : nat :=
  foldr (fun c acc => Nat.max (nodeDepth c) acc) O children.

(** ** Example environments

    Concrete file systems, options and runs, for the instances at the end. *)

Module Demo.

(** [path.join] on a normalised directory path and an entry name. *)
Definition join (dirPath entryName : string) : string :=
  (dirPath ++ "/" ++ entryName)%string.

Definition file (n : string) : Dirent := {| name := n; isDirectory := false; isFile := true |}.
Definition dir (n : string) : Dirent := {| name := n; isDirectory := true; isFile := false |}.
Definition symlink (n : string) : Dirent :=
  {| name := n; isDirectory := false; isFile := false |}.

(** The tree
<<
    r/a.txt  r/b.log  r/link -> ..  r/sub/c.txt  r/sub/.git/HEAD
>> *)
Definition readdir (p : string) : Completion JsError (list Dirent) :=
  if String.eqb p "r" then Normal [file "a.txt"; file "b.log"; dir "sub"; symlink "link"]
  else if String.eqb p "r/sub" then Normal [file "c.txt"; dir ".git"]
  else if String.eqb p "r/sub/.git" then Normal [file "HEAD"]
  else Throw (Error "ENOTDIR").

Definition readFile (p : string) : Completion JsError (list Byte.byte) :=
  if String.eqb p "r/a.txt" then Normal [Byte.x61]
  else if String.eqb p "r/b.log" then Normal [Byte.x62]
  else if String.eqb p "r/sub/c.txt" then Normal [Byte.x63]
  else if String.eqb p "r/sub/.git/HEAD" then Normal [Byte.x64]
  else Throw (Error "ENOENT").

Definition endsWith (suffix s : string) : bool :=
  String.eqb (substring (String.length s - String.length suffix) (String.length suffix) s)
    suffix.

Definition tree : list Tree :=
  [TFile "a.txt" [Byte.x61]; TFile "b.log" [Byte.x62];
   TDir "sub" [TFile "c.txt" [Byte.x63]; TDir ".git" [TFile "HEAD" [Byte.x64]]];
   TOther "link"].

(** The options of the example in the package documentation. *)
Definition options (count : option JsNumber) : ExploreFileArgs :=
  {| rootDir := "r";
     shouldExploreDir := fun p => Normal (negb (endsWith ".git" p));
     shouldReadFile := fun f => Normal (endsWith ".txt" (ctx_path f));
     shouldYieldFile := None;
     workerCount := count |}.

Definition three : JsNumber := Finite (3 # 1).

(** A run with three workers, up to the end of the sequence. *)
Definition schedule : list Label :=
  [Next; IoDone 0; WorkerResume 1; WorkerResume 2; IoDone 1; IoDone 0; GenResume;
   WorkerResume 2; Next; IoDone 1; GenResume; Next; WorkerResume 0; WorkerResume 2]%nat.

End Demo.

Module Faulty.

(** A directory with three files, two of which cannot be read. *)
Definition readdir (p : string) : Completion JsError (list Dirent) :=
  if String.eqb p "r" then Normal [Demo.file "f0"; Demo.file "f1"; Demo.file "f2"]
  else Throw (Error "ENOTDIR").

Definition readFile (p : string) : Completion JsError (list Byte.byte) :=
  if String.eqb p "r/f0" then Normal [Byte.x30]
  else Throw (Error ("EACCES: " ++ p)).

Definition options : ExploreFileArgs :=
  {| rootDir := "r";
     shouldExploreDir := fun _ => Normal true;
     shouldReadFile := fun _ => Normal true;
     shouldYieldFile := None;
     workerCount := Some (Finite (2 # 1)) |}.

(** Two workers; the consumer has received [r/f0] and has not pulled again
    when the reads of [r/f1] and [r/f2] fail one after the other. *)
Definition schedule : list Label :=
  [Next; IoDone 0; WorkerResume 1; IoDone 0; GenResume; IoDone 1; IoDone 0]%nat.

(** The example tree of [Demo], with a [shouldReadFile] that throws on
    [.log] files. *)
Definition throwingOptions : ExploreFileArgs :=
  {| rootDir := "r";
     shouldExploreDir := fun p =>
       if Demo.endsWith ".git" p then Throw (VError (Error "no access")) else Normal true;
     shouldReadFile := fun f =>
       if Demo.endsWith ".log" (ctx_path f) then Throw (VError (Error "unexpected file"))
       else Normal true;
     shouldYieldFile := None;
     workerCount := None |}.

Definition throwingSchedule : list Label := [Next; IoDone 0; IoDone 0; GenResume; Next]%nat.

(** The example tree of [Demo] and the predicates of [Demo], with a
    [shouldReadFile] that does [throw undefined] on [.log] files. *)
Definition undefinedOptions : ExploreFileArgs :=
  {| rootDir := "r";
     shouldExploreDir := fun p => Normal (negb (Demo.endsWith ".git" p));
     shouldReadFile := fun f =>
       if Demo.endsWith ".log" (ctx_path f) then Throw VUndefined
       else Normal (Demo.endsWith ".txt" (ctx_path f));
     shouldYieldFile := None;
     workerCount := None |}.


(** The same tree, with a [shouldExploreDir] that does [throw undefined] on
    the directory [sub]. *)
Definition hangingOptions : ExploreFileArgs :=
  {| rootDir := "r";
     shouldExploreDir := fun p =>
       if Demo.endsWith "sub" p then Throw VUndefined else Normal true;
     shouldReadFile := fun f => Normal (Demo.endsWith ".txt" (ctx_path f));
     shouldYieldFile := None;
     workerCount := None |}.

Definition hangingSchedule : list Label :=
  [Next; IoDone 0; IoDone 0; GenResume; Next]%nat.

(** The example tree of [Demo], with a [shouldExploreDir] that rejects every
    directory, the root included. *)
Definition rejectingOptions (count : option JsNumber) : ExploreFileArgs :=
  {| rootDir := "r";
     shouldExploreDir := fun _ => Normal false;
     shouldReadFile := fun _ => Normal true;
     shouldYieldFile := None;
     workerCount := count |}.

Definition rejectingSchedule : list Label :=
  [Next; IoDone 0; IoDone 0; GenResume; Next; IoDone 0; GenResume; Next]%nat.

End Faulty.

(** ** Equality of calls

    Records and calls can be compared, which lets the calls of a run be
    counted. *)

#[global] Instance byte_eq_dec : EqDecision Byte.byte := Byte.byte_eq_dec.

#[global] Instance FileReader_eq_dec : EqDecision FileReader.
Proof. solve_decision. Defined.

#[global] Instance FileWithoutContents_eq_dec : EqDecision FileWithoutContents.
Proof. solve_decision. Defined.

#[global] Instance FileWithContents_eq_dec : EqDecision FileWithContents.
Proof. solve_decision. Defined.

#[global] Instance Event_eq_dec : EqDecision Event.
Proof. solve_decision. Defined.

(** ** The scripts of the repository

    [a4s-bak-create.ts] walks a source tree with [exploreFilesAsync] and
    collects the text of the files it yields in a [Map]; the script at the
    head of [a4s-bak-restore.ts] writes the entries of such a backup back to
    disk. *)

Module Scripts.

(** [s.endsWith(searchString)] *)
Definition endsWith (s searchString : string) : bool :=
  String.eqb
    (substring (String.length s - String.length searchString) (String.length searchString) s)
    searchString.

(** The options the scripts pass: directories whose path ends with [.git]
    or [node_modules] are not explored, the files whose path ends with
    [extension] are read, [shouldYieldFile] is omitted, and [workerCount] is
    [MAX_WORKER_COUNT]. *)
Definition sourcesOptions (root extension : string) : ExploreFileArgs :=
  {| rootDir := root;
     shouldExploreDir := fun path =>
       Normal (negb (endsWith path ".git") && negb (endsWith path "node_modules"));
     shouldReadFile := fun file => Normal (endsWith (ctx_path file) extension);
     shouldYieldFile := None;
     workerCount := Some (Finite (inject_Z MAX_WORKER_COUNT)) |}.

(** The options of [a4s-bak-create.ts]. *)
Definition backupOptions : ExploreFileArgs :=
  sourcesOptions "C:\Git\App4Sales-Backend" ".user".

(** A [Map<string, string>]: its entries in insertion order. *)
Definition JsMap := list (string * string).

(** [map.set(k, v)]: the value of a key that is present is replaced where
    it stands, a new key is appended. *)
Fixpoint mapSet (k v : string) (m : JsMap) : JsMap :=
  match m with
  | [] => [(k, v)]
  | (k', v') :: m => if String.eqb k' k then (k, v) :: m else (k', v') :: mapSet k v m
  end.

(** [map.get(k)] *)
Fixpoint mapGet (k : string) (m : JsMap) : option string :=
  match m with
  | [] => None
  | (k', v') :: m => if String.eqb k' k then Some v' else mapGet k m
  end.

(** The body of [for await (const file of sourcesIterator)]:
    [baks.set(file.path, file.contents.asText())].  [toText] is
    [buffer.toString("utf-8")]. *)
Definition backUp (toText : list Byte.byte -> string) (baks : JsMap)
    (file : FileWithContents) : JsMap :=
  mapSet (path file) (toText (buffer (contents file))) baks.

(** [baks] after the loop over the records the iterator has yielded. *)
Definition collect (toText : list Byte.byte -> string) (files : list FileWithContents)
  : JsMap :=
  fold_left (backUp toText) files [].

(** What a file holds, as far as the script determines it. *)
Inductive Content :=
  | Text (t : string)
  | Torn.  (* left by a write that was rejected or cut off, or by two writes
              to one file: whether the file is there and what it holds is
              not in the script's hands *)

(** How the promise of one [Deno.writeTextFile] settles. *)
Inductive Outcome :=
  | Fulfilled
  | Rejected (e : JsError).

(** The lines the callback of an entry logs. *)
Definition restoringLine (entry : string * string) : string :=
  ("Restoring " ++ fst entry ++ "...")%string.

Definition restoredLine (entry : string * string) : string :=
  ("Restored " ++ fst entry)%string.

(** The line feed. *)
Definition newline : string := String (Ascii.ascii_of_nat 10) EmptyString.

(** The text of the last [console.log] of the restore script. *)
Definition manualSteps : string :=
  (newline ++ "Manual steps:" ++ newline ++ "Rebuild Solution in Visual Studio." ++ newline
   ++ "Set the startup projects again if needed." ++ newline)%string.

Section Restoring.

(** The files of the disk, and the file a path names once the file system
    has resolved it: [a] and [./a], or a link and its target, name one
    file. *)
Context {File : Type} `{!EqDecision File}.
Variable resolve : string -> File.

(** The disk: what each file holds, [None] when it is not there. *)
Definition Disk := File -> option Content.

Definition put (f : File) (c : Content) (d : Disk) : Disk :=
  fun g => if decide (g = f) then Some c else d g.

(** Whether another of the writes the script has started goes to the file
    of [p]: all the writes are started before any completes, so two writes
    to one file race. *)
Definition raced (bak : list (string * string)) (p : string) : bool :=
  (1 <? length (filter (fun q => resolve (fst q) = resolve p) bak))%nat.

(** [Deno.writeTextFile(p, text)] once it is fulfilled. *)
Definition writeTextFile (bak : list (string * string)) (p text : string) (d : Disk)
  : Disk :=
  put (resolve p) (if raced bak p then Torn else Text text) d.

(** The disk when the script dies with the writes [pending] in flight
    (the one that was rejected among them). *)
Definition cutOff (pending : list (string * string)) (d : Disk) : Disk :=
  fold_right (fun q => put (resolve (fst q)) Torn) d pending.

(** The restore script between two tasks: the disk, the lines logged, and
    the writes that have been started and have not settled. *)
Record Restore := {
  disk : Disk;
  console : list string;
  writing : list (string * string)
}.

(** The script as a whole: at its top-level [await Promise.all(...)], run
    to its end, or dead of the rejection that [await] rethrew. *)
Inductive Script :=
  | Awaiting (r : Restore)
  | Ended (r : Restore)
  | Uncaught (e : JsError) (r : Restore).

(** [Object.entries(bak).map(async ([path, text]) => ...)]: every callback
    runs up to its [await], that is, logs its first line and starts its
    write, before any write settles. *)
Definition startRestore (bak : list (string * string)) (d : Disk) : Restore :=
  {| disk := d; console := map restoringLine bak; writing := bak |}.

(** The [i]-th of the pending writes settles.  Fulfilled, its callback logs
    its second line.  Rejected, the callback throws, [Promise.all] rejects
    and the [await] of the script rethrows: nothing catches it, and the script
    ends there, with the other writes still in flight. *)
Definition settleWrite (bak : list (string * string)) (i : nat) (o : Outcome)
    (r : Restore) : option Script :=
  match writing r !! i with
  | Some entry =>
      match o with
      | Fulfilled =>
          Some (Awaiting
                  {| disk := writeTextFile bak (fst entry) (snd entry) (disk r);
                     console := console r ++ [restoredLine entry];
                     writing := delete i (writing r) |})
      | Rejected e =>
          Some (Uncaught e
                  {| disk := cutOff (writing r) (disk r);
                     console := console r;
                     writing := delete i (writing r) |})
      end
  | None => None
  end.

(** The writes settle in the order and in the way the environment has them
    settle; a script that has ended has no task left. *)
Fixpoint settleWrites (bak : list (string * string)) (order : list (nat * Outcome))
    (s : Script) : option Script :=
  match order with
  | [] => Some s
  | (i, o) :: order =>
      match s with
      | Awaiting r =>
          match settleWrite bak i o r with
          | Some s' => settleWrites bak order s'
          | None => None
          end
      | Ended _ | Uncaught _ _ => None
      end
  end.

(** The rest of the script, once [Promise.all] is fulfilled: it is when no
    write is pending. *)
Definition finishRestore (s : Script) : option Script :=
  match s with
  | Awaiting r =>
      match writing r with
      | [] => Some (Ended {| disk := disk r;
                             console := console r ++ [manualSteps];
                             writing := [] |})
      | _ :: _ => None
      end
  | Uncaught e r => Some (Uncaught e r)
  | Ended _ => None
  end.

(** The restore script on the entries [bak] of [a4s-bak.json], in the order
    of [Object.entries], with the writes settling as [order] says. *)
Definition restore (bak : list (string * string)) (order : list (nat * Outcome))
    (d : Disk) : option Script :=
  match settleWrites bak order (Awaiting (startRestore bak d)) with
  | Some s => finishRestore s
  | None => None
  end.

End Restoring.

(** A file system for the examples: a path that starts with [./] names the
    file of the rest of the path. *)
Definition sameDirectory (p : string) : string :=
  if String.prefix "./" p then substring 2 (String.length p - 2) p else p.

End Scripts.

(** ** Further example runs *)

Module Runs.

(** The example tree of [Demo] walked by one worker, the consumer pulling
    as early as it can, and as late as it can. *)
Definition eagerConsumer : list Label :=
  [Next; IoDone 0; IoDone 0; GenResume; Next; IoDone 0; IoDone 0; GenResume; Next]%nat.

Definition lazyConsumer : list Label :=
  [Next; IoDone 0; IoDone 0; IoDone 0; IoDone 0; GenResume; Next; Next]%nat.

(** A root that [Demo.readdir] cannot list. *)
Definition missingRoot : ExploreFileArgs :=
  {| rootDir := "missing";
     shouldExploreDir := fun _ => Normal true;
     shouldReadFile := fun _ => Normal true;
     shouldYieldFile := None;
     workerCount := Some (Finite (4 # 1)) |}.

Definition missingRootSchedule : list Label := [Next; IoDone 0; GenResume]%nat.

(** A source tree for the backup script:
<<
    r/a.user  r/b.txt  r/.git/c.user  r/src/d.user
>> *)
Definition readdir (p : string) : Completion JsError (list Dirent) :=
  if String.eqb p "r"
  then Normal [Demo.file "a.user"; Demo.file "b.txt"; Demo.dir ".git"; Demo.dir "src"]
  else if String.eqb p "r/.git" then Normal [Demo.file "c.user"]
  else if String.eqb p "r/src" then Normal [Demo.file "d.user"]
  else Throw (Error "ENOTDIR").

Definition readFile (p : string) : Completion JsError (list Byte.byte) :=
  if String.eqb p "r/a.user" then Normal [Byte.x61]
  else if String.eqb p "r/b.txt" then Normal [Byte.x62]
  else if String.eqb p "r/.git/c.user" then Normal [Byte.x63]
  else if String.eqb p "r/src/d.user" then Normal [Byte.x64]
  else Throw (Error "ENOENT").

Definition tree : list Tree :=
  [TFile "a.user" [Byte.x61]; TFile "b.txt" [Byte.x62];
   TDir ".git" [TFile "c.user" [Byte.x63]]; TDir "src" [TFile "d.user" [Byte.x64]]].

(** A run of the eight workers of the backup script on that tree. *)
Definition backupSchedule : list Label :=
  [Next; IoDone 0; WorkerResume 7; IoDone 7; IoDone 7; WorkerResume 6; WorkerResume 5;
   WorkerResume 4; WorkerResume 3; WorkerResume 2; WorkerResume 1; IoDone 0;
   WorkerResume 7; WorkerResume 6; WorkerResume 5; WorkerResume 4; WorkerResume 3;
   WorkerResume 2; WorkerResume 1; GenResume; Next; Next]%nat.

(** Bytes as text, one character per byte. *)
Definition latin1 (b : list Byte.byte) : string := string_of_list_byte b.

End Runs.

(** ** The walker *)

Section Walker.

(** [path.join] and the two operations of [node:fs/promises] the walker
    calls are the environment.  The file system is static during a run:
    an operation on a path settles the same way whenever it completes. *)
Variable path_join : string -> string -> string.
Variable fs_readdir : string -> Completion JsError (list Dirent).
Variable fs_readFile : string -> Completion JsError (list Byte.byte).

Variable options : ExploreFileArgs.

(** [shouldYieldFile = () => true] when the option is omitted. *)
Definition yieldPredicate : FileWithContents -> Completion JsValue bool :=
  match shouldYieldFile options with
  | Some p => p
  | None => fun _ => Normal true
  end.

(** *** Validation (section 1 of the source) *)

Definition validate : Completion JsError Z :=
  let workerCount :=
    match workerCount options with
    | Some n => n
    | None => Finite (1 # 1)    (* [workerCount = 1] in the destructuring *)
    end in
  if negb (Number_isInteger workerCount) || lessThanOne workerCount
  then Throw (Error "workerCount must be a positive integer."%string)
  else
    match workerCount with
    | Finite q => Normal (Z.min (Qnum (Qred q)) MAX_WORKER_COUNT)
    | _ => Normal MAX_WORKER_COUNT    (* not reached: these are not integers *)
    end.

(** *** Shared state (section 2 of the source) *)

Definition initialState : State :=
  {| queueYieldCheck := []; queueRead := []; queueFileCheck := [];
     queueDirStat := [rootDir options]; queueDirCheck := [];
     outputBuffer := []; activeWorkers := 0; isDone := false; error := None;
     workers := []; gen := GExecuting; yielded := []; log := [] |}.

(** *** One pass through the body of [while (true)] in [workerLoop] *)

Definition stageYieldCheck (file : FileWithContents) (s : State) : Outcome * State :=
  let s := record_event (EvShouldYieldFile file) s in
  match yieldPredicate file with
  | Normal true => (OContinue, notifyGenerator (with_outputBuffer (outputBuffer s ++ [file]) s))
  | Normal false => (OContinue, s)
  | Throw e => (OContinue, notifyGenerator (with_error (Some e) s))
  end.

Definition stageFileCheck (fileCtx : FileWithoutContents) (s : State) : Outcome * State :=
  let s := record_event (EvShouldReadFile fileCtx) s in
  match shouldReadFile options fileCtx with
  | Normal true => (OContinue, notifyWorkers (with_queueRead (queueRead s ++ [fileCtx]) s))
  | Normal false => (OContinue, s)
  | Throw e => (OContinue, notifyGenerator (with_error (Some e) s))
  end.

Definition stageDirCheck (dirPath : string) (s : State) : Outcome * State :=
  let s := record_event (EvShouldExploreDir dirPath) s in
  match shouldExploreDir options dirPath with
  | Normal true => (OContinue, notifyWorkers (with_queueDirStat (queueDirStat s ++ [dirPath]) s))
  | Normal false => (OContinue, s)
  | Throw e => (OReturn, notifyGenerator (with_error (Some e) s))
  end.

(** No work available: lines 243 to 260. *)
Definition stageIdle (s : State) : Outcome * State :=
  let s := with_activeWorkers (activeWorkers s - 1) s in
  if (activeWorkers s =? 0)%Z && allQueuesEmpty s
  then (OReturn, notifyWorkers (notifyGenerator (with_isDone true s)))
  else (OPark, s).

Definition iteration (s : State) : Outcome * State :=
  match setError s with
  | Some _ => (OReturn, s)
  | None =>
    match queueYieldCheck s with
    | file :: rest => stageYieldCheck file (with_queueYieldCheck rest s)
    | [] =>
      match queueRead s with
      | fileCtx :: rest =>
          (OAwaitRead fileCtx,
           record_event (EvReadFile (ctx_path fileCtx)) (with_queueRead rest s))
      | [] =>
        match queueFileCheck s with
        | fileCtx :: rest => stageFileCheck fileCtx (with_queueFileCheck rest s)
        | [] =>
          match queueDirStat s with
          | dirPath :: rest =>
              (OAwaitReaddir dirPath,
               record_event (EvReaddir dirPath) (with_queueDirStat rest s))
          | [] =>
            match queueDirCheck s with
            | dirPath :: rest => stageDirCheck dirPath (with_queueDirCheck rest s)
            | [] => stageIdle s
            end
          end
        end
      end
    end
  end.

(** The rest of the read stage, once [fs.readFile] has settled. *)
Definition afterRead (fileCtx : FileWithoutContents)
    (r : Completion JsError (list Byte.byte)) (s : State) : State :=
  match r with
  | Normal b =>
      notifyWorkers
        (with_queueYieldCheck
           (queueYieldCheck s ++
              [{| path := ctx_path fileCtx; contents := createFileReader b |}]) s)
  | Throw e => notifyGenerator (with_error (Some (VError e)) s)
  end.

(** The body of [for (const entry of entries)]. *)
Definition sortEntry (dirPath : string) (s : State) (entry : Dirent) : State :=
  let fullPath := path_join dirPath (name entry) in
  if isDirectory entry then with_queueDirCheck (queueDirCheck s ++ [fullPath]) s
  else if isFile entry
       then with_queueFileCheck (queueFileCheck s ++ [{| ctx_path := fullPath |}]) s
       else s.

(** The rest of the directory stage, once [fs.readdir] has settled. *)
Definition afterReaddir (dirPath : string)
    (r : Completion JsError (list Dirent)) (s : State) : State :=
  match r with
  | Normal entries =>
      let s := fold_left (sortEntry dirPath) entries s in
      if (0 <? length entries)%nat then notifyWorkers s else s
  | Throw e => notifyGenerator (with_error (Some (VError e)) s)
  end.

(** *** [workerLoop]: iterations up to the next suspension or [return] *)

Definition settle (w : nat) (o : Outcome) (s : State) : State :=
  match o with
  | OContinue => s
  | OReturn => set_worker w WReturned s
  | OAwaitRead fileCtx => set_worker w (WAwaitRead fileCtx) s
  | OAwaitReaddir dirPath => set_worker w (WAwaitReaddir dirPath) s
  | OPark => set_worker w WParked s
  end.

Fixpoint workerLoop (fuel : nat) (w : nat) (s : State) : option State :=
  match fuel with
  | O => None
  | S fuel =>
    match iteration s with
    | (OContinue, s') => workerLoop fuel w s'
    | (o, s') => Some (settle w o s')
    end
  end.

(** The stages that neither suspend nor return consume one task of these
    three queues each, which bounds the iterations of one task. *)
Definition syncWork (s : State) : nat :=
  (length (queueYieldCheck s) + length (queueFileCheck s) + length (queueDirCheck s))%nat.

Definition runWorker (w : nat) (s : State) : State :=
  default s (workerLoop (S (syncWork s)) w s).

(** *** The generator loop (section 6 of the source) *)

Definition generatorLoop (s : State) : State :=
  match outputBuffer s with
  | r :: rest =>
      with_gen GSuspendedYield (with_yielded (yielded s ++ [r]) (with_outputBuffer rest s))
  | [] =>
    match setError s with
    | Some e => with_gen (GCompleted (Throw e)) s
    | None =>
      if isDone s then with_gen (GCompleted (Normal ())) s
      else with_gen GAwaiting s
    end
  end.

(** *** Starting the workers (section 5 of the source) *)

(** [for (let i = 0; i < maxWorkers; i++) workerLoop();]: each call runs
    until its first suspension before the next one starts. *)
Fixpoint startWorkers (n : nat) (s : State) : State :=
  match n with
  | O => s
  | S n =>
      let w := length (workers s) in
      startWorkers n (runWorker w (with_workers (workers s ++ [WRunning]) s))
  end.

(** The body from its first line to the line before the generator loop. *)
Definition prologue : Completion JsError State :=
  match validate with
  | Throw e => Throw e
  | Normal maxWorkers =>
      Normal (startWorkers (Z.to_nat maxWorkers)
                (with_activeWorkers maxWorkers initialState))
  end.

(** *** The iterator and the tasks of the event loop *)

(** [exploreFilesAsync] is an [async function*]: calling it creates the
    iterator and runs nothing of the body; the body starts at the first
    pull. *)
Definition exploreFilesAsync : Iterator := SuspendedStart.

(** One task, [None] when it cannot run in [s].  A pull runs the generator
    loop from [yield]; the generator and a parked worker continue once their
    resolver has been called (a worker then runs [activeWorkers++], line 261);
    a worker waiting for [fs] continues in its [try] block with the result. *)
Definition step (l : Label) (s : State) : option State :=
  match l with
  | Next =>
      match gen s with
      | GSuspendedYield => Some (generatorLoop s)
      | _ => None
      end
  | GenResume =>
      match gen s with
      | GWoken => Some (generatorLoop s)
      | _ => None
      end
  | WorkerResume w =>
      match workers s !! w with
      | Some WWoken =>
          Some (runWorker w
                  (with_activeWorkers (activeWorkers s + 1) (set_worker w WRunning s)))
      | _ => None
      end
  | IoDone w =>
      match workers s !! w with
      | Some (WAwaitRead fileCtx) =>
          Some (runWorker w
                  (afterRead fileCtx (fs_readFile (ctx_path fileCtx))
                     (set_worker w WRunning s)))
      | Some (WAwaitReaddir dirPath) =>
          Some (runWorker w
                  (afterReaddir dirPath (fs_readdir dirPath) (set_worker w WRunning s)))
      | _ => None
      end
  end.

(** A task on the iterator: the first pull runs the body from its first
    line. *)
Definition istep (l : Label) (it : Iterator) : option Iterator :=
  match it with
  | SuspendedStart =>
      match l with
      | Next =>
          match prologue with
          | Throw e => Some (ClosedAtStart e)
          | Normal s => Some (Started (generatorLoop s))
          end
      | _ => None
      end
  | Started s => Started <$> step l s
  | ClosedAtStart _ => None
  end.

(** A run: the tasks in the order the event loop executes them. *)
Fixpoint exec (sched : list Label) (it : Iterator) : option Iterator :=
  match sched with
  | [] => Some it
  | l :: sched =>
      match istep l it with
      | Some it' => exec sched it'
      | None => None
      end
  end.

(** The same from a state of a started run. *)
Fixpoint execFrom (sched : list Label) (s : State) : option State :=
  match sched with
  | [] => Some s
  | l :: sched =>
      match step l s with
      | Some s' => execFrom sched s'
      | None => None
      end
  end.

(** The states a run passes through between two tasks. *)
Inductive reachable : State -> Prop :=
| reachable_first s0 :
    prologue = Normal s0 -> reachable (generatorLoop s0)
| reachable_step s l s' :
    reachable s -> step l s = Some s' -> reachable s'.

(** *** Vocabulary of the properties *)

(** The number is a positive integer (the same number may be written
    with different numerators and denominators). *)
Definition positiveInteger (n : JsNumber) : Prop :=
  exists q k, n = Finite q /\ (q == inject_Z k)%Q /\ 1 <= k.

(** What a task of a worker may do to the generator: nothing, or wake it. *)
Definition genKeptOrWoken (s s' : State) : Prop :=
  gen s' = gen s \/ (gen s = GAwaiting /\ gen s' = GWoken).

(** *** Where the tasks of a run come from *)

(** The directories the walker lists: the root, and every sub-directory
    entry of a listed directory that [shouldExploreDir] accepts. *)
Inductive explored : string -> Prop :=
| explored_root : explored (rootDir options)
| explored_sub dirPath entries entry :
    explored dirPath -> fs_readdir dirPath = Normal entries -> In entry entries ->
    isDirectory entry = true ->
    shouldExploreDir options (path_join dirPath (name entry)) = Normal true ->
    explored (path_join dirPath (name entry)).

(** A directory entry of a listed directory. *)
Definition candidateDir (p : string) : Prop :=
  exists dirPath entries entry,
    explored dirPath /\ fs_readdir dirPath = Normal entries /\ In entry entries /\
    isDirectory entry = true /\ p = path_join dirPath (name entry).

(** A file entry of a listed directory. *)
Definition candidateFile (f : FileWithoutContents) : Prop :=
  exists dirPath entries entry,
    explored dirPath /\ fs_readdir dirPath = Normal entries /\ In entry entries /\
    isDirectory entry = false /\ isFile entry = true /\
    ctx_path f = path_join dirPath (name entry).

Definition acceptedFile (f : FileWithoutContents) : Prop :=
  candidateFile f /\ shouldReadFile options f = Normal true.

Definition readRecord (r : FileWithContents) : Prop :=
  acceptedFile {| ctx_path := path r |} /\
  fs_readFile (path r) = Normal (buffer (contents r)).

Definition selected (r : FileWithContents) : Prop :=
  readRecord r /\ yieldPredicate r = Normal true.

Definition workerOrigin (st : WorkerState) : Prop :=
  match st with
  | WAwaitRead fileCtx => acceptedFile fileCtx
  | WAwaitReaddir dirPath => explored dirPath
  | _ => True
  end.

Definition outcomeOrigin (o : Outcome) : Prop :=
  match o with
  | OAwaitRead fileCtx => acceptedFile fileCtx
  | OAwaitReaddir dirPath => explored dirPath
  | _ => True
  end.

Definition eventOrigin (ev : Event) : Prop :=
  match ev with
  | EvReaddir dirPath => explored dirPath
  | EvReadFile p => acceptedFile {| ctx_path := p |}
  | EvShouldExploreDir dirPath => candidateDir dirPath
  | EvShouldReadFile f => candidateFile f
  | EvShouldYieldFile r => readRecord r
  end.

(** Every task, every call and every record of a run has passed the stages
    before its own. *)
Record Origins (s : State) : Prop := {
  org_dirCheck : Forall candidateDir (queueDirCheck s);
  org_dirStat : Forall explored (queueDirStat s);
  org_fileCheck : Forall candidateFile (queueFileCheck s);
  org_read : Forall acceptedFile (queueRead s);
  org_yieldCheck : Forall readRecord (queueYieldCheck s);
  org_output : Forall selected (outputBuffer s);
  org_yielded : Forall selected (yielded s);
  org_workers : Forall workerOrigin (workers s);
  org_log : Forall eventOrigin (log s)
}.

(** The path is the root or names an entry that is a directory or a file. *)
Definition listedEntry (p : string) : Prop :=
  p = rootDir options \/
  exists dirPath entries entry,
    fs_readdir dirPath = Normal entries /\ In entry entries /\
    (isDirectory entry = true \/ isFile entry = true) /\
    p = path_join dirPath (name entry).

Definition workerPaths (st : WorkerState) : list string :=
  match st with
  | WAwaitRead fileCtx => [ctx_path fileCtx]
  | WAwaitReaddir dirPath => [dirPath]
  | _ => []
  end.

Definition eventPath (ev : Event) : string :=
  match ev with
  | EvReaddir dirPath => dirPath
  | EvReadFile p => p
  | EvShouldExploreDir dirPath => dirPath
  | EvShouldReadFile f => ctx_path f
  | EvShouldYieldFile r => path r
  end.

(** Every path the run holds or has touched: in the five queues, in the
    pending [fs] calls, in the Output Buffer, among the yielded records and in
    the calls made. *)
Definition pathsOf (s : State) : list string :=
  queueDirCheck s ++ queueDirStat s ++ map ctx_path (queueFileCheck s) ++
  map ctx_path (queueRead s) ++ map path (queueYieldCheck s) ++
  map path (outputBuffer s) ++ map path (yielded s) ++
  flat_map workerPaths (workers s) ++ map eventPath (log s).

(** *** Vocabulary of the error properties *)

(** The [fs] call worker [w] is waiting for fails with [e]. *)
Definition pendingFails (s : State) (w : nat) (e : JsError) : Prop :=
  (exists fileCtx,
     workers s !! w = Some (WAwaitRead fileCtx) /\ fs_readFile (ctx_path fileCtx) = Throw e) \/
  (exists dirPath,
     workers s !! w = Some (WAwaitReaddir dirPath) /\ fs_readdir dirPath = Throw e).

(** A [workerCount] that is 0, negative, or not an integer ([NaN] and the
    infinities are not integers). *)
Definition zeroNegativeOrNotInteger (n : JsNumber) : Prop :=
  match n with
  | Finite q => (q <= 0)%Q \/ ~ (exists k : Z, (q == inject_Z k)%Q)
  | _ => True
  end.

(** The state the first pull finds when the workers have been started:
    the first worker waits for the listing of the root, the others are
    parked. *)
Definition startedState (N : Z) : State :=
  {| queueYieldCheck := []; queueRead := []; queueFileCheck := [];
     queueDirStat := []; queueDirCheck := [];
     outputBuffer := []; activeWorkers := 1; isDone := false; error := None;
     workers := WAwaitReaddir (rootDir options) :: replicate (Z.to_nat N - 1) WParked;
     gen := GExecuting; yielded := []; log := [EvReaddir (rootDir options)] |}.

(** *** The traversal property *)

Definition accepts (c : Completion JsValue bool) : bool :=
  match c with
  | Normal true => true
  | _ => false
  end.

(** The three predicates return a boolean on every argument. *)
Definition nonThrowing : Prop :=
  (forall dirPath, exists b, shouldExploreDir options dirPath = Normal b) /\
  (forall f, exists b, shouldReadFile options f = Normal b) /\
  (forall r, exists b, yieldPredicate r = Normal b).

(** The file system has the node [t] in the directory [dirPath]. *)
Fixpoint holdsNode (dirPath : string) (t : Tree) : Prop :=
  match t with
  | TFile n b => fs_readFile (path_join dirPath n) = Normal b
  | TDir n children =>
      fs_readdir (path_join dirPath n) = Normal (map entryOf children) /\
      foldr (fun c acc => holdsNode (path_join dirPath n) c /\ acc) True children
  | TOther _ => True
  end.

(** The directory [dirPath] lists [children], and so on below it. *)
Definition holdsTree (dirPath : string) (children : list Tree) : Prop :=
  fs_readdir dirPath = Normal (map entryOf children) /\
  foldr (fun c acc => holdsNode dirPath c /\ acc) True children.

(** The paths the run has to yield, from the code's point of view. *)
Definition expected (dirPath : string) (children : list Tree) : list string :=
  selectedPaths path_join
    (fun d => accepts (shouldExploreDir options d))
    (fun p => accepts (shouldReadFile options {| ctx_path := p |}))
    (fun r => accepts (yieldPredicate r))
    dirPath children.

(** *** A measure of the work left *)

(** The weight of listing a directory and of all the work that follows from
    it, read off the file system down to depth [fuel]. *)
Fixpoint weightDir (fuel : nat) (dirPath : string) : Z :=
  match fuel with
  | O => 0
  | S fuel =>
    match fs_readdir dirPath with
    | Normal entries =>
        17 + foldr (fun e acc =>
                      (if isDirectory e
                       then 16 + weightDir fuel (path_join dirPath (name e))
                       else if isFile e then 35 else 0) + acc) 0 entries
    | Throw _ => 0
    end
  end.

Definition sumDirs (fuel : nat) (extra : Z) (dirs : list string) : Z :=
  foldr (fun d acc => extra + weightDir fuel d + acc) 0 dirs.

Definition workerPotential (fuel : nat) (st : WorkerState) : Z :=
  match st with
  | WAwaitRead _ => 19
  | WAwaitReaddir dirPath => weightDir fuel dirPath
  | WWoken => 2
  | _ => 0
  end.

Definition genPotential (g : GenState) : Z :=
  match g with
  | GSuspendedYield | GWoken => 1
  | _ => 0
  end.

(** Every task of the event loop makes this number smaller: a task in a
    queue weighs more than what it turns into plus the wake-ups it causes
    (at most 8 parked workers, 2 each), a woken worker or generator weighs
    more than a parked one, and setting [isDone] pays for the last
    wake-ups. *)
Definition measure (fuel : nat) (s : State) : Z :=
  35 * Z.of_nat (length (queueFileCheck s)) + 19 * Z.of_nat (length (queueRead s))
  + 2 * Z.of_nat (length (queueYieldCheck s)) + Z.of_nat (length (outputBuffer s))
  + sumDirs fuel 0 (queueDirStat s) + sumDirs fuel 16 (queueDirCheck s)
  + sumWorkers (workerPotential fuel) (workers s) + genPotential (gen s)
  + (if isDone s then 0 else 17).

(** A bound on the number of tasks of a run over a tree. *)
Definition runBound (children : list Tree) : nat := Z.to_nat (treeWeight children + 18).

(** What holds in a run without errors, in addition to [Accounting]. *)
Record Sound (N : Z) (s : State) : Prop := {
  snd_error : error s = None;
  snd_active :
    activeWorkers s =
      sumWorkers isRunning (workers s) + sumWorkers isAwaitingIo (workers s)
        + (N - Z.of_nat (length (workers s)));
  snd_gen : isDone s = true -> gen s <> GAwaiting
}.

(** *** Every selected file is on its way *)

Definition fileYieldsAfterRead (p : string) : Prop :=
  exists b, fs_readFile p = Normal b /\ yieldPredicate (recordOf p b) = Normal true.

Definition fileYields (p : string) : Prop :=
  shouldReadFile options {| ctx_path := p |} = Normal true /\ fileYieldsAfterRead p.

(** [p] is a selected file below the directory [dirPath]. *)
Definition below (dirPath p : string) : Prop :=
  exists children, holdsTree dirPath children /\ In p (expected dirPath children).

Definition coversYielded (p : string) (r : FileWithContents) : Prop := path r = p.

Definition coversYieldCheck (p : string) (r : FileWithContents) : Prop :=
  path r = p /\ yieldPredicate r = Normal true.

Definition coversRead (p : string) (f : FileWithoutContents) : Prop :=
  ctx_path f = p /\ fileYieldsAfterRead p.

Definition coversFileCheck (p : string) (f : FileWithoutContents) : Prop :=
  ctx_path f = p /\ fileYields p.

Definition coversDirStat (p : string) (dirPath : string) : Prop := below dirPath p.

Definition coversDirCheck (p : string) (dirPath : string) : Prop :=
  shouldExploreDir options dirPath = Normal true /\ below dirPath p.

Definition workerCovers (p : string) (st : WorkerState) : Prop :=
  match st with
  | WAwaitRead fileCtx => coversRead p fileCtx
  | WAwaitReaddir dirPath => coversDirStat p dirPath
  | _ => False
  end.

Definition outcomeCovers (p : string) (o : Outcome) : Prop :=
  match o with
  | OAwaitRead fileCtx => coversRead p fileCtx
  | OAwaitReaddir dirPath => coversDirStat p dirPath
  | _ => False
  end.

(** The path has been yielded, or a task that leads to its being yielded
    is in a queue or pending. *)
Definition covered (s : State) (p : string) : Prop :=
  Exists (coversYielded p) (yielded s) \/ Exists (coversYielded p) (outputBuffer s) \/
  Exists (coversYieldCheck p) (queueYieldCheck s) \/
  Exists (coversRead p) (queueRead s) \/
  Exists (coversFileCheck p) (queueFileCheck s) \/
  Exists (coversDirStat p) (queueDirStat s) \/
  Exists (coversDirCheck p) (queueDirCheck s) \/
  Exists (workerCovers p) (workers s).

Definition genSettled (g : GenState) : Prop :=
  match g with
  | GExecuting | GCompleted (Throw _) => False
  | _ => True
  end.

(** What the traversal proof carries from task to task. *)
Record Steady (N : Z) (s : State) : Prop := {
  std_accounting : Accounting N s;
  std_quiescent : quiescent s;
  std_sound : Sound N s;
  std_origins : Origins s;
  std_gen : genSettled (gen s);
  std_ceiling : N <= 8;
  std_workers : Z.of_nat (length (workers s)) = N;
  std_completed : gen s = GCompleted (Normal ()) -> isDone s = true /\ outputBuffer s = []
}.

(** The paths of the specification's set, for the same predicates. *)
Definition claimed (dirPath : string) (children : list Tree) : list string :=
  claimedPaths path_join
    (fun d => accepts (shouldExploreDir options d))
    (fun p => accepts (shouldReadFile options {| ctx_path := p |}))
    (fun r => accepts (yieldPredicate r))
    dirPath children.

(** *** Vocabulary of the properties of every run *)


(** What is left to do once the slot holds a truthy value: the workers that
    have not returned, the records in the Output Buffer, and the pull (or the
    continuation of the generator) that will find the buffer empty. *)
Definition unsettled (st : WorkerState) : Z :=
  match st with
  | WRunning | WReturned => 0
  | _ => 1
  end.

Definition remaining (s : State) : Z :=
  sumWorkers unsettled (workers s) + Z.of_nat (length (outputBuffer s))
  + match gen s with GSuspendedYield | GWoken => 1 | _ => 0 end.

(** Whatever a predicate throws is truthy: it throws [Error] objects, say,
    and never [undefined], [null], [false], [0], [NaN] or the empty string. *)
Definition truthyThrows : Prop :=
  (forall dirPath e, shouldExploreDir options dirPath = Throw e -> truthy e = true) /\
  (forall f e, shouldReadFile options f = Throw e -> truthy e = true) /\
  (forall r e, yieldPredicate r = Throw e -> truthy e = true).

(** No task of the event loop can run. *)
Definition finished (s : State) : Prop := forall l, step l s = None.

(** The records for which [shouldYieldFile] returned [true], in the order of
    the calls. *)
Definition acceptedCall (ev : Event) : list FileWithContents :=
  match ev with
  | EvShouldYieldFile r => if accepts (yieldPredicate r) then [r] else []
  | _ => []
  end.

Definition acceptedRecords (evs : list Event) : list FileWithContents :=
  flat_map acceptedCall evs.

(** The call [ev] throws (for [fs]: rejects with) [e]. *)
Definition raises (ev : Event) (e : JsValue) : Prop :=
  match ev with
  | EvReaddir dirPath => exists e', fs_readdir dirPath = Throw e' /\ e = VError e'
  | EvReadFile p => exists e', fs_readFile p = Throw e' /\ e = VError e'
  | EvShouldExploreDir dirPath => shouldExploreDir options dirPath = Throw e
  | EvShouldReadFile f => shouldReadFile options f = Throw e
  | EvShouldYieldFile r => yieldPredicate r = Throw e
  end.

(** The [fs] call a worker is waiting for has been made. *)
Definition pendingLogged (lg : list Event) (st : WorkerState) : Prop :=
  match st with
  | WAwaitRead fileCtx => In (EvReadFile (ctx_path fileCtx)) lg
  | WAwaitReaddir dirPath => In (EvReaddir dirPath) lg
  | _ => True
  end.

(** While no error is recorded, [activeWorkers] counts exactly the workers
    that are executing or waiting for [fs] (and those not yet started). *)
Definition Counting (N : Z) (s : State) : Prop :=
  error s = None ->
  activeWorkers s =
    sumWorkers isRunning (workers s) + sumWorkers isAwaitingIo (workers s)
      + (N - Z.of_nat (length (workers s))).

(** How the generator stands to the flags it tests. *)
Record Handshake (s : State) : Prop := {
  hs_started : gen s <> GExecuting;
  hs_waiting : gen s = GAwaiting -> setError s = None /\ isDone s = false;
  hs_normal : gen s = GCompleted (Normal ()) -> isDone s = true /\ outputBuffer s = [];
  hs_thrown : forall e, gen s = GCompleted (Throw e) -> is_Some (setError s) /\ outputBuffer s = []
}.

(** The error the sequence has ended with, if any. *)
Definition thrownBy (g : GenState) : option JsValue :=
  match g with
  | GCompleted (Throw e) => Some e
  | _ => None
  end.

(** What the calls made so far say about the records and the error. *)
Record History (s : State) : Prop := {
  hist_fifo : yielded s ++ outputBuffer s = acceptedRecords (log s);
  hist_raised : forall e, error s = Some e -> exists ev, In ev (log s) /\ raises ev e;
  hist_thrown :
    forall e, thrownBy (gen s) = Some e -> exists ev, In ev (log s) /\ raises ev e;
  hist_pending : Forall (pendingLogged (log s)) (workers s)
}.

(** No worker sleeps while a queue holds a task. *)
Definition NoneAsleep (s : State) : Prop :=
  allQueuesEmpty s = false -> sumWorkers isParked (workers s) = 0.

(** *** Vocabulary of the single-worker property *)

(** The state as the workers see it.  A worker neither reads where the
    generator stands nor how the accepted records are split between the Output
    Buffer and the consumer: it only appends to the one and wakes the other. *)
Definition workerSide (s : State) : State :=
  with_gen GExecuting (with_outputBuffer [] (with_yielded [] s)).

(** The task of the first worker that can run, if any. *)
Definition workerTask (s : State) : option Label :=
  match workers s !! 0%nat with
  | Some WWoken => Some (WorkerResume 0)
  | Some (WAwaitRead _) | Some (WAwaitReaddir _) => Some (IoDone 0)
  | _ => None
  end.

Definition advance (s : State) : option State :=
  match workerTask s with
  | Some l => step l s
  | None => None
  end.

Fixpoint advanceBy (k : nat) (s : State) : option State :=
  match k with
  | O => Some s
  | S k =>
      match advance s with
      | Some s' => advanceBy k s'
      | None => None
      end
  end.

(** With one worker, a truthy value in the slot means that the worker has
    returned, and the value the sequence ended with is the one in the slot. *)
Definition Alone (N : Z) (s : State) : Prop :=
  N = 1 ->
  (is_Some (setError s) -> workers s = [WReturned]) /\
  (forall e, gen s = GCompleted (Throw e) -> setError s = Some e).

(** The state of a run whose listing of the root has failed with [e]: the
    first worker has returned without decrementing [activeWorkers], the others
    are parked for good. *)
Definition rootFailed (N : Z) (e : JsError) (g : GenState) : State :=
  {| queueYieldCheck := []; queueRead := []; queueFileCheck := [];
     queueDirStat := []; queueDirCheck := [];
     outputBuffer := []; activeWorkers := 1; isDone := false; error := Some (VError e);
     workers := WReturned :: replicate (Z.to_nat N - 1) WParked;
     gen := g; yielded := []; log := [EvReaddir (rootDir options)] |}.

(** *** The calls a traversal makes *)

(** The calls that the entry [t] of the listed directory [dirPath] causes
    when no predicate throws and no [fs] call fails. *)
Fixpoint callsNode (dirPath : string) (t : Tree) : list Event :=
  match t with
  | TFile n b =>
      let p := path_join dirPath n in
      EvShouldReadFile {| ctx_path := p |} ::
      (if accepts (shouldReadFile options {| ctx_path := p |})
       then [EvReadFile p; EvShouldYieldFile (recordOf p b)]
       else [])
  | TDir n children =>
      let d := path_join dirPath n in
      EvShouldExploreDir d ::
      (if accepts (shouldExploreDir options d)
       then EvReaddir d :: flat_map (callsNode d) children
       else [])
  | TOther _ => []
  end.

(** The calls of a traversal of the tree [children] at [dirPath]. *)
Definition expectedCalls (dirPath : string) (children : list Tree) : list Event :=
  EvReaddir dirPath :: flat_map (callsNode dirPath) children.

(** How many elements of a list satisfy [phi]. *)
Definition hit {A} (phi : A -> bool) (x : A) : Z := if phi x then 1 else 0.

Definition hits {A} (phi : A -> bool) (l : list A) : Z :=
  foldr (fun x acc => hit phi x + acc) 0 l.

Definition sumOver {A} (f : A -> Z) (l : list A) : Z :=
  foldr (fun x acc => f x + acc) 0 l.

(** How many calls satisfying [phi] a task in a queue, or a pending [fs] call,
    still leads to; read off the file system down to depth [fuel]. *)
Definition hitsAfterRead (phi : Event -> bool) (p : string) : Z :=
  match fs_readFile p with
  | Normal b => hit phi (EvShouldYieldFile (recordOf p b))
  | Throw _ => 0
  end.

Definition hitsRead (phi : Event -> bool) (f : FileWithoutContents) : Z :=
  hit phi (EvReadFile (ctx_path f)) + hitsAfterRead phi (ctx_path f).

Definition hitsFileCheck (phi : Event -> bool) (f : FileWithoutContents) : Z :=
  hit phi (EvShouldReadFile f) +
  (if accepts (shouldReadFile options f) then hitsRead phi f else 0).

Fixpoint hitsAfterReaddir (phi : Event -> bool) (fuel : nat) (dirPath : string) : Z :=
  match fuel with
  | O => 0
  | S fuel =>
    match fs_readdir dirPath with
    | Normal entries =>
        foldr (fun e acc =>
                 (if isDirectory e
                  then hit phi (EvShouldExploreDir (path_join dirPath (name e))) +
                       (if accepts (shouldExploreDir options (path_join dirPath (name e)))
                        then hit phi (EvReaddir (path_join dirPath (name e))) +
                             hitsAfterReaddir phi fuel (path_join dirPath (name e))
                        else 0)
                  else if isFile e
                       then hitsFileCheck phi {| ctx_path := path_join dirPath (name e) |}
                       else 0) + acc) 0 entries
    | Throw _ => 0
    end
  end.

Definition hitsDirStat (phi : Event -> bool) (fuel : nat) (dirPath : string) : Z :=
  hit phi (EvReaddir dirPath) + hitsAfterReaddir phi fuel dirPath.

Definition hitsDirCheck (phi : Event -> bool) (fuel : nat) (dirPath : string) : Z :=
  hit phi (EvShouldExploreDir dirPath) +
  (if accepts (shouldExploreDir options dirPath) then hitsDirStat phi fuel dirPath else 0).

Definition hitsWorker (phi : Event -> bool) (fuel : nat) (st : WorkerState) : Z :=
  match st with
  | WAwaitRead fileCtx => hitsAfterRead phi (ctx_path fileCtx)
  | WAwaitReaddir dirPath => hitsAfterReaddir phi fuel dirPath
  | _ => 0
  end.

(** The calls made plus the calls to come: constant along a run. *)
Definition tally (phi : Event -> bool) (fuel : nat) (s : State) : Z :=
  hits phi (log s)
  + sumOver (fun r => hit phi (EvShouldYieldFile r)) (queueYieldCheck s)
  + sumOver (hitsRead phi) (queueRead s)
  + sumOver (hitsFileCheck phi) (queueFileCheck s)
  + sumOver (hitsDirStat phi fuel) (queueDirStat s)
  + sumOver (hitsDirCheck phi fuel) (queueDirCheck s)
  + sumWorkers (hitsWorker phi fuel) (workers s).

(** *** Driving a run to its end *)

(** The task of worker [w] when it is in [st]: its [fs] call settles, or it
    continues after it has been woken. *)
Definition taskOf (w : nat) (st : WorkerState) : option Label :=
  match st with
  | WWoken => Some (WorkerResume w)
  | WAwaitRead _ | WAwaitReaddir _ => Some (IoDone w)
  | _ => None
  end.

Fixpoint firstWorkerTask (w : nat) (ws : list WorkerState) : option Label :=
  match ws with
  | [] => None
  | st :: ws =>
      match taskOf w st with
      | Some l => Some l
      | None => firstWorkerTask (S w) ws
      end
  end.

(** A task that can run in [s], if there is one: the consumer pulls as soon
    as it has received a record, the generator continues as soon as it has
    been woken, otherwise the first worker that can continue does. *)
Definition nextTask (s : State) : option Label :=
  match gen s with
  | GSuspendedYield => Some Next
  | GWoken => Some GenResume
  | _ => firstWorkerTask 0 (workers s)
  end.

(** The schedule that runs [nextTask] until no task is left, [fuel] tasks at
    most. *)
Fixpoint drain (fuel : nat) (s : State) : list Label :=
  match fuel with
  | O => []
  | S fuel =>
      match nextTask s with
      | Some l =>
          match step l s with
          | Some s' => l :: drain fuel s'
          | None => []
          end
      | None => []
      end
  end.

(* ================================================================= *)
(** *** The worker loop always reaches a suspension or a [return] *)

Ltac unfold_stages :=
  unfold iteration, setError, stageYieldCheck, stageFileCheck, stageDirCheck,
    stageIdle, notifyGenerator, notifyWorkers, record_event, settle, set_worker,
    with_queueYieldCheck, with_queueRead, with_queueFileCheck, with_queueDirStat,
    with_queueDirCheck, with_outputBuffer, with_activeWorkers, with_isDone, with_error,
    with_workers, with_gen, with_yielded in *.

(** Evaluates [if (error)] with what is known of the value in the slot. *)
Ltac slot_tests :=
  unfold setError; simpl;
  repeat match goal with H : truthy _ = _ |- _ => rewrite H end.

Lemma iteration_continue_syncWork s s' :
  iteration s = (OContinue, s') -> (syncWork s' < syncWork s)%nat.
Proof.
  destruct s; unfold syncWork; unfold_stages; simpl; intros H.
  repeat case_match; simplify_eq/=; lia.
Qed.

Lemma workerLoop_total fuel w s :
  (syncWork s < fuel)%nat -> is_Some (workerLoop fuel w s).
Proof.
  revert s. induction fuel as [|fuel IH]; intros s Hlt; [lia|].
  simpl. destruct (iteration s) as [o s'] eqn:Hit.
  destruct o; eauto.
  apply IH. apply iteration_continue_syncWork in Hit. lia.
Qed.

Lemma runWorker_eq w s : workerLoop (S (syncWork s)) w s = Some (runWorker w s).
Proof.
  unfold runWorker.
  destruct (workerLoop_total (S (syncWork s)) w s) as [s' Hs']; [lia|].
  by rewrite Hs'.
Qed.

(** Proof rule for one task of a worker: [P] is kept by the iterations that
    [continue], and the iteration that suspends or returns establishes [Q]. *)
Lemma workerLoop_rule (P Q : State -> Prop) w :
  (forall s o s', P s -> iteration s = (o, s') ->
     match o with OContinue => P s' | _ => Q (settle w o s') end) ->
  forall fuel s s', P s -> workerLoop fuel w s = Some s' -> Q s'.
Proof.
  intros Hit. induction fuel as [|fuel IH]; intros s s' HP Hrun; [done|].
  simpl in Hrun. destruct (iteration s) as [o s1] eqn:E.
  specialize (Hit s o s1 HP E).
  destruct o; simplify_eq/=; eauto.
Qed.

Lemma runWorker_rule (P Q : State -> Prop) w s :
  (forall s o s', P s -> iteration s = (o, s') ->
     match o with OContinue => P s' | _ => Q (settle w o s') end) ->
  P s -> Q (runWorker w s).
Proof.
  intros Hit HP. eapply workerLoop_rule; eauto. apply runWorker_eq.
Qed.

(** *** Counting workers *)

Lemma sumWorkers_app f ws st : sumWorkers f (ws ++ [st]) = sumWorkers f ws + f st.
Proof. induction ws as [|a ws IH]; simpl; lia. Qed.

Lemma sumWorkers_insert f ws w old new :
  ws !! w = Some old ->
  sumWorkers f (<[w := new]> ws) = sumWorkers f ws - f old + f new.
Proof.
  revert w. induction ws as [|a ws IH]; intros [|w] H; simplify_eq/=.
  - unfold sumWorkers; simpl; lia.
  - rewrite (IH w H). lia.
Qed.

Lemma sumWorkers_nonneg f ws : (forall st, 0 <= f st) -> 0 <= sumWorkers f ws.
Proof. intros Hf. induction ws as [|a ws IH]; simpl; [lia|]. specialize (Hf a). lia. Qed.

Lemma sumWorkers_lookup f ws w st :
  (forall st, 0 <= f st) -> ws !! w = Some st -> f st <= sumWorkers f ws.
Proof.
  intros Hf. revert w. induction ws as [|a ws IH]; intros [|w] H; simplify_eq/=.
  - pose proof (sumWorkers_nonneg f ws Hf). lia.
  - specialize (IH w H). specialize (Hf a). lia.
Qed.

Lemma sumWorkers_wake_running ws :
  sumWorkers isRunning (wake <$> ws) = sumWorkers isRunning ws.
Proof. induction ws as [|[] ws IH]; rewrite ?fmap_cons; simpl in *; lia. Qed.

Lemma sumWorkers_wake_io ws :
  sumWorkers isAwaitingIo (wake <$> ws) = sumWorkers isAwaitingIo ws.
Proof. induction ws as [|[] ws IH]; rewrite ?fmap_cons; simpl in *; lia. Qed.

Lemma sumWorkers_wake_parked ws : sumWorkers isParked (wake <$> ws) = 0.
Proof. induction ws as [|[] ws IH]; rewrite ?fmap_cons; simpl in *; lia. Qed.

Lemma sumWorkers_wake_woken ws :
  sumWorkers isWoken (wake <$> ws) = sumWorkers isWoken ws + sumWorkers isParked ws.
Proof. induction ws as [|[] ws IH]; rewrite ?fmap_cons; simpl in *; lia. Qed.

Lemma isRunning_nonneg st : 0 <= isRunning st.
Proof. destruct st; simpl; lia. Qed.

Lemma isAwaitingIo_nonneg st : 0 <= isAwaitingIo st.
Proof. destruct st; simpl; lia. Qed.

Lemma isParked_nonneg st : 0 <= isParked st.
Proof. destruct st; simpl; lia. Qed.

Lemma isWoken_nonneg st : 0 <= isWoken st.
Proof. destruct st; simpl; lia. Qed.

Lemma lookup_wake_running (ws : list WorkerState) w :
  ws !! w = Some WRunning -> (wake <$> ws) !! w = Some WRunning.
Proof. intros H. by rewrite list_lookup_fmap, H. Qed.

(** Rewrites the worker sums of an updated worker list. *)
Ltac sums :=
  repeat first
    [ rewrite sumWorkers_wake_running | rewrite sumWorkers_wake_io
    | rewrite sumWorkers_wake_parked | rewrite sumWorkers_wake_woken
    | rewrite length_insert | rewrite length_fmap
    | erewrite sumWorkers_insert by (first [eassumption | by apply lookup_wake_running])
    | rewrite sumWorkers_app | rewrite length_app ];
  simpl.

Ltac worker_facts ws :=
  pose proof (sumWorkers_nonneg isRunning ws isRunning_nonneg);
  pose proof (sumWorkers_nonneg isAwaitingIo ws isAwaitingIo_nonneg);
  pose proof (sumWorkers_nonneg isParked ws isParked_nonneg);
  pose proof (sumWorkers_nonneg isWoken ws isWoken_nonneg).

(** Turns the test of [stageIdle] into arithmetic. *)
Ltac idle_condition :=
  repeat match goal with
  | H : (_ =? _) && allQueuesEmpty _ = _ |- _ =>
      unfold allQueuesEmpty in H; simpl in H; rewrite andb_true_r in H;
      first [apply Z.eqb_eq in H | apply Z.eqb_neq in H]
  end.

(** *** The accounting invariant *)

Lemma accounting_iteration N w s o s' :
  Accounting N s -> workers s !! w = Some WRunning -> iteration s = (o, s') ->
  match o with
  | OContinue => Accounting N s' /\ workers s' !! w = Some WRunning
  | _ => Accounting N (settle w o s') /\ quiescent (settle w o s')
  end.
Proof.
  intros [Hlen Hrun Hlo Hup Hdone Hzero] Hw Hit.
  destruct s as [qy qr qf qs qc ob aw dn er ws g yl lg].
  unfold quiescent, allQueuesEmpty in *. simpl in *.
  worker_facts ws.
  pose proof (sumWorkers_lookup isRunning ws w _ isRunning_nonneg Hw) as Hone.
  simpl in Hone.
  unfold_stages; simpl in *.
  repeat case_match; simplify_eq/=; idle_condition;
    (split; [constructor|]); unfold allQueuesEmpty; slot_tests;
    try lia; try done; sums; try lia;
    try (by apply lookup_wake_running);
    try (intros Hd; destruct (Hdone Hd) as (? & ? & ? & ?); done);
    try (intros Hd; destruct (Hdone Hd) as (? & ? & ? & ?); repeat split; lia);
    try (intros _; repeat split; lia).
Qed.

Lemma sortEntry_fields dirPath s e :
  let s' := sortEntry dirPath s e in
  queueYieldCheck s' = queueYieldCheck s /\ queueRead s' = queueRead s /\
  queueDirStat s' = queueDirStat s /\ outputBuffer s' = outputBuffer s /\
  activeWorkers s' = activeWorkers s /\ isDone s' = isDone s /\ error s' = error s /\
  workers s' = workers s /\ gen s' = gen s /\ yielded s' = yielded s /\ log s' = log s.
Proof. unfold sortEntry. repeat case_match; simpl; tauto. Qed.

Lemma sortEntries_fields dirPath entries s :
  let s' := fold_left (sortEntry dirPath) entries s in
  queueYieldCheck s' = queueYieldCheck s /\ queueRead s' = queueRead s /\
  queueDirStat s' = queueDirStat s /\ outputBuffer s' = outputBuffer s /\
  activeWorkers s' = activeWorkers s /\ isDone s' = isDone s /\ error s' = error s /\
  workers s' = workers s /\ gen s' = gen s /\ yielded s' = yielded s /\ log s' = log s.
Proof.
  revert s. induction entries as [|e es IH]; intros s; simpl; [tauto|].
  specialize (IH (sortEntry dirPath s e)). simpl in IH.
  destruct (sortEntry_fields dirPath s e)
    as (E1 & E2 & E3 & E4 & E5 & E6 & E7 & E8 & E9 & E10 & E11).
  rewrite E1, E2, E3, E4, E5, E6, E7, E8, E9, E10, E11 in IH. exact IH.
Qed.

Lemma accounting_same_sync N s s' :
  Accounting N s -> isDone s = false ->
  activeWorkers s' = activeWorkers s -> isDone s' = isDone s ->
  workers s' = workers s -> Accounting N s'.
Proof.
  intros [Hlen Hrun Hlo Hup Hdone Hzero] Hnd Ha Hd Hws.
  constructor; rewrite ?Ha, ?Hd, ?Hws; try done; congruence.
Qed.

Lemma accounting_notifyWorkers N s :
  Accounting N s -> isDone s = false -> Accounting N (notifyWorkers s).
Proof.
  intros [Hlen Hrun Hlo Hup Hdone Hzero] Hnd.
  destruct s as [qy qr qf qs qc ob aw dn er ws g yl lg]. simpl in *. subst dn.
  constructor; simpl; sums; try lia; try done.
Qed.

Lemma accounting_afterRead N w fileCtx r s :
  Accounting N s -> isDone s = false -> workers s !! w = Some WRunning ->
  Accounting N (afterRead fileCtx r s) /\
  workers (afterRead fileCtx r s) !! w = Some WRunning.
Proof.
  intros Hacc Hnd Hw. unfold afterRead. destruct r as [b|e].
  - split; [|by apply lookup_wake_running].
    apply accounting_notifyWorkers; [|done].
    eapply accounting_same_sync; eauto.
  - split.
    + eapply accounting_same_sync; eauto; unfold notifyGenerator; by case_match.
    + unfold notifyGenerator; by case_match.
Qed.

Lemma accounting_afterReaddir N w dirPath r s :
  Accounting N s -> isDone s = false -> workers s !! w = Some WRunning ->
  Accounting N (afterReaddir dirPath r s) /\
  workers (afterReaddir dirPath r s) !! w = Some WRunning.
Proof.
  intros Hacc Hnd Hw. unfold afterReaddir. destruct r as [entries|e].
  - destruct (sortEntries_fields dirPath entries s)
      as (_ & _ & _ & _ & Ha & Hd & _ & Hws & _).
    assert (Accounting N (fold_left (sortEntry dirPath) entries s))
      by (eapply accounting_same_sync; eauto).
    case_match.
    + split; [apply accounting_notifyWorkers; [done|congruence]|].
      apply lookup_wake_running. simpl. by rewrite Hws.
    + split; [done|by rewrite Hws].
  - split.
    + eapply accounting_same_sync; eauto; unfold notifyGenerator; by case_match.
    + unfold notifyGenerator; by case_match.
Qed.

Lemma accounting_resume N w s :
  Accounting N s -> quiescent s -> workers s !! w = Some WWoken ->
  let s' := with_activeWorkers (activeWorkers s + 1) (set_worker w WRunning s) in
  Accounting N s' /\ workers s' !! w = Some WRunning.
Proof.
  intros [Hlen Hrun Hlo Hup Hdone Hzero] Hq Hw.
  destruct s as [qy qr qf qs qc ob aw dn er ws g yl lg].
  unfold quiescent in *. simpl in *. worker_facts ws.
  split; [|apply list_lookup_insert_eq; by eapply lookup_lt_Some].
  constructor; simpl; sums; try lia; try done.
  intros Hd. destruct (Hdone Hd) as (? & ? & ? & ?). repeat split; try done; lia.
Qed.

Lemma accounting_io N w st s :
  Accounting N s -> quiescent s -> workers s !! w = Some st -> isAwaitingIo st = 1 ->
  let s' := set_worker w WRunning s in
  Accounting N s' /\ workers s' !! w = Some WRunning /\ isDone s' = false.
Proof.
  intros [Hlen Hrun Hlo Hup Hdone Hzero] Hq Hw Hio.
  destruct s as [qy qr qf qs qc ob aw dn er ws g yl lg].
  unfold quiescent in *. simpl in *. worker_facts ws.
  pose proof (sumWorkers_lookup isAwaitingIo ws w _ isAwaitingIo_nonneg Hw) as Hone.
  assert (dn = false) as ->.
  { destruct dn; [|done]. destruct (Hdone eq_refl) as (? & ? & ? & ?). lia. }
  split; [|split; [apply list_lookup_insert_eq; by eapply lookup_lt_Some|done]].
  destruct st; simplify_eq/=; constructor; simpl; sums; try lia; try done.
Qed.

Lemma accounting_runWorker N w s :
  Accounting N s -> workers s !! w = Some WRunning ->
  Accounting N (runWorker w s) /\ quiescent (runWorker w s).
Proof.
  intros Hacc Hw.
  apply (runWorker_rule
           (fun s => Accounting N s /\ workers s !! w = Some WRunning)
           (fun s => Accounting N s /\ quiescent s)); [|done].
  intros s0 o s' [Ha Hl] Hit.
  pose proof (accounting_iteration N w s0 o s' Ha Hl Hit) as H.
  destruct o; exact H.
Qed.

Lemma generatorLoop_fields s :
  let s' := generatorLoop s in
  queueYieldCheck s' = queueYieldCheck s /\ queueRead s' = queueRead s /\
  queueFileCheck s' = queueFileCheck s /\ queueDirStat s' = queueDirStat s /\
  queueDirCheck s' = queueDirCheck s /\ activeWorkers s' = activeWorkers s /\
  isDone s' = isDone s /\ error s' = error s /\ workers s' = workers s /\ log s' = log s.
Proof. unfold generatorLoop. repeat case_match; simpl; tauto. Qed.

Lemma accounting_generatorLoop N s :
  Accounting N s -> quiescent s ->
  Accounting N (generatorLoop s) /\ quiescent (generatorLoop s).
Proof.
  intros [Hlen Hrun Hlo Hup Hdone Hzero] Hq.
  destruct (generatorLoop_fields s) as (H1 & H2 & H3 & H4 & H5 & Ha & Hd & He & Hws & _).
  unfold quiescent, allQueuesEmpty, setError in *.
  split; [constructor|]; unfold allQueuesEmpty, setError;
    rewrite ?H1, ?H2, ?H3, ?H4, ?H5, ?Ha, ?Hd, ?He, ?Hws; done.
Qed.

Lemma accounting_step N l s s' :
  Accounting N s -> quiescent s -> step l s = Some s' ->
  Accounting N s' /\ quiescent s'.
Proof.
  intros Hacc Hq Hstep. destruct l as [| |w|w]; simpl in Hstep.
  - case_match; simplify_eq. by apply accounting_generatorLoop.
  - case_match; simplify_eq. by apply accounting_generatorLoop.
  - destruct (workers s !! w) as [[]|] eqn:Hw; simplify_eq.
    destruct (accounting_resume N w s Hacc Hq Hw). by apply accounting_runWorker.
  - destruct (workers s !! w) as [[]|] eqn:Hw; simplify_eq.
    + destruct (accounting_io N w _ s Hacc Hq Hw eq_refl) as (? & ? & ?).
      destruct (accounting_afterRead N w fileCtx (fs_readFile (ctx_path fileCtx))
                  (set_worker w WRunning s)); try done.
      by apply accounting_runWorker.
    + destruct (accounting_io N w _ s Hacc Hq Hw eq_refl) as (? & ? & ?).
      destruct (accounting_afterReaddir N w dirPath (fs_readdir dirPath)
                  (set_worker w WRunning s)); try done.
      by apply accounting_runWorker.
Qed.

(** *** Validation *)

Lemma Qred_inject_Z k : Qred (inject_Z k) = inject_Z k.
Proof. apply Qcanon.Qred_identity. simpl. apply Z.gcd_1_r. Qed.

Lemma validate_positive_integer q k :
  workerCount options = Some (Finite q) -> (q == inject_Z k)%Q -> 1 <= k ->
  validate = Normal (Z.min k MAX_WORKER_COUNT).
Proof.
  intros Hwc Hq Hk. unfold validate. rewrite Hwc.
  cbv beta zeta iota delta [Number_isInteger lessThanOne].
  rewrite (Qred_complete _ _ Hq), Qred_inject_Z. cbn [inject_Z Qden Qnum].
  assert (Qle_bool (1 # 1) q = true) as ->; [|done].
  apply Qle_bool_iff. rewrite Hq.
  change (inject_Z 1 <= inject_Z k)%Q. by rewrite <- Zle_Qle.
Qed.

Lemma validate_default : workerCount options = None -> validate = Normal 1.
Proof. intros Hwc. unfold validate. by rewrite Hwc. Qed.

Lemma validate_accepts N :
  validate = Normal N ->
  1 <= N <= MAX_WORKER_COUNT /\
  (workerCount options = None \/
   exists n, workerCount options = Some n /\ positiveInteger n).
Proof.
  unfold validate.
  destruct (workerCount options) as [[q| | |]|];
    cbv beta zeta iota delta [Number_isInteger lessThanOne]; try done.
  - destruct (Pos.eqb (Qden (Qred q)) 1) eqn:Hden; cbn [negb orb]; [|done].
    destruct (Qle_bool (1 # 1) q) eqn:Hle; cbn [negb orb]; [|done].
    intros [= <-]. apply Pos.eqb_eq in Hden. apply Qle_bool_iff in Hle.
    assert (Hred : Qred q = inject_Z (Qnum (Qred q))).
    { destruct (Qred q) as [a b]. simpl in *. by subst b. }
    assert (1 <= Qnum (Qred q)).
    { rewrite Zle_Qle, <- Hred. by rewrite Qred_correct. }
    split; [unfold MAX_WORKER_COUNT; lia|]. right. eexists; split; [done|].
    exists q, (Qnum (Qred q)). split; [done|]. split; [|done].
    rewrite <- Hred. symmetry. apply Qred_correct.
  - intros [= <-]. unfold MAX_WORKER_COUNT. split; [lia|]. by left.
Qed.

Lemma validate_rejects n :
  workerCount options = Some n -> ~ positiveInteger n ->
  validate = Throw (Error "workerCount must be a positive integer.").
Proof.
  intros Hwc Hn. destruct validate as [N|e] eqn:Hv.
  - destruct (validate_accepts N Hv) as [_ [Hnone|(n' & Hn' & Hpos)]]; [congruence|].
    rewrite Hwc in Hn'. by simplify_eq.
  - revert Hv. unfold validate. cbv zeta.
    destruct (_ || _); [by intros [= <-]|]. by repeat case_match.
Qed.

(** *** Starting the workers *)

Lemma runWorker_length w s : length (workers (runWorker w s)) = length (workers s).
Proof.
  apply (runWorker_rule (fun s' => length (workers s') = length (workers s))
           (fun s' => length (workers s') = length (workers s))); [|done].
  intros s0 o s' Hlen Hit. destruct s0. unfold_stages. simpl in *.
  repeat case_match; simplify_eq/=; rewrite ?length_insert, ?length_fmap; done.
Qed.

Lemma accounting_startWorkers N n s :
  Accounting N s -> quiescent s -> Z.of_nat (length (workers s) + n) <= N ->
  let s' := startWorkers n s in
  Accounting N s' /\ quiescent s' /\ length (workers s') = (length (workers s) + n)%nat.
Proof.
  revert s. induction n as [|n IH]; intros s Hacc Hq Hlen; simpl.
  { split; [done|]. split; [done|lia]. }
  set (s1 := with_workers (workers s ++ [WRunning]) s).
  assert (Hacc1 : Accounting N s1 /\ workers s1 !! length (workers s) = Some WRunning).
  { destruct Hacc as [Hl Hrun Hlo Hup Hdone Hzero].
    destruct s as [qy qr qf qs qc ob aw dn er ws g yl lg].
    unfold quiescent, s1 in *. simpl in *. worker_facts ws.
    split; [|by rewrite lookup_app_r, Nat.sub_diag by lia].
    constructor; simpl; sums; try lia; try done.
    intros Hd. destruct (Hdone Hd) as (? & ? & ? & ?). lia. }
  destruct Hacc1 as [Hacc1 Hw1].
  destruct (accounting_runWorker N _ s1 Hacc1 Hw1) as [Hacc2 Hq2].
  pose proof (runWorker_length (length (workers s)) s1) as Hlen2.
  assert (Hlen1 : length (workers s1) = S (length (workers s))).
  { unfold s1. simpl. rewrite length_app. simpl. lia. }
  destruct (IH _ Hacc2 Hq2) as (? & ? & ?); [lia|].
  split; [done|]. split; [done|]. lia.
Qed.

Lemma accounting_prologue s0 :
  prologue = Normal s0 ->
  exists N, validate = Normal N /\ Accounting N s0 /\ quiescent s0 /\
            Z.of_nat (length (workers s0)) = N.
Proof.
  unfold prologue. destruct validate as [N|e] eqn:Hv; [|done]. intros [= <-].
  destruct (validate_accepts N Hv) as [HN _].
  exists N. split; [done|].
  destruct (accounting_startWorkers N (Z.to_nat N)
              (with_activeWorkers N initialState)) as (? & ? & Hlen).
  - constructor; simpl; try lia; try done.
  - done.
  - simpl. lia.
  - split; [done|]. split; [done|]. rewrite Hlen. simpl. lia.
Qed.

Lemma step_length l s s' :
  step l s = Some s' -> length (workers s') = length (workers s).
Proof.
  destruct (generatorLoop_fields s) as (_ & _ & _ & _ & _ & _ & _ & _ & Hws & _).
  destruct l as [| |w|w]; simpl; intros Hstep; repeat case_match; simplify_eq;
    rewrite ?runWorker_length; try by rewrite Hws.
  - simpl. by rewrite length_insert.
  - unfold afterRead. repeat case_match; unfold_stages; simpl;
      repeat case_match; simpl; rewrite ?length_fmap, ?length_insert; done.
  - unfold afterReaddir. repeat case_match;
      try (destruct (sortEntries_fields dirPath a (set_worker w WRunning s))
            as (_ & _ & _ & _ & _ & _ & _ & Hw' & _));
      unfold notifyGenerator, notifyWorkers; repeat case_match; simpl;
      rewrite ?length_fmap, ?Hw'; simpl; rewrite ?length_insert; done.
Qed.

(** Between two tasks of any run the accounting holds, no worker is
    executing, and all [maxWorkers] workers exist. *)
Lemma reachable_accounting s :
  reachable s ->
  exists N, validate = Normal N /\ Accounting N s /\ quiescent s /\
            Z.of_nat (length (workers s)) = N.
Proof.
  induction 1 as [s0 Hp|s l s' Hr (N & Hv & Hacc & Hq & Hlen) Hstep].
  - destruct (accounting_prologue s0 Hp) as (N & Hv & Hacc & Hq & Hlen).
    exists N. split; [done|].
    destruct (accounting_generatorLoop N s0 Hacc Hq).
    destruct (generatorLoop_fields s0) as (_ & _ & _ & _ & _ & _ & _ & _ & Hws & _).
    split; [done|]. split; [done|]. by rewrite Hws.
  - exists N. split; [done|].
    destruct (accounting_step N l s s' Hacc Hq Hstep).
    split; [done|]. split; [done|]. by rewrite (step_length l s s' Hstep).
Qed.

(** *** Runs pass through reachable states *)

Lemma exec_started_reachable sched s it :
  reachable s -> exec sched (Started s) = Some it ->
  exists s', it = Started s' /\ reachable s'.
Proof.
  revert s. induction sched as [|l sched IH]; intros s Hr Hex; simpl in Hex.
  - simplify_eq. eauto.
  - destruct (step l s) as [s1|] eqn:Hstep; simpl in Hex; [|done].
    eapply IH; [|exact Hex]. eapply reachable_step; eauto.
Qed.

Lemma exec_reachable sched s :
  exec sched exploreFilesAsync = Some (Started s) -> reachable s.
Proof.
  destruct sched as [|l sched]; simpl; [done|].
  destruct l; try done. destruct prologue as [s0|e] eqn:Hp.
  - intros Hex.
    destruct (exec_started_reachable sched (generatorLoop s0) (Started s))
      as (s' & ? & ?); [by apply reachable_first|done|]. by simplify_eq.
  - destruct sched; simpl; done.
Qed.

(** *** Termination detection *)

(** C4.  In every state of a run, [isDone] is set if and only if the five
    stage queues are empty and [activeWorkers] is zero.  The states are the
    one in which the shared variables are created and those between two tasks
    of the event loop: JavaScript runs a task to completion, so these are the
    only points at which a worker, the generator or the consumer can look at
    the shared variables. *)
Theorem done_iff_queues_empty_and_no_active_worker :
  (isDone initialState = true <->
   allQueuesEmpty initialState = true /\ activeWorkers initialState = 0) /\
  (forall sched s,
     exec sched exploreFilesAsync = Some (Started s) ->
     isDone s = true <-> allQueuesEmpty s = true /\ activeWorkers s = 0).
Proof.
  split; [by split; [|intros [? _]]|].
  intros sched s Hex. apply exec_reachable in Hex.
  destruct (reachable_accounting s Hex) as (N & _ & [_ _ _ _ Hdone Hzero] & Hq & _).
  unfold quiescent in Hq. split.
  - intros Hd. destruct (Hdone Hd) as (? & ? & _). split; [done|lia].
  - intros [_ Hz]. auto.
Qed.

(** *** Size of the worker pool *)

(** C6.  For a [workerCount] that is a positive integer [k], the number of
    [workerLoop()] calls started is [min(k, 8)]; in every state of every run
    this is the number of workers that exist, it is at most 8, and
    [activeWorkers] stays between 0 and it. *)
Theorem worker_pool_is_min_of_request_and_ceiling q k :
  workerCount options = Some (Finite q) -> (q == inject_Z k)%Q -> 1 <= k ->
  (exists s0, prologue = Normal s0 /\
              Z.of_nat (length (workers s0)) = Z.min k MAX_WORKER_COUNT) /\
  (forall sched s, exec sched exploreFilesAsync = Some (Started s) ->
     Z.of_nat (length (workers s)) = Z.min k MAX_WORKER_COUNT /\
     Z.of_nat (length (workers s)) <= 8 /\
     0 <= activeWorkers s <= Z.min k MAX_WORKER_COUNT).
Proof.
  intros Hwc Hq Hk.
  pose proof (validate_positive_integer q k Hwc Hq Hk) as Hv. split.
  - unfold prologue in *. rewrite Hv. eexists. split; [done|].
    destruct (accounting_prologue
                (startWorkers (Z.to_nat (Z.min k MAX_WORKER_COUNT))
                   (with_activeWorkers (Z.min k MAX_WORKER_COUNT) initialState)))
      as (N & Hv' & _ & _ & Hlen).
    + unfold prologue. by rewrite Hv.
    + rewrite Hv in Hv'. by simplify_eq.
  - intros sched s Hex. apply exec_reachable in Hex.
    destruct (reachable_accounting s Hex)
      as (N & Hv' & [_ _ Hlo Hup _ _] & Hqs & Hlen).
    rewrite Hv in Hv'. simplify_eq.
    worker_facts (workers s). unfold MAX_WORKER_COUNT in *. lia.
Qed.

(** *** The output front-end *)

Lemma genKeptOrWoken_refl s : genKeptOrWoken s s.
Proof. by left. Qed.

Lemma genKeptOrWoken_trans s1 s2 s3 :
  genKeptOrWoken s1 s2 -> genKeptOrWoken s2 s3 -> genKeptOrWoken s1 s3.
Proof. unfold genKeptOrWoken. intros [H1|[H1 H1']] [H2|[H2 H2']]; intuition congruence. Qed.

Lemma iteration_gen s o s' : iteration s = (o, s') -> genKeptOrWoken s s'.
Proof.
  unfold genKeptOrWoken. destruct s. unfold_stages. simpl. intros Hit.
  repeat case_match; simplify_eq/=; auto.
Qed.

Lemma settle_gen w o s : gen (settle w o s) = gen s.
Proof. by destruct o. Qed.

Lemma afterRead_gen fileCtx r s : genKeptOrWoken s (afterRead fileCtx r s).
Proof.
  unfold genKeptOrWoken, afterRead. destruct s. unfold_stages. simpl.
  repeat case_match; simplify_eq/=; auto.
Qed.

Lemma afterReaddir_gen dirPath r s : genKeptOrWoken s (afterReaddir dirPath r s).
Proof.
  unfold genKeptOrWoken, afterReaddir. destruct r as [entries|e].
  - destruct (sortEntries_fields dirPath entries s)
      as (_ & _ & _ & _ & _ & _ & _ & _ & Hg & _).
    case_match; simpl; auto.
  - unfold notifyGenerator. case_match; simpl; auto.
Qed.

Lemma runWorker_gen w s : genKeptOrWoken s (runWorker w s).
Proof.
  apply (runWorker_rule (genKeptOrWoken s) (genKeptOrWoken s)); [|apply genKeptOrWoken_refl].
  intros s0 o s' H0 Hit. apply iteration_gen in Hit.
  pose proof (genKeptOrWoken_trans _ _ _ H0 Hit) as H.
  destruct o; try done; unfold genKeptOrWoken in *; by rewrite settle_gen.
Qed.



(** *** Which stage an iteration runs *)

Lemma notifyGenerator_error s : error (notifyGenerator s) = error s.
Proof. unfold notifyGenerator. by case_match. Qed.

Lemma catch_error s e : error (notifyGenerator (with_error (Some e) s)) = Some e.
Proof. by rewrite notifyGenerator_error. Qed.

Lemma setError_truthy s e : error s = Some e -> truthy e = true -> setError s = Some e.
Proof. intros He Ht. unfold setError. by rewrite He, Ht. Qed.

Lemma setError_falsy s e : error s = Some e -> truthy e = false -> setError s = None.
Proof. intros He Ht. unfold setError. by rewrite He, Ht. Qed.

Lemma setError_unset s : error s = None -> setError s = None.
Proof. intros He. unfold setError. by rewrite He. Qed.

Lemma setError_inv s e : setError s = Some e -> error s = Some e /\ truthy e = true.
Proof.
  unfold setError. destruct (error s) as [v|]; [|done].
  destruct (truthy v) eqn:Hv; [|done]. by intros [= ->].
Qed.

Lemma setError_same s s' : error s' = error s -> setError s' = setError s.
Proof. intros He. unfold setError. by rewrite He. Qed.

Lemma catch_setError s (e : JsError) :
  setError (notifyGenerator (with_error (Some (VError e)) s)) = Some (VError e).
Proof. apply setError_truthy; [apply catch_error|done]. Qed.

Lemma iteration_error_set s e : setError s = Some e -> iteration s = (OReturn, s).
Proof. intros H. unfold iteration. by rewrite H. Qed.




(** *** Where a failing stage leaves its worker *)


(** *** The origin invariant *)

Lemma candidateDir_explored dirPath :
  candidateDir dirPath -> shouldExploreDir options dirPath = Normal true -> explored dirPath.
Proof.
  intros (d & entries & e & Hd & Hls & Hin & Hdir & ->) Hp. by eapply explored_sub.
Qed.

Lemma workerOrigin_wake ws : Forall workerOrigin ws -> Forall workerOrigin (wake <$> ws).
Proof. intros H. apply Forall_fmap. eapply Forall_impl; [exact H|]. by intros []. Qed.

Lemma ctx_path_eta f : {| ctx_path := ctx_path f |} = f.
Proof. by destruct f. Qed.

(** Splits the [Forall] facts about queues that gained or lost an element. *)
Ltac forall_facts :=
  repeat match goal with
  | H : Forall _ (_ :: _) |- _ => apply Forall_cons in H; destruct H
  end;
  rewrite ?Forall_app, ?Forall_singleton.

Lemma origins_iteration s o s' :
  Origins s -> iteration s = (o, s') -> Origins s' /\ outcomeOrigin o.
Proof.
  intros [H1 H2 H3 H4 H5 H6 H7 H8 H9] Hit.
  destruct s as [qy qr qf qs qc ob aw dn er ws g yl lg]. simpl in *.
  unfold_stages; simpl in *.
  repeat case_match; simplify_eq/=; forall_facts;
    (split; [constructor; simpl; forall_facts|simpl]);
    repeat match goal with H : acceptedFile _ |- _ => destruct H end;
    repeat first
      [ done | by apply workerOrigin_wake | by apply candidateDir_explored
      | by rewrite ctx_path_eta | split ].
Qed.

Lemma origins_settle w o s : Origins s -> outcomeOrigin o -> Origins (settle w o s).
Proof.
  intros [H1 H2 H3 H4 H5 H6 H7 H8 H9] Ho.
  destruct o; try done; constructor; simpl; try done; by apply Forall_insert.
Qed.

Lemma origins_runWorker w s : Origins s -> Origins (runWorker w s).
Proof.
  apply (runWorker_rule Origins Origins).
  intros s0 o s' H0 Hit. destruct (origins_iteration s0 o s' H0 Hit) as [H Ho].
  destruct o; try done; by apply origins_settle.
Qed.

Lemma origins_set_running w s : Origins s -> Origins (set_worker w WRunning s).
Proof. intros [H1 H2 H3 H4 H5 H6 H7 H8 H9]. constructor; try done. by apply Forall_insert. Qed.

Lemma origins_lookup w st s : Origins s -> workers s !! w = Some st -> workerOrigin st.
Proof. intros [_ _ _ _ _ _ _ H _] Hw. eapply Forall_lookup_1; eauto. Qed.

Lemma origins_afterRead fileCtx s :
  Origins s -> acceptedFile fileCtx ->
  Origins (afterRead fileCtx (fs_readFile (ctx_path fileCtx)) s).
Proof.
  intros [H1 H2 H3 H4 H5 H6 H7 H8 H9] Hf. unfold afterRead.
  destruct (fs_readFile (ctx_path fileCtx)) as [b|e] eqn:Hr.
  - constructor; simpl; forall_facts; try done; [|by apply workerOrigin_wake].
    split; [done|]. split; simpl; [by rewrite ctx_path_eta|done].
  - unfold notifyGenerator. case_match; constructor; done.
Qed.

Lemma origins_sortEntries dirPath entries es s :
  explored dirPath -> fs_readdir dirPath = Normal entries ->
  (forall e, In e es -> In e entries) ->
  Origins s -> Origins (fold_left (sortEntry dirPath) es s).
Proof.
  intros Hd Hls. revert s. induction es as [|e es IH]; intros s Hsub Hs; simpl; [done|].
  apply IH; [intros e' He'; apply Hsub; by right|].
  assert (Hin : In e entries) by (apply Hsub; by left).
  destruct Hs as [H1 H2 H3 H4 H5 H6 H7 H8 H9].
  unfold sortEntry. destruct (isDirectory e) eqn:Hdir; [|destruct (isFile e) eqn:Hfile].
  - constructor; simpl; forall_facts; try done. split; [done|].
    exists dirPath, entries, e. done.
  - constructor; simpl; forall_facts; try done. split; [done|].
    exists dirPath, entries, e. done.
  - by constructor.
Qed.

Lemma origins_afterReaddir dirPath s :
  Origins s -> explored dirPath ->
  Origins (afterReaddir dirPath (fs_readdir dirPath) s).
Proof.
  intros Hs Hd. unfold afterReaddir.
  destruct (fs_readdir dirPath) as [entries|e] eqn:Hr.
  - pose proof (origins_sortEntries dirPath entries entries s Hd Hr (fun _ H => H) Hs)
      as [H1 H2 H3 H4 H5 H6 H7 H8 H9].
    case_match; [|by constructor].
    constructor; simpl; try done. by apply workerOrigin_wake.
  - destruct Hs. unfold notifyGenerator. case_match; constructor; done.
Qed.

Lemma origins_generatorLoop s : Origins s -> Origins (generatorLoop s).
Proof.
  intros [H1 H2 H3 H4 H5 H6 H7 H8 H9]. unfold generatorLoop.
  destruct s as [qy qr qf qs qc ob aw dn er ws g yl lg]. simpl in *.
  repeat case_match; simplify_eq/=; constructor; simpl; forall_facts; done.
Qed.

Lemma origins_step l s s' : Origins s -> step l s = Some s' -> Origins s'.
Proof.
  intros Hs Hstep. destruct l as [| |w|w]; simpl in Hstep.
  - case_match; simplify_eq. by apply origins_generatorLoop.
  - case_match; simplify_eq. by apply origins_generatorLoop.
  - destruct (workers s !! w) as [[]|] eqn:Hw; simplify_eq.
    apply origins_runWorker. apply (origins_set_running w) in Hs.
    destruct Hs. by constructor.
  - destruct (workers s !! w) as [[]|] eqn:Hw; simplify_eq.
    + apply origins_runWorker, origins_afterRead; [by apply origins_set_running|].
      apply (origins_lookup w _ s Hs Hw).
    + apply origins_runWorker, origins_afterReaddir; [by apply origins_set_running|].
      apply (origins_lookup w _ s Hs Hw).
Qed.

Lemma origins_startWorkers n s : Origins s -> Origins (startWorkers n s).
Proof.
  revert s. induction n as [|n IH]; intros s Hs; simpl; [done|].
  apply IH, origins_runWorker. destruct Hs. constructor; simpl; try done.
  apply Forall_app. split; [done|]. by apply Forall_singleton.
Qed.

Lemma origins_prologue s0 : prologue = Normal s0 -> Origins s0.
Proof.
  unfold prologue. destruct validate; [|done]. intros [= <-].
  apply origins_startWorkers. constructor; simpl; try done.
  apply Forall_singleton. constructor.
Qed.

Lemma reachable_origins s : reachable s -> Origins s.
Proof.
  induction 1 as [s0 Hp|s l s' Hr IH Hstep].
  - by apply origins_generatorLoop, origins_prologue.
  - by eapply origins_step.
Qed.

(** *** Entries that are neither files nor directories *)

Lemma explored_listed dirPath : explored dirPath -> listedEntry dirPath.
Proof.
  intros [|d entries e Hd Hls Hin Hdir Hp]; [by left|].
  right. exists d, entries, e. auto.
Qed.

Lemma candidateDir_listed dirPath : candidateDir dirPath -> listedEntry dirPath.
Proof.
  intros (d & entries & e & Hd & Hls & Hin & Hdir & ->). right. exists d, entries, e. auto.
Qed.

Lemma candidateFile_listed f : candidateFile f -> listedEntry (ctx_path f).
Proof.
  intros (d & entries & e & Hd & Hls & Hin & Hdir & Hfile & ->).
  right. exists d, entries, e. auto.
Qed.

Lemma readRecord_listed r : readRecord r -> listedEntry (path r).
Proof. intros [[H _] _]. by apply candidateFile_listed in H. Qed.

Lemma origins_listed s p : Origins s -> In p (pathsOf s) -> listedEntry p.
Proof.
  intros [H1 H2 H3 H4 H5 H6 H7 H8 H9]. unfold pathsOf.
  rewrite !in_app_iff, !in_map_iff, in_flat_map.
  rewrite Forall_forall in H1. rewrite Forall_forall in H2.
  rewrite Forall_forall in H3. rewrite Forall_forall in H4.
  rewrite Forall_forall in H5. rewrite Forall_forall in H6.
  rewrite Forall_forall in H7. rewrite Forall_forall in H8.
  rewrite Forall_forall in H9.
  intros [H|[H|[(f & <- & H)|[(f & <- & H)|[(r & <- & H)|[(r & <- & H)|
          [(r & <- & H)|[(st & H & Hp)|(ev & <- & H)]]]]]]]];
    apply list_elem_of_In in H.
  - by apply candidateDir_listed, H1.
  - by apply explored_listed, H2.
  - by apply candidateFile_listed, H3.
  - by apply candidateFile_listed, H4.
  - by apply readRecord_listed, H5.
  - by apply readRecord_listed, H6.
  - by apply readRecord_listed, H7.
  - specialize (H8 st H). destruct st; simpl in *; try done.
    + destruct Hp as [<-|[]]. by apply candidateFile_listed, H8.
    + destruct Hp as [<-|[]]. by apply explored_listed.
  - specialize (H9 ev H). destruct ev as [d|q|d|f|r]; simpl in *.
    + by apply explored_listed.
    + by apply (candidateFile_listed {| ctx_path := q |}), H9.
    + by apply candidateDir_listed.
    + by apply candidateFile_listed.
    + by apply readRecord_listed.
Qed.

(** C10.  An entry of a listing that is neither a directory nor a file is
    skipped by the loop over the entries: sorting it leaves the whole state
    as it is.  Accordingly, in every state of every run, each path that sits
    in one of the five queues or in the Output Buffer, is the argument of a
    pending [fs] call, was passed to a predicate or to [fs], or was yielded,
    is the root or the path of an entry that is a directory or a file. *)
Theorem entries_neither_file_nor_directory_are_skipped :
  (forall dirPath s entry,
     isDirectory entry = false -> isFile entry = false -> sortEntry dirPath s entry = s) /\
  (forall sched s p,
     exec sched exploreFilesAsync = Some (Started s) ->
     In p (pathsOf s) -> listedEntry p).
Proof.
  split.
  - intros dirPath s entry Hd Hf. unfold sortEntry. by rewrite Hd, Hf.
  - intros sched s p Hex. apply origins_listed, reachable_origins.
    by apply exec_reachable in Hex.
Qed.

(** *** The state after the workers have been started *)

Lemma startWorkers_park m qo a dn ws g yl lg :
  Z.of_nat m < a ->
  startWorkers m
    {| queueYieldCheck := []; queueRead := []; queueFileCheck := [];
       queueDirStat := []; queueDirCheck := []; outputBuffer := qo;
       activeWorkers := a; isDone := dn; error := None; workers := ws;
       gen := g; yielded := yl; log := lg |} =
    {| queueYieldCheck := []; queueRead := []; queueFileCheck := [];
       queueDirStat := []; queueDirCheck := []; outputBuffer := qo;
       activeWorkers := a - Z.of_nat m; isDone := dn; error := None;
       workers := ws ++ replicate m WParked;
       gen := g; yielded := yl; log := lg |}.
Proof.
  revert a ws. induction m as [|m IH]; intros a ws Ha.
  - simpl. rewrite app_nil_r. f_equal. lia.
  - cbn [startWorkers]. unfold runWorker, syncWork. cbn.
    unfold stageIdle. cbn.
    destruct (Z.eqb_spec (a - 1) 0) as [Hz|Hz]; [lia|]. cbn.
    unfold set_worker, with_workers. cbn.
    rewrite insert_app_r_alt by lia. rewrite Nat.sub_diag. cbn.
    rewrite IH by lia. rewrite <- app_assoc. cbn. f_equal. lia.
Qed.

Lemma prologue_started N : validate = Normal N -> prologue = Normal (startedState N).
Proof.
  intros Hv. destruct (validate_accepts N Hv) as [HN _].
  unfold prologue. rewrite Hv. f_equal.
  destruct (Z.to_nat N) as [|m] eqn:Hm; [lia|].
  cbn [startWorkers]. unfold runWorker, syncWork. cbn.
  unfold set_worker, record_event, with_queueDirStat, with_workers, with_activeWorkers,
    initialState. cbn.
  rewrite startWorkers_park by lia.
  unfold startedState. rewrite Hm. cbn. rewrite Nat.sub_0_r.
  f_equal. lia.
Qed.

(** *** The error slot *)

Lemma runWorker_error_set w s e :
  setError s = Some e -> runWorker w s = set_worker w WReturned s.
Proof.
  intros H. unfold runWorker. cbn [workerLoop]. by rewrite (iteration_error_set s e H).
Qed.

Lemma afterRead_fields fileCtx r s :
  let s' := afterRead fileCtx r s in
  outputBuffer s' = outputBuffer s /\ log s' = log s /\ isDone s' = isDone s /\
  yielded s' = yielded s.
Proof. unfold afterRead, notifyGenerator. repeat case_match; simpl; tauto. Qed.

Lemma afterReaddir_fields dirPath r s :
  let s' := afterReaddir dirPath r s in
  outputBuffer s' = outputBuffer s /\ log s' = log s /\ isDone s' = isDone s /\
  yielded s' = yielded s.
Proof.
  unfold afterReaddir. destruct r as [entries|e].
  - destruct (sortEntries_fields dirPath entries s)
      as (_ & _ & _ & Ho & _ & Hd & _ & _ & _ & Hy & Hl).
    case_match; simpl; tauto.
  - unfold notifyGenerator. case_match; simpl; tauto.
Qed.

Lemma afterRead_error fileCtx r s e :
  setError s = Some e ->
  setError (afterRead fileCtx r s) =
    Some (match r with Normal _ => e | Throw e' => VError e' end).
Proof. intros H. unfold afterRead. destruct r; [done|apply catch_setError]. Qed.

Lemma afterReaddir_error dirPath r s e :
  setError s = Some e ->
  setError (afterReaddir dirPath r s) =
    Some (match r with Normal _ => e | Throw e' => VError e' end).
Proof.
  intros H. unfold afterReaddir. destruct r as [entries|e']; [|apply catch_setError].
  destruct (sortEntries_fields dirPath entries s) as (_ & _ & _ & _ & _ & _ & He & _).
  rewrite <- H. case_match; by apply setError_same.
Qed.

(** A truthy value in the slot is only ever replaced by an [Error] object. *)
Lemma error_slot_is_kept l s s' e :
  setError s = Some e -> step l s = Some s' -> exists e', setError s' = Some e'.
Proof.
  intros He Hstep. destruct l as [| |w|w]; simpl in Hstep.
  - destruct (gen s); simplify_eq.
    destruct (generatorLoop_fields s) as (_ & _ & _ & _ & _ & _ & _ & He' & _).
    exists e. by rewrite (setError_same _ _ He').
  - destruct (gen s); simplify_eq.
    destruct (generatorLoop_fields s) as (_ & _ & _ & _ & _ & _ & _ & He' & _).
    exists e. by rewrite (setError_same _ _ He').
  - destruct (workers s !! w) as [[]|] eqn:Hw; simplify_eq.
    erewrite runWorker_error_set by (exact He). eauto.
  - destruct (workers s !! w) as [[| fileCtx | dirPath | | |]|] eqn:Hw; simplify_eq.
    + pose proof (afterRead_error fileCtx (fs_readFile (ctx_path fileCtx))
                    (set_worker w WRunning s) e He) as He'.
      erewrite runWorker_error_set by exact He'. eauto.
    + pose proof (afterReaddir_error dirPath (fs_readdir dirPath)
                    (set_worker w WRunning s) e He) as He'.
      erewrite runWorker_error_set by exact He'. eauto.
Qed.

(** C2, as the code has it.  Once the error slot holds a truthy value (every
    [Error] object is one) it holds a truthy value for the rest of the run,
    and while it does no predicate is evaluated and no [fs] call is started.
    The slot is not write-once, though: the [catch] blocks assign it
    unconditionally, so the failure of an [fs] call that was already pending
    replaces the value in the slot by the later error.  The consumer receives
    the value that is in the slot when a pull, or its continuation, finds the
    Output Buffer empty. *)
Theorem error_slot_is_overwritten_by_pending_failures s e l s' :
  error s = Some e -> truthy e = true -> step l s = Some s' ->
  log s' = log s /\
  (error s' = Some e \/
   exists w e', l = IoDone w /\ pendingFails s w e' /\ error s' = Some (VError e')) /\
  (forall w e', l = IoDone w -> pendingFails s w e' -> error s' = Some (VError e')) /\
  (exists e1, error s' = Some e1 /\ truthy e1 = true) /\
  (l = Next \/ l = GenResume -> outputBuffer s = [] -> gen s' = GCompleted (Throw e)).
Proof.
  intros He0 Ht Hstep. pose proof (setError_truthy s e He0 Ht) as He.
  assert (Hkept : exists e1, error s' = Some e1 /\ truthy e1 = true).
  { destruct (error_slot_is_kept l s s' e He Hstep) as [e1 He1].
    exists e1. by apply setError_inv. }
  destruct l as [| |w|w]; simpl in Hstep.
  - destruct (gen s); simplify_eq.
    destruct (generatorLoop_fields s) as (_ & _ & _ & _ & _ & _ & _ & He' & _ & Hl).
    split; [done|]. split; [left; congruence|]. split; [done|]. split; [done|].
    intros _ Hb. unfold generatorLoop. by rewrite Hb, He.
  - destruct (gen s); simplify_eq.
    destruct (generatorLoop_fields s) as (_ & _ & _ & _ & _ & _ & _ & He' & _ & Hl).
    split; [done|]. split; [left; congruence|]. split; [done|]. split; [done|].
    intros _ Hb. unfold generatorLoop. by rewrite Hb, He.
  - destruct (workers s !! w) as [[]|] eqn:Hw; simplify_eq.
    erewrite runWorker_error_set in * by (exact He). simpl.
    split; [done|]. split; [by left|]. split; [done|]. split; [done|]. by intros [|].
  - destruct (workers s !! w) as [[| fileCtx | dirPath | | |]|] eqn:Hw; simplify_eq.
    + pose proof (afterRead_error fileCtx (fs_readFile (ctx_path fileCtx))
                    (set_worker w WRunning s) e He) as He'.
      destruct (afterRead_fields fileCtx (fs_readFile (ctx_path fileCtx))
                  (set_worker w WRunning s)) as (_ & Hl & _).
      erewrite runWorker_error_set in * by exact He'. simpl. rewrite Hl. simpl.
      split; [done|]. split; [|split; [|split; [done|by intros [|]]]].
      * destruct (fs_readFile (ctx_path fileCtx)) as [b|e'] eqn:Hr; [by left|].
        right. exists w, e'. split; [done|]. split; [left; eauto|].
        unfold afterRead. apply catch_error.
      * intros w' e' [= <-] [(f & Hf & Hr)|(d & Hd & Hr)]; rewrite Hw in *; simplify_eq.
        rewrite Hr. unfold afterRead. apply catch_error.
    + pose proof (afterReaddir_error dirPath (fs_readdir dirPath)
                    (set_worker w WRunning s) e He) as He'.
      destruct (afterReaddir_fields dirPath (fs_readdir dirPath)
                  (set_worker w WRunning s)) as (_ & Hl & _).
      erewrite runWorker_error_set in * by exact He'. simpl. rewrite Hl. simpl.
      split; [done|]. split; [|split; [|split; [done|by intros [|]]]].
      * destruct (fs_readdir dirPath) as [b|e'] eqn:Hr.
        -- left. unfold afterReaddir.
           destruct (sortEntries_fields dirPath b (set_worker w WRunning s))
             as (_ & _ & _ & _ & _ & _ & Hes & _).
           simpl in Hes. case_match; simpl; congruence.
        -- right. exists w, e'. split; [done|]. split; [right; eauto|].
           unfold afterReaddir. apply catch_error.
      * intros w' e' [= <-] [(f & Hf & Hr)|(d & Hd & Hr)]; rewrite Hw in *; simplify_eq.
        rewrite Hr. unfold afterReaddir. apply catch_error.
Qed.

Lemma step_error_set l s s' e :
  setError s = Some e -> step l s = Some s' ->
  is_Some (setError s') /\ outputBuffer s' `suffix_of` outputBuffer s.
Proof.
  intros He Hstep. split.
  - destruct (error_slot_is_kept l s s' e He Hstep) as [e' ->]. eauto.
  - destruct l as [| |w|w]; simpl in Hstep.
    + destruct (gen s); simplify_eq. unfold generatorLoop.
      destruct (outputBuffer s) as [|r rest] eqn:Hb; [|simpl; by apply suffix_cons_r].
      repeat case_match; simpl; by rewrite Hb.
    + destruct (gen s); simplify_eq. unfold generatorLoop.
      destruct (outputBuffer s) as [|r rest] eqn:Hb; [|simpl; by apply suffix_cons_r].
      repeat case_match; simpl; by rewrite Hb.
    + destruct (workers s !! w) as [[]|] eqn:Hw; simplify_eq.
      by erewrite runWorker_error_set by (exact He).
    + destruct (workers s !! w) as [[| fileCtx | dirPath | | |]|] eqn:Hw; simplify_eq.
      * destruct (afterRead_fields fileCtx (fs_readFile (ctx_path fileCtx))
                    (set_worker w WRunning s)) as (Ho & _).
        erewrite runWorker_error_set
          by (apply (afterRead_error _ _ (set_worker w WRunning s) e He)).
        simpl. by rewrite Ho.
      * destruct (afterReaddir_fields dirPath (fs_readdir dirPath)
                    (set_worker w WRunning s)) as (Ho & _).
        erewrite runWorker_error_set
          by (apply (afterReaddir_error _ _ (set_worker w WRunning s) e He)).
        simpl. by rewrite Ho.
Qed.

Lemma reachable_error_not_done s e :
  reachable s -> setError s = Some e -> isDone s = false.
Proof.
  intros Hr He. destruct (reachable_accounting s Hr) as (N & _ & [_ _ _ _ Hdone _] & _).
  destruct (isDone s); [|done]. destruct (Hdone eq_refl) as (_ & _ & Hn & _). congruence.
Qed.

(** *** Validation and the first pull *)

Lemma zeroNegativeOrNotInteger_not_positive n :
  zeroNegativeOrNotInteger n -> ~ positiveInteger n.
Proof.
  intros Hn (q & k & -> & Hq & Hk). simpl in Hn. destruct Hn as [Hle|Hni].
  - rewrite Hq in Hle. change (inject_Z k <= inject_Z 0)%Q in Hle.
    rewrite <- Zle_Qle in Hle. lia.
  - apply Hni. eauto.
Qed.

(** C5, as the code has it.  [exploreFilesAsync] is an async generator:
    the call returns the iterator and runs nothing.  With a [workerCount]
    that is 0, negative or not an integer, the first pull fails with
    [Error("workerCount must be a positive integer.")]; no run of the
    iterator ever starts a worker or makes a call to [fs]: the iterator is
    closed by that error without the shared state having been created. *)
Theorem invalid_worker_count_fails_at_first_pull n :
  workerCount options = Some n -> zeroNegativeOrNotInteger n ->
  exploreFilesAsync = SuspendedStart /\
  istep Next exploreFilesAsync =
    Some (ClosedAtStart (Error "workerCount must be a positive integer.")) /\
  forall sched it, exec sched exploreFilesAsync = Some it ->
    it = SuspendedStart \/
    it = ClosedAtStart (Error "workerCount must be a positive integer.").
Proof.
  intros Hwc Hn. apply zeroNegativeOrNotInteger_not_positive in Hn.
  pose proof (validate_rejects n Hwc Hn) as Hv.
  assert (Hp : prologue = Throw (Error "workerCount must be a positive integer."))
    by (unfold prologue; by rewrite Hv).
  split; [done|]. split; [simpl; by rewrite Hp|].
  intros [|l sched] it; simpl; [intros [= <-]; by left|].
  destruct l; try done. rewrite Hp.
  destruct sched as [|l' sched]; simpl; [intros [= <-]; by right|done].
Qed.

(** *** The seed of the traversal *)

(** C8, as the code has it.  In the initial queue state the directory-stat
    queue (priority 4) holds exactly the root and the other four queues are
    empty.  The root is therefore listed without being passed to
    [shouldExploreDir]: when the workers have been started, the only call
    made is [readdir(rootDir)], which the first worker is waiting for; and in
    every run [shouldExploreDir] is only called on sub-directory entries of
    listed directories. *)
Theorem root_is_seeded_into_directory_stat_queue :
  (queueDirStat initialState = [rootDir options] /\ queueDirCheck initialState = [] /\
   queueFileCheck initialState = [] /\ queueRead initialState = [] /\
   queueYieldCheck initialState = []) /\
  (forall s0, prologue = Normal s0 ->
     log s0 = [EvReaddir (rootDir options)] /\
     workers s0 !! 0%nat = Some (WAwaitReaddir (rootDir options))) /\
  (forall sched s dirPath,
     exec sched exploreFilesAsync = Some (Started s) ->
     In (EvShouldExploreDir dirPath) (log s) -> candidateDir dirPath).
Proof.
  split; [done|]. split.
  - intros s0 Hp. unfold prologue in Hp.
    destruct validate as [N|] eqn:Hv; [|done].
    pose proof (prologue_started N Hv) as Hp'. unfold prologue in Hp'.
    rewrite Hv in Hp'. rewrite Hp' in Hp. by simplify_eq.
  - intros sched s dirPath Hex Hin. apply exec_reachable, reachable_origins in Hex.
    destruct Hex as [_ _ _ _ _ _ _ _ Hlog]. rewrite Forall_forall in Hlog.
    apply (Hlog (EvShouldExploreDir dirPath)). by apply list_elem_of_In.
Qed.

(** *** Trees *)

Lemma Tree_forall_ind (P : Tree -> Prop) :
  (forall n b, P (TFile n b)) ->
  (forall n children, Forall P children -> P (TDir n children)) ->
  (forall n, P (TOther n)) ->
  forall t, P t.
Proof.
  intros Hf Hd Ho. fix IH 1. intros [n b|n children|n]; [apply Hf| |apply Ho].
  apply Hd. induction children as [|c cs IHcs]; constructor; [apply IH|apply IHcs].
Qed.

Lemma holds_Forall dirPath children :
  foldr (fun c acc => holdsNode dirPath c /\ acc) True children <->
  Forall (holdsNode dirPath) children.
Proof.
  induction children as [|c cs IH]; simpl.
  - split; [constructor|done].
  - rewrite IH, Forall_cons. done.
Qed.

Lemma holdsTree_node dirPath children t :
  holdsTree dirPath children -> In t children -> holdsNode dirPath t.
Proof.
  intros [_ H] Hin. apply holds_Forall in H. rewrite Forall_forall in H.
  apply H. by apply list_elem_of_In.
Qed.

Lemma holdsTree_dir dirPath children n sub :
  holdsTree dirPath children -> In (TDir n sub) children ->
  holdsTree (path_join dirPath n) sub.
Proof. intros H Hin. exact (holdsTree_node _ _ _ H Hin). Qed.

Lemma holdsTree_file dirPath children n b :
  holdsTree dirPath children -> In (TFile n b) children ->
  fs_readFile (path_join dirPath n) = Normal b.
Proof. intros H Hin. exact (holdsTree_node _ _ _ H Hin). Qed.

Lemma entry_is_directory children e :
  In e (map entryOf children) -> isDirectory e = true ->
  exists n sub, In (TDir n sub) children /\ name e = n.
Proof.
  intros Hin Hd. apply in_map_iff in Hin as ([n b|n sub|n] & <- & Hin); try done.
  eauto.
Qed.

Lemma entry_is_file children e :
  In e (map entryOf children) -> isDirectory e = false -> isFile e = true ->
  exists n b, In (TFile n b) children /\ name e = n.
Proof.
  intros Hin Hd Hf. apply in_map_iff in Hin as ([n b|n sub|n] & <- & Hin); try done.
  eauto.
Qed.

Lemma treeDepth_dir children n sub :
  In (TDir n sub) children -> (treeDepth sub < treeDepth children)%nat.
Proof.
  unfold treeDepth. induction children as [|c cs IH]; simpl; [done|].
  intros [->|Hin].
  - simpl. fold (treeDepth sub). unfold treeDepth. lia.
  - specialize (IH Hin). lia.
Qed.

Lemma expected_dir dirPath children n sub p :
  In (TDir n sub) children ->
  shouldExploreDir options (path_join dirPath n) = Normal true ->
  In p (expected (path_join dirPath n) sub) -> In p (expected dirPath children).
Proof.
  intros Hin Hok Hp. unfold expected, selectedPaths. apply in_flat_map.
  exists (TDir n sub). split; [done|]. simpl. by rewrite Hok.
Qed.

Lemma expected_file dirPath children n b :
  In (TFile n b) children ->
  shouldReadFile options {| ctx_path := path_join dirPath n |} = Normal true ->
  yieldPredicate (recordOf (path_join dirPath n) b) = Normal true ->
  In (path_join dirPath n) (expected dirPath children).
Proof.
  intros Hin Hr Hy. unfold expected, selectedPaths. apply in_flat_map.
  exists (TFile n b). split; [done|]. simpl. rewrite Hr, Hy. simpl. by left.
Qed.

(** What being in [expected] means, one level down. *)
Lemma expected_inv dirPath children p :
  In p (expected dirPath children) ->
  (exists n b, In (TFile n b) children /\ p = path_join dirPath n /\
     shouldReadFile options {| ctx_path := p |} = Normal true /\
     yieldPredicate (recordOf p b) = Normal true) \/
  (exists n sub, In (TDir n sub) children /\
     shouldExploreDir options (path_join dirPath n) = Normal true /\
     In p (expected (path_join dirPath n) sub)).
Proof.
  unfold expected, selectedPaths. rewrite in_flat_map.
  intros ([n b|n sub|n] & Hin & Hp); simpl in Hp; [| |done].
  - left. exists n, b.
    destruct (shouldReadFile options _) as [[]|] eqn:Hr; simpl in Hp; try done.
    destruct (yieldPredicate _) as [[]|] eqn:Hy; simpl in Hp; try done.
    destruct Hp as [<-|[]]. done.
  - right. exists n, sub.
    destruct (shouldExploreDir options _) as [[]|] eqn:Hr; simpl in Hp; done.
Qed.

Lemma weightDir_nonneg fuel dirPath : 0 <= weightDir fuel dirPath.
Proof.
  revert dirPath. induction fuel as [|fuel IH]; intros d; simpl; [lia|].
  destruct (fs_readdir d) as [entries|]; [|lia].
  induction entries as [|e es IHes]; simpl; [lia|].
  pose proof (IH (path_join d (name e))). repeat case_match; lia.
Qed.

Lemma weightDir_tree children :
  forall fuel dirPath,
    holdsTree dirPath children -> (treeDepth children < fuel)%nat ->
    weightDir fuel dirPath = treeWeight children.
Proof.
  assert (Hnode : forall t, forall fuel dirPath,
            holdsNode dirPath t -> (nodeDepth t <= fuel)%nat ->
            (if isDirectory (entryOf t)
             then 16 + weightDir fuel (path_join dirPath (name (entryOf t)))
             else if isFile (entryOf t) then 35 else 0) = nodeWeight t).
  { induction t as [n b|n sub IH|n] using Tree_forall_ind; intros fuel d Hh Hd; try done.
    cbn [entryOf isDirectory name nodeWeight]. f_equal.
    destruct fuel as [|fuel]; [simpl in Hd; lia|].
    destruct Hh as [Hls Hsub]. cbn [weightDir]. rewrite Hls. f_equal.
    apply holds_Forall in Hsub. cbn [nodeDepth] in Hd. apply le_S_n in Hd.
    clear Hls. induction sub as [|c cs IHcs]; simpl; [done|].
    apply Forall_cons in IH as [IHc IHrest]. apply Forall_cons in Hsub as [Hc Hrest].
    simpl in Hd. rewrite (IHc fuel _ Hc) by lia. f_equal. apply IHcs; try done. lia. }
  intros fuel d [Hls Hsub] Hd. destruct fuel as [|fuel]; [lia|].
  cbn [weightDir]. rewrite Hls. unfold treeWeight. f_equal.
  apply holds_Forall in Hsub. unfold treeDepth in Hd. clear Hls.
  induction children as [|c cs IHcs]; simpl; [done|].
  apply Forall_cons in Hsub as [Hc Hrest]. simpl in Hd.
  rewrite (Hnode c fuel d Hc) by lia. f_equal. apply IHcs; [done|lia].
Qed.

(* ================================================================= *)
(** ** Properties of every run

    The runs of this part are arbitrary: the predicates may throw and the
    calls to [fs] may fail. *)

Lemma worker_with_positive_count f ws :
  (forall st, 0 <= f st) -> 0 < sumWorkers f ws ->
  exists w st, ws !! w = Some st /\ 0 < f st.
Proof.
  intros Hf. induction ws as [|a ws IH]; simpl; [lia|]. intros Hpos.
  destruct (decide (0 < f a)) as [Ha|Ha].
  - exists 0%nat, a. done.
  - destruct IH as (w & st & Hw & Hst); [specialize (Hf a); lia|].
    exists (S w), st. done.
Qed.

Lemma exec_of_started sched s : exec sched (Started s) = Started <$> execFrom sched s.
Proof.
  revert s. induction sched as [|l sched IH]; intros s; simpl; [done|].
  destruct (step l s) as [s1|]; simpl; [apply IH|done].
Qed.

(** *** A proof rule for the tasks of the event loop

    [I] holds between two tasks and [J w] between two iterations of a task
    of worker [w]. *)

Lemma task_rule N (I : State -> Prop) (J : nat -> State -> Prop) :
  (forall w s, I s -> Accounting N s -> quiescent s -> workers s !! w = Some WWoken ->
     J w (with_activeWorkers (activeWorkers s + 1) (set_worker w WRunning s))) ->
  (forall w fileCtx s, I s -> Accounting N s -> quiescent s -> isDone s = false ->
     workers s !! w = Some (WAwaitRead fileCtx) ->
     J w (afterRead fileCtx (fs_readFile (ctx_path fileCtx)) (set_worker w WRunning s))) ->
  (forall w dirPath s, I s -> Accounting N s -> quiescent s -> isDone s = false ->
     workers s !! w = Some (WAwaitReaddir dirPath) ->
     J w (afterReaddir dirPath (fs_readdir dirPath) (set_worker w WRunning s))) ->
  (forall w s o s', J w s -> Accounting N s -> workers s !! w = Some WRunning ->
     iteration s = (o, s') ->
     match o with OContinue => J w s' | _ => I (settle w o s') end) ->
  (forall s, I s -> Accounting N s -> quiescent s ->
     gen s = GSuspendedYield \/ gen s = GWoken -> I (generatorLoop s)) ->
  forall l s s', I s -> Accounting N s -> quiescent s -> step l s = Some s' -> I s'.
Proof.
  intros Hresume Hread Hreaddir Hiter Hgen l s s' HI Hacc Hq Hstep.
  assert (Hrun : forall w s0, J w s0 -> Accounting N s0 -> workers s0 !! w = Some WRunning ->
                   I (runWorker w s0)).
  { intros w s0 HJ Ha Hw.
    apply (runWorker_rule
             (fun s1 => J w s1 /\ Accounting N s1 /\ workers s1 !! w = Some WRunning) I w);
      [|done].
    intros s1 o s2 (HJ1 & Ha1 & Hw1) Hit.
    pose proof (Hiter w s1 o s2 HJ1 Ha1 Hw1 Hit) as H1.
    pose proof (accounting_iteration N w s1 o s2 Ha1 Hw1 Hit) as H2.
    destruct o; try done; destruct H2; done. }
  destruct l as [| |w|w]; simpl in Hstep.
  - destruct (gen s) eqn:Hg; simplify_eq. apply Hgen; auto.
  - destruct (gen s) eqn:Hg; simplify_eq. apply Hgen; auto.
  - destruct (workers s !! w) as [[]|] eqn:Hw; simplify_eq.
    destruct (accounting_resume N w s Hacc Hq Hw). apply Hrun; auto.
  - destruct (workers s !! w) as [[| fileCtx | dirPath | | |]|] eqn:Hw; simplify_eq.
    + destruct (accounting_io N w _ s Hacc Hq Hw eq_refl) as (Ha1 & Hw1 & Hd1).
      destruct (accounting_afterRead N w fileCtx (fs_readFile (ctx_path fileCtx))
                  (set_worker w WRunning s)); try done.
      apply Hrun; auto.
    + destruct (accounting_io N w _ s Hacc Hq Hw eq_refl) as (Ha1 & Hw1 & Hd1).
      destruct (accounting_afterReaddir N w dirPath (fs_readdir dirPath)
                  (set_worker w WRunning s)); try done.
      apply Hrun; auto.
Qed.

(** The same for all the states of a run: [I] holds when the first pull
    has started the workers and reached the generator loop. *)
Lemma run_rule (I : Z -> State -> Prop) (J : Z -> nat -> State -> Prop) :
  (forall N, validate = Normal N -> I N (generatorLoop (startedState N))) ->
  (forall N w s, I N s -> Accounting N s -> quiescent s -> workers s !! w = Some WWoken ->
     J N w (with_activeWorkers (activeWorkers s + 1) (set_worker w WRunning s))) ->
  (forall N w fileCtx s, I N s -> Accounting N s -> quiescent s -> isDone s = false ->
     workers s !! w = Some (WAwaitRead fileCtx) ->
     J N w (afterRead fileCtx (fs_readFile (ctx_path fileCtx)) (set_worker w WRunning s))) ->
  (forall N w dirPath s, I N s -> Accounting N s -> quiescent s -> isDone s = false ->
     workers s !! w = Some (WAwaitReaddir dirPath) ->
     J N w (afterReaddir dirPath (fs_readdir dirPath) (set_worker w WRunning s))) ->
  (forall N w s o s', J N w s -> Accounting N s -> workers s !! w = Some WRunning ->
     iteration s = (o, s') ->
     match o with OContinue => J N w s' | _ => I N (settle w o s') end) ->
  (forall N s, I N s -> Accounting N s -> quiescent s ->
     gen s = GSuspendedYield \/ gen s = GWoken -> I N (generatorLoop s)) ->
  forall s, reachable s ->
    exists N, validate = Normal N /\ I N s /\ Accounting N s /\ quiescent s /\
              Z.of_nat (length (workers s)) = N.
Proof.
  intros Hfirst Hresume Hread Hreaddir Hiter Hgen s Hr.
  destruct (reachable_accounting s Hr) as (N & Hv & Hacc & Hq & Hlen).
  exists N. split; [done|]. split; [|done].
  clear Hlen. induction Hr as [s0 Hp|s l s' Hr IH Hstep].
  - rewrite (prologue_started N Hv) in Hp. simplify_eq. by apply Hfirst.
  - destruct (reachable_accounting s Hr) as (N' & Hv' & Hacc' & Hq' & _).
    assert (N' = N) as -> by congruence.
    apply (task_rule N (I N) (J N) (Hresume N) (Hread N) (Hreaddir N) (Hiter N) (Hgen N)
             l s s'); auto.
Qed.

(** *** The active count while no error is recorded *)

Lemma sumWorkers_parked_only f n : f WParked = 0 -> sumWorkers f (replicate n WParked) = 0.
Proof. intros Hf. induction n as [|n IH]; simpl; [done|]. rewrite IH. lia. Qed.

Lemma counting_iteration N w s o s' :
  Counting N s -> workers s !! w = Some WRunning -> iteration s = (o, s') ->
  match o with OContinue => Counting N s' | _ => Counting N (settle w o s') end.
Proof.
  intros Hc Hw Hit.
  destruct s as [qy qr qf qs qc ob aw dn er ws g yl lg].
  unfold Counting in *. simpl in *.
  unfold_stages; simpl in *.
  repeat case_match; simplify_eq/=; intros He; try done; specialize (Hc eq_refl);
    sums; lia.
Qed.

Lemma counting_afterRead N fileCtx r s : Counting N s -> Counting N (afterRead fileCtx r s).
Proof.
  intros Hc. destruct s as [qy qr qf qs qc ob aw dn er ws g yl lg].
  unfold Counting, afterRead in *. unfold_stages. simpl in *.
  repeat case_match; simplify_eq/=; intros He; try done; specialize (Hc He); sums; lia.
Qed.

Lemma counting_afterReaddir N dirPath r s :
  Counting N s -> Counting N (afterReaddir dirPath r s).
Proof.
  intros Hc. unfold Counting, afterReaddir in *. destruct r as [entries|e].
  - destruct (sortEntries_fields dirPath entries s)
      as (_ & _ & _ & _ & Ha & _ & He & Hws & _).
    case_match; simpl; rewrite ?Ha, ?He, ?Hws; intros Hn; specialize (Hc Hn); sums; lia.
  - rewrite catch_error. done.
Qed.

Lemma reachable_counting s :
  reachable s ->
  exists N, validate = Normal N /\ Counting N s /\ Accounting N s /\ quiescent s /\
            Z.of_nat (length (workers s)) = N.
Proof.
  revert s. apply (run_rule Counting (fun N _ => Counting N)).
  - intros N Hv. destruct (validate_accepts N Hv) as [[HN1 HN8] _].
    unfold Counting. simpl. intros _.
    rewrite !sumWorkers_parked_only, length_replicate by done. lia.
  - intros N w s Hc _ _ Hw.
    destruct s as [qy qr qf qs qc ob aw dn er ws g yl lg].
    unfold Counting in *. simpl in *. intros He. specialize (Hc He). sums. lia.
  - intros N w fileCtx s Hc _ _ _ Hw. apply counting_afterRead.
    destruct s as [qy qr qf qs qc ob aw dn er ws g yl lg].
    unfold Counting in *. simpl in *. intros He. specialize (Hc He). sums. lia.
  - intros N w dirPath s Hc _ _ _ Hw. apply counting_afterReaddir.
    destruct s as [qy qr qf qs qc ob aw dn er ws g yl lg].
    unfold Counting in *. simpl in *. intros He. specialize (Hc He). sums. lia.
  - intros N w s o s' Hc _ Hw Hit. exact (counting_iteration N w s o s' Hc Hw Hit).
  - intros N s Hc _ _ _.
    destruct (generatorLoop_fields s) as (_ & _ & _ & _ & _ & Ha & _ & He & Hws & _).
    unfold Counting in *. by rewrite Ha, He, Hws.
Qed.

(** *** The generator and the flags it tests *)

Lemma handshake_iteration N w s o s' :
  Handshake s -> Accounting N s -> iteration s = (o, s') ->
  match o with OContinue => Handshake s' | _ => Handshake (settle w o s') end.
Proof.
  intros [H1 H2 H3 H4] [_ _ _ _ Hdone _] Hit.
  destruct s as [qy qr qf qs qc ob aw dn er ws g yl lg].
  unfold allQueuesEmpty in *. simpl in *.
  unfold_stages; simpl in *.
  repeat case_match; simplify_eq/=; constructor; slot_tests; try done.
  all: try (intros Hg; destruct (H2 Hg) as [? ?]; done).
  all: try (intros Hg; destruct (H3 Hg) as [Hd _]; by destruct (Hdone Hd)).
  all: try (intros e' Hg; destruct (H4 e' Hg) as [[? ?] _]; done).
  all: intros Hg; destruct (H3 Hg); done.
Qed.

Lemma handshake_afterRead fileCtx r s :
  Handshake s -> isDone s = false -> Handshake (afterRead fileCtx r s).
Proof.
  intros [H1 H2 H3 H4] Hnd.
  destruct s as [qy qr qf qs qc ob aw dn er ws g yl lg].
  unfold afterRead. unfold_stages. simpl in *. subst dn.
  repeat case_match; simplify_eq/=; constructor; slot_tests; try done.
  all: try (intros Hg; by destruct (H2 Hg)).
  all: try (intros Hg; by destruct (H3 Hg)).
  all: intros e' Hg; destruct (H4 e' Hg); eauto.
Qed.

Lemma handshake_same s s' :
  Handshake s -> gen s' = gen s -> error s' = error s -> isDone s' = isDone s ->
  outputBuffer s' = outputBuffer s -> Handshake s'.
Proof.
  intros [H1 H2 H3 H4] Hg He Hd Ho. apply setError_same in He.
  constructor; rewrite ?Hg, ?He, ?Hd, ?Ho; done.
Qed.

Lemma handshake_catch (e : JsError) s :
  Handshake s -> isDone s = false ->
  Handshake (notifyGenerator (with_error (Some (VError e)) s)).
Proof.
  intros [H1 H2 H3 H4] Hnd.
  destruct s as [qy qr qf qs qc ob aw dn er ws g yl lg].
  unfold_stages. simpl in *. subst dn.
  repeat case_match; simplify_eq/=; constructor; slot_tests; try done.
  all: try (intros Hg; by destruct (H2 Hg)).
  all: try (intros Hg; by destruct (H3 Hg)).
  all: intros e' Hg; destruct (H4 e' Hg); eauto.
Qed.

Lemma handshake_afterReaddir dirPath r s :
  Handshake s -> isDone s = false -> Handshake (afterReaddir dirPath r s).
Proof.
  intros Hh Hnd. unfold afterReaddir. destruct r as [entries|e].
  - destruct (sortEntries_fields dirPath entries s)
      as (_ & _ & _ & Ho & _ & Hd & He & _ & Hg & _).
    assert (Handshake (fold_left (sortEntry dirPath) entries s))
      by (by apply (handshake_same s)).
    case_match; [|done]. by apply (handshake_same (fold_left (sortEntry dirPath) entries s)).
  - by apply handshake_catch.
Qed.

Lemma handshake_generatorLoop s :
  Handshake s -> Handshake (generatorLoop s).
Proof.
  intros [H1 H2 H3 H4].
  destruct s as [qy qr qf qs qc ob aw dn er ws g yl lg].
  unfold generatorLoop, setError in *. simpl in *.
  repeat case_match; simplify_eq/=; constructor; slot_tests; try done.
  all: intros; simplify_eq; eauto.
Qed.

Lemma reachable_handshake s : reachable s -> Handshake s.
Proof.
  intros Hr.
  cut (exists N, validate = Normal N /\ Handshake s /\ Accounting N s /\ quiescent s /\
                 Z.of_nat (length (workers s)) = N); [by intros (N & _ & H & _)|].
  revert s Hr. apply (run_rule (fun _ => Handshake) (fun _ _ => Handshake)).
  - intros N Hv. constructor; simpl; done.
  - intros N w s0 Hh _ _ Hw. by apply (handshake_same s0).
  - intros N w fileCtx s0 Hh _ _ Hnd Hw. apply handshake_afterRead; [|done].
    by apply (handshake_same s0).
  - intros N w dirPath s0 Hh _ _ Hnd Hw. apply handshake_afterReaddir; [|done].
    by apply (handshake_same s0).
  - intros N w s0 o s' Hh Hacc _ Hit. exact (handshake_iteration N w s0 o s' Hh Hacc Hit).
  - intros N s0 Hh _ _ _. by apply handshake_generatorLoop.
Qed.

(** While the generator is parked the Output Buffer is empty: a worker that
    appends a record wakes it. *)
Lemma reachable_parked s : reachable s -> gen s = GAwaiting -> outputBuffer s = [].
Proof.
  intros Hr.
  cut (exists N, validate = Normal N /\ (gen s = GAwaiting -> outputBuffer s = []) /\
                 Accounting N s /\ quiescent s /\ Z.of_nat (length (workers s)) = N);
    [by intros (N & _ & H & _)|].
  revert s Hr.
  apply (run_rule (fun _ s => gen s = GAwaiting -> outputBuffer s = [])
                  (fun _ _ s => gen s = GAwaiting -> outputBuffer s = [])).
  - intros N Hv. done.
  - intros N w s0 H _ _ Hw. done.
  - intros N w fileCtx s0 H _ _ _ Hw Hg.
    destruct (afterRead_fields fileCtx (fs_readFile (ctx_path fileCtx))
                (set_worker w WRunning s0)) as (Ho & _).
    rewrite Ho. apply H.
    destruct (afterRead_gen fileCtx (fs_readFile (ctx_path fileCtx))
                (set_worker w WRunning s0)) as [E|[_ E]]; [|congruence].
    by rewrite E in Hg.
  - intros N w dirPath s0 H _ _ _ Hw Hg.
    destruct (afterReaddir_fields dirPath (fs_readdir dirPath)
                (set_worker w WRunning s0)) as (Ho & _).
    rewrite Ho. apply H.
    destruct (afterReaddir_gen dirPath (fs_readdir dirPath)
                (set_worker w WRunning s0)) as [E|[_ E]]; [|congruence].
    by rewrite E in Hg.
  - intros N w s0 o s' H _ _ Hit.
    destruct s0 as [qy qr qf qs qc ob aw dn er ws g yl lg]. simpl in *.
    unfold_stages; simpl in *.
    repeat case_match; simplify_eq/=; done.
  - intros N s0 H _ _ _. unfold generatorLoop.
    repeat case_match; simpl; done.
Qed.

(** *** Queues and sleeping workers *)

Lemma asleep_iteration w s o s' :
  NoneAsleep s -> workers s !! w = Some WRunning -> iteration s = (o, s') ->
  match o with
  | OContinue => NoneAsleep s'
  | _ => NoneAsleep (settle w o s') /\
         (error (settle w o s') = None -> queueYieldCheck (settle w o s') = [])
  end.
Proof.
  intros Hn Hw Hit.
  destruct s as [qy qr qf qs qc ob aw dn er ws g yl lg].
  unfold NoneAsleep, allQueuesEmpty in *. simpl in *.
  unfold_stages; simpl in *.
  repeat case_match; simplify_eq/=; try split; try done; intros; sums;
    rewrite ?Hn by done; try done; lia.
Qed.

Lemma asleep_afterRead fileCtx r s : NoneAsleep s -> NoneAsleep (afterRead fileCtx r s).
Proof.
  intros Hn. destruct s as [qy qr qf qs qc ob aw dn er ws g yl lg].
  unfold NoneAsleep, afterRead in *. unfold_stages. simpl in *.
  repeat case_match; simplify_eq/=; intros; sums; rewrite ?Hn by done; done.
Qed.

Lemma asleep_afterReaddir dirPath r s :
  NoneAsleep s -> NoneAsleep (afterReaddir dirPath r s).
Proof.
  intros Hn. unfold afterReaddir. destruct r as [entries|e].
  - destruct entries as [|entry entries]; [done|].
    change (0 <? length (entry :: entries))%nat with true. cbv iota.
    intros _. simpl. by rewrite sumWorkers_wake_parked.
  - destruct s as [qy qr qf qs qc ob aw dn er ws g yl lg].
    unfold NoneAsleep in *. unfold_stages. simpl in *. by case_match.
Qed.

Lemma asleep_set_running w st s :
  NoneAsleep s -> workers s !! w = Some st -> isParked st = 0 ->
  NoneAsleep (set_worker w WRunning s).
Proof.
  intros Hn Hw Hst. destruct s as [qy qr qf qs qc ob aw dn er ws g yl lg].
  unfold NoneAsleep in *. simpl in *. intros He. sums. rewrite (Hn He). lia.
Qed.

Lemma reachable_asleep s :
  reachable s -> NoneAsleep s /\ (error s = None -> queueYieldCheck s = []).
Proof.
  intros Hr.
  cut (exists N, validate = Normal N /\
         (NoneAsleep s /\ (error s = None -> queueYieldCheck s = [])) /\
         Accounting N s /\ quiescent s /\ Z.of_nat (length (workers s)) = N);
    [by intros (N & _ & H & _)|].
  revert s Hr.
  apply (run_rule
           (fun _ s => NoneAsleep s /\ (error s = None -> queueYieldCheck s = []))
           (fun _ _ => NoneAsleep)).
  - intros N Hv. split; [|done]. by intros ?.
  - intros N w s [Hn _] _ _ Hw.
    apply (asleep_set_running w WWoken) in Hn; [|done|done].
    destruct s. exact Hn.
  - intros N w fileCtx s [Hn _] _ _ _ Hw. apply asleep_afterRead.
    by apply (asleep_set_running w (WAwaitRead fileCtx)).
  - intros N w dirPath s [Hn _] _ _ _ Hw. apply asleep_afterReaddir.
    by apply (asleep_set_running w (WAwaitReaddir dirPath)).
  - intros N w s o s' Hn _ Hw Hit. exact (asleep_iteration w s o s' Hn Hw Hit).
  - intros N s [Hn Hy] _ _ _.
    destruct (generatorLoop_fields s) as (H1 & H2 & H3 & H4 & H5 & _ & _ & He & Hws & _).
    unfold NoneAsleep, allQueuesEmpty in *. by rewrite H1, H2, H3, H4, H5, He, Hws.
Qed.

(** *** What the calls made so far say *)

Lemma acceptedRecords_snoc lg ev :
  acceptedRecords (lg ++ [ev]) = acceptedRecords lg ++ acceptedCall ev.
Proof. unfold acceptedRecords. rewrite flat_map_app. simpl. by rewrite app_nil_r. Qed.

Lemma pendingLogged_snoc lg ev ws :
  Forall (pendingLogged lg) ws -> Forall (pendingLogged (lg ++ [ev])) ws.
Proof.
  intros H. eapply Forall_impl; [exact H|].
  intros [] Hst; simpl in *; try done; apply in_app_iff; by left.
Qed.

Lemma pendingLogged_wake lg ws :
  Forall (pendingLogged lg) ws -> Forall (pendingLogged lg) (wake <$> ws).
Proof. intros H. apply Forall_fmap. eapply Forall_impl; [exact H|]. by intros []. Qed.

Lemma raised_snoc lg ev (er : option JsValue) :
  (forall e, er = Some e -> exists ev', In ev' lg /\ raises ev' e) ->
  forall e, er = Some e -> exists ev', In ev' (lg ++ [ev]) /\ raises ev' e.
Proof.
  intros H e He. destruct (H e He) as (ev' & Hin & Hr). exists ev'. split; [|done].
  apply in_app_iff. by left.
Qed.

Lemma raised_last lg ev e :
  raises ev e -> forall e', Some e = Some e' -> exists ev', In ev' (lg ++ [ev]) /\ raises ev' e'.
Proof.
  intros Hr e' [= <-]. exists ev. split; [|done]. apply in_app_iff. right. by left.
Qed.

Lemma history_iteration w s o s' :
  History s -> iteration s = (o, s') ->
  match o with OContinue => History s' | _ => History (settle w o s') end.
Proof.
  intros [H1 H2 H2' H3] Hit.
  destruct s as [qy qr qf qs qc ob aw dn er ws g yl lg].
  simpl in *.
  unfold_stages; simpl in *.
  repeat case_match; simplify_eq/=; constructor; simpl;
    rewrite ?acceptedRecords_snoc; simpl;
    repeat match goal with H : yieldPredicate _ = _ |- _ => rewrite H end; simpl;
    rewrite ?app_nil_r, ?app_assoc, ?H1;
    try done;
    try (by apply raised_snoc);
    try (by apply raised_last);
    try (apply Forall_insert; simpl);
    try (apply pendingLogged_wake);
    try (apply pendingLogged_snoc);
    try done;
    try (apply in_app_iff; right; by left).
Qed.

Lemma history_afterRead fileCtx s :
  History s -> In (EvReadFile (ctx_path fileCtx)) (log s) ->
  History (afterRead fileCtx (fs_readFile (ctx_path fileCtx)) s).
Proof.
  intros [H1 H2 H2' H3] Hin. unfold afterRead.
  destruct (fs_readFile (ctx_path fileCtx)) as [b|e] eqn:Hr.
  - constructor; simpl; try done. by apply pendingLogged_wake.
  - destruct s as [qy qr qf qs qc ob aw dn er ws g yl lg].
    unfold_stages. simpl in *.
    case_match; constructor; simpl; try done; intros e' [= <-];
      eexists; (split; [eassumption|]); simpl; eauto.
Qed.

Lemma history_same s s' :
  History s -> yielded s' = yielded s -> outputBuffer s' = outputBuffer s ->
  log s' = log s -> error s' = error s -> workers s' = workers s -> gen s' = gen s ->
  History s'.
Proof.
  intros [H1 H2 H2' H3] Hy Ho Hl He Hw Hg.
  constructor; rewrite ?Hy, ?Ho, ?Hl, ?He, ?Hw, ?Hg; done.
Qed.

Lemma history_afterReaddir dirPath s :
  History s -> In (EvReaddir dirPath) (log s) ->
  History (afterReaddir dirPath (fs_readdir dirPath) s).
Proof.
  intros Hh Hin. unfold afterReaddir.
  destruct (fs_readdir dirPath) as [entries|e] eqn:Hr.
  - destruct (sortEntries_fields dirPath entries s)
      as (_ & _ & _ & Ho & _ & _ & He & Hws & Hg & Hy & Hl).
    assert (History (fold_left (sortEntry dirPath) entries s)) as [H1 H2 H2' H3]
      by (by apply (history_same s)).
    case_match; constructor; simpl; try done. by apply pendingLogged_wake.
  - destruct Hh as [H1 H2 H2' H3]. destruct s as [qy qr qf qs qc ob aw dn er ws g yl lg].
    unfold_stages. simpl in *.
    case_match; constructor; simpl; try done; intros e' [= <-];
      eexists; (split; [eassumption|]); simpl; eauto.
Qed.

Lemma history_set_running w s : History s -> History (set_worker w WRunning s).
Proof. intros [H1 H2 H2' H3]. constructor; simpl; try done. by apply Forall_insert. Qed.

Lemma reachable_history s : reachable s -> History s.
Proof.
  intros Hr.
  cut (exists N, validate = Normal N /\ History s /\ Accounting N s /\ quiescent s /\
                 Z.of_nat (length (workers s)) = N); [by intros (N & _ & H & _)|].
  revert s Hr. apply (run_rule (fun _ => History) (fun _ _ => History)).
  - intros N Hv. constructor; simpl; try done.
    apply Forall_cons. split; [by left|]. apply Forall_replicate. done.
  - intros N w s Hh _ _ Hw. apply (history_set_running w) in Hh.
    destruct Hh. by constructor.
  - intros N w fileCtx s Hh _ _ _ Hw. apply history_afterRead.
    + by apply history_set_running.
    + destruct Hh as [_ _ _ H3]. exact (Forall_lookup_1 _ _ _ _ H3 Hw).
  - intros N w dirPath s Hh _ _ _ Hw. apply history_afterReaddir.
    + by apply history_set_running.
    + destruct Hh as [_ _ _ H3]. exact (Forall_lookup_1 _ _ _ _ H3 Hw).
  - intros N w s o s' Hh _ _ Hit. exact (history_iteration w s o s' Hh Hit).
  - intros N s [H1 H2 H3] _ _ _.
    destruct s as [qy qr qf qs qc ob aw dn er ws g yl lg].
    unfold generatorLoop. simpl in *.
    repeat case_match; constructor; simpl; try done.
    + intros e [= <-]. apply H2. by apply setError_inv in H0 as [? _].
    + by rewrite <- app_assoc.
Qed.

Lemma execFrom_reachable sched s s' :
  reachable s -> execFrom sched s = Some s' -> reachable s'.
Proof.
  revert s. induction sched as [|l sched IH]; intros s Hr Hrun; simpl in Hrun.
  - by simplify_eq.
  - destruct (step l s) as [s1|] eqn:Hstep; [|done].
    eapply IH; [|exact Hrun]. eapply reachable_step; eauto.
Qed.

Lemma execFrom_error_kept sched s s' e :
  setError s = Some e -> execFrom sched s = Some s' -> is_Some (setError s').
Proof.
  revert s e. induction sched as [|l sched IH]; intros s e He Hrun; simpl in Hrun.
  - simplify_eq. eauto.
  - destruct (step l s) as [s1|] eqn:Hstep; [|done].
    destruct (error_slot_is_kept l s s1 e He Hstep) as [e1 He1]. eauto.
Qed.

Lemma awaiting_is_enabled s w st :
  workers s !! w = Some st -> isAwaitingIo st = 1 -> is_Some (step (IoDone w) s).
Proof. intros Hw Hst. simpl. rewrite Hw. destruct st; simpl in Hst; try done; eauto. Qed.

(** *** How a run stands when no task is left *)

(** The sequence has ended, or the pull is pending with a falsy value in the
    slot. *)
Lemma finished_completed s :
  reachable s -> finished s ->
  (exists r, gen s = GCompleted r /\ outputBuffer s = [] /\
     match r with
     | Normal _ => isDone s = true /\ setError s = None
     | Throw _ => is_Some (setError s) /\ isDone s = false
     end) \/
  (gen s = GAwaiting /\ isDone s = false /\ outputBuffer s = [] /\
   exists v, error s = Some v /\ truthy v = false).
Proof.
  intros Hr Hfin.
  destruct (reachable_counting s Hr) as (N & Hv & Hc & Hacc & Hq & Hlen).
  destruct (reachable_handshake s Hr) as [H1 H2 H3 H4].
  destruct Hacc as [_ _ _ _ Hdone Hzero]. unfold quiescent in Hq.
  destruct (gen s) as [| | | |r] eqn:Hg; try done.
  - specialize (Hfin Next). simpl in Hfin. by rewrite Hg in Hfin.
  - destruct (H2 eq_refl) as [He Hnd]. right. split; [done|]. split; [done|].
    split; [by apply reachable_parked|].
    destruct (error s) as [v|] eqn:Hes.
    + exists v. split; [done|]. unfold setError in He. rewrite Hes in He.
      by destruct (truthy v).
    + specialize (Hc Hes).
      destruct (decide (0 < sumWorkers isAwaitingIo (workers s))) as [Hio|Hio].
      * destruct (worker_with_positive_count _ _ isAwaitingIo_nonneg Hio)
          as (w & st & Hw & Hst).
        destruct (awaiting_is_enabled s w st Hw) as [s' Hs'];
          [destruct st; simpl in *; lia|].
        rewrite (Hfin (IoDone w)) in Hs'. done.
      * pose proof (sumWorkers_nonneg isAwaitingIo (workers s) isAwaitingIo_nonneg).
        assert (activeWorkers s = 0) as Hz by lia. rewrite (Hzero Hz) in Hnd. done.
  - specialize (Hfin GenResume). simpl in Hfin. by rewrite Hg in Hfin.
  - left. exists r. split; [done|]. destruct r as [[]|e].
    + destruct (H3 eq_refl) as [Hd Hb]. split; [done|]. split; [done|].
      by destruct (Hdone Hd) as (_ & _ & ? & _).
    + destruct (H4 e eq_refl) as [[e' He'] Hb]. split; [done|]. split; [eauto|].
      by eapply reachable_error_not_done.
Qed.

(** With a truthy value in the slot the generator is neither parked nor has
    the sequence ended normally. *)
Lemma error_set_gen s e :
  reachable s -> setError s = Some e ->
  gen s <> GAwaiting /\ gen s <> GCompleted (Normal ()).
Proof.
  intros Hr He. destruct (reachable_handshake s Hr) as [_ H2 H3 _].
  split; intros Hg.
  - destruct (H2 Hg). congruence.
  - destruct (H3 Hg) as [Hd _]. rewrite (reachable_error_not_done s e Hr He) in Hd. done.
Qed.

Lemma finished_thrown s e :
  reachable s -> setError s = Some e -> finished s ->
  exists e', gen s = GCompleted (Throw e') /\ outputBuffer s = [].
Proof.
  intros Hr He Hfin. destruct (error_set_gen s e Hr He) as [Hna Hnn].
  destruct (finished_completed s Hr Hfin) as [(r & Hg & Hb & Hrest)|[Hg _]]; [|done].
  destruct r as [[]|e']; [done|]. eauto.
Qed.

(** *** What is left to do once the slot holds a truthy value *)

Lemma unsettled_nonneg st : 0 <= unsettled st.
Proof. destruct st; simpl; lia. Qed.

Lemma sumWorkers_wake_unsettled ws :
  sumWorkers unsettled (wake <$> ws) = sumWorkers unsettled ws.
Proof. induction ws as [|[] ws IH]; rewrite ?fmap_cons; simpl in *; lia. Qed.

Lemma sumWorkers_le_length f ws :
  (forall st, f st <= 1) -> sumWorkers f ws <= Z.of_nat (length ws).
Proof. intros Hf. induction ws as [|a ws IH]; simpl; [lia|]. specialize (Hf a). lia. Qed.

Lemma remaining_bounds s :
  0 <= remaining s <=
    Z.of_nat (length (workers s)) + Z.of_nat (length (outputBuffer s)) + 1.
Proof.
  unfold remaining.
  pose proof (sumWorkers_nonneg unsettled (workers s) unsettled_nonneg).
  pose proof (sumWorkers_le_length unsettled (workers s)) as Hle.
  assert (forall st, unsettled st <= 1) as Hone by (intros []; simpl; lia).
  specialize (Hle Hone). destruct (gen s); lia.
Qed.

Lemma unsettled_returned w ws st :
  ws !! w = Some st ->
  sumWorkers unsettled (<[w:=WReturned]> (<[w:=WRunning]> ws)) =
  sumWorkers unsettled ws - unsettled st.
Proof.
  intros Hw. rewrite list_insert_insert_eq. erewrite sumWorkers_insert by exact Hw.
  simpl. lia.
Qed.

Lemma unsettled_returned_wake w ws st :
  ws !! w = Some st ->
  sumWorkers unsettled (<[w:=WReturned]> (wake <$> <[w:=WRunning]> ws)) =
  sumWorkers unsettled ws - unsettled st.
Proof.
  intros Hw. change WReturned with (wake WReturned).
  rewrite <- list_fmap_insert, sumWorkers_wake_unsettled. by apply unsettled_returned.
Qed.

(** Every task makes it smaller. *)
Lemma remaining_step l s s' e :
  setError s = Some e -> gen s <> GAwaiting -> step l s = Some s' ->
  remaining s' < remaining s.
Proof.
  intros He Hna Hstep. unfold remaining.
  assert (Hgl : gen s = GSuspendedYield \/ gen s = GWoken ->
            Z.of_nat (length (outputBuffer (generatorLoop s)))
            + match gen (generatorLoop s) with GSuspendedYield | GWoken => 1 | _ => 0 end
            < Z.of_nat (length (outputBuffer s)) + 1).
  { intros _. unfold generatorLoop. rewrite He.
    destruct (outputBuffer s) as [|r rest] eqn:Hb; cbn -[Z.of_nat]; rewrite ?Hb;
      cbn -[Z.of_nat]; rewrite ?Nat2Z.inj_succ; lia. }
  destruct l as [| |w|w]; simpl in Hstep.
  - destruct (gen s) eqn:Hg; simplify_eq.
    destruct (generatorLoop_fields s) as (_ & _ & _ & _ & _ & _ & _ & _ & Hws & _).
    rewrite Hws. specialize (Hgl (or_introl eq_refl)). lia.
  - destruct (gen s) eqn:Hg; simplify_eq.
    destruct (generatorLoop_fields s) as (_ & _ & _ & _ & _ & _ & _ & _ & Hws & _).
    rewrite Hws. specialize (Hgl (or_intror eq_refl)). lia.
  - destruct (workers s !! w) as [[]|] eqn:Hw; simplify_eq.
    erewrite runWorker_error_set by (exact He). simpl.
    rewrite (unsettled_returned w _ _ Hw). simpl. lia.
  - destruct (workers s !! w) as [[| fileCtx | dirPath | | |]|] eqn:Hw; simplify_eq.
    + erewrite runWorker_error_set
        by (apply (afterRead_error _ _ (set_worker w WRunning s) e He)).
      unfold afterRead, notifyGenerator. simpl.
      destruct (fs_readFile (ctx_path fileCtx)) as [b|e']; simpl.
      * rewrite (unsettled_returned_wake w _ _ Hw). simpl. lia.
      * destruct (gen s) eqn:Hg; try done; simpl; rewrite ?Hg;
          rewrite (unsettled_returned w _ _ Hw); simpl; lia.
    + erewrite runWorker_error_set
        by (apply (afterReaddir_error _ _ (set_worker w WRunning s) e He)).
      unfold afterReaddir, notifyGenerator. simpl.
      destruct (fs_readdir dirPath) as [entries|e']; simpl.
      * destruct (sortEntries_fields dirPath entries (set_worker w WRunning s))
          as (_ & _ & _ & Ho & _ & _ & _ & Hws & Hg & _).
        simpl in Ho, Hws, Hg.
        destruct (0 <? length entries)%nat; simpl; rewrite ?Ho, ?Hws, ?Hg.
        -- rewrite (unsettled_returned_wake w _ _ Hw). simpl. lia.
        -- rewrite (unsettled_returned w _ _ Hw). simpl. lia.
      * destruct (gen s) eqn:Hg; try done; simpl; rewrite ?Hg;
          rewrite (unsettled_returned w _ _ Hw); simpl; lia.
Qed.

(** C3, as the code has it.  From the moment the error slot holds a truthy
    value (every [Error] object is one): no record is appended to the Output
    Buffer (the buffer only loses the records the consumer pulls), the slot
    keeps holding a truthy value, [isDone] is not set then and is never set
    afterwards (a worker that sees the slot returns before it reaches the
    termination check), and the sequence ends by throwing: the generator is
    never parked and the sequence never ends normally, a pull or its
    continuation that finds the buffer empty throws the value then in the
    slot, at most as many tasks follow as there are workers and buffered
    records, plus one, and when no task is left the sequence has ended by
    throwing. *)
Theorem after_error_no_append_and_done_stays_unset sched s e :
  exec sched exploreFilesAsync = Some (Started s) -> error s = Some e -> truthy e = true ->
  isDone s = false /\
  forall sched' s', execFrom sched' s = Some s' ->
    outputBuffer s' `suffix_of` outputBuffer s /\
    (exists e', error s' = Some e' /\ truthy e' = true) /\
    isDone s' = false /\
    gen s' <> GAwaiting /\ gen s' <> GCompleted (Normal ()) /\
    (forall l s'', l = Next \/ l = GenResume -> outputBuffer s' = [] ->
       step l s' = Some s'' ->
       exists e', error s' = Some e' /\ gen s'' = GCompleted (Throw e')) /\
    (length sched' <= length (workers s) + length (outputBuffer s) + 1)%nat /\
    (finished s' -> exists e', gen s' = GCompleted (Throw e') /\ outputBuffer s' = []).
Proof.
  intros Hex He0 Ht. apply exec_reachable in Hex.
  pose proof (setError_truthy s e He0 Ht) as He.
  split; [by eapply reachable_error_not_done|].
  intros sched' s' Hrun.
  assert (Hall : outputBuffer s' `suffix_of` outputBuffer s /\
                 (exists e', setError s' = Some e') /\ reachable s' /\
                 Z.of_nat (length sched') + remaining s' <= remaining s).
  { clear He0 Ht. revert s e Hex He Hrun.
    induction sched' as [|l sched' IH]; intros s e Hr He Hrun; simpl in Hrun.
    - simplify_eq. split; [done|]. split; [eauto|]. split; [done|]. simpl. lia.
    - destruct (step l s) as [s1|] eqn:Hstep; [|done].
      destruct (step_error_set l s s1 e He Hstep) as [[e1 He1] Hsuf].
      destruct (error_set_gen s e Hr He) as [Hna _].
      pose proof (remaining_step l s s1 e He Hna Hstep) as Hm.
      destruct (IH s1 e1 (reachable_step _ _ _ Hr Hstep) He1 Hrun)
        as (Hsuf' & He' & Hr' & Hm').
      split; [by etrans|]. split; [done|]. split; [done|]. cbn [length]. lia. }
  destruct Hall as (Hsuf & [e' He'] & Hr' & Hm).
  destruct (error_set_gen s' e' Hr' He') as [Hna Hnn].
  split; [done|]. split; [exists e'; by apply setError_inv|].
  split; [by eapply reachable_error_not_done|]. split; [done|]. split; [done|].
  split; [|split].
  - intros l s'' Hl Hb Hstep. exists e'. split; [by apply setError_inv in He' as [? _]|].
    assert (s'' = generatorLoop s') as ->.
    { destruct Hl as [-> | ->]; simpl in Hstep; by repeat case_match; simplify_eq. }
    unfold generatorLoop. by rewrite Hb, He'.
  - pose proof (remaining_bounds s) as [_ Hup]. pose proof (remaining_bounds s') as [Hlo _].
    lia.
  - intros Hfin. by eapply finished_thrown.
Qed.

(** *** The sequence hangs only on a falsy thrown value *)

(** The value in the slot was thrown by a call of this run, so it is truthy
    when the predicates only throw truthy values. *)
Lemma truthyThrows_slot s v :
  truthyThrows -> reachable s -> error s = Some v -> truthy v = true.
Proof.
  intros (Hd & Hf & Hy) Hr He.
  destruct (reachable_history s Hr) as [_ H2 _ _].
  destruct (H2 v He) as (ev & _ & Hraise).
  destruct ev; simpl in Hraise; eauto; by destruct Hraise as (e' & _ & ->).
Qed.

(** X1.  Whenever no task of the event loop is left, the sequence has ended (by
    the validation error, normally, or by throwing), or the pull is pending
    for ever with a falsy value in the error slot, a value that a predicate
    of this run has thrown.  So with predicates that only throw truthy values
    (such as [Error] objects) a pull is never left pending with nothing in
    flight, whatever [fs] does; with [throw undefined] in [shouldExploreDir]
    it is: the worker returns without decrementing [activeWorkers], and
    neither [if (error)] nor [if (isDone)] ever holds. *)
Theorem sequence_hangs_only_on_a_falsy_thrown_value sched it :
  exec sched exploreFilesAsync = Some it -> (forall l, istep l it = None) ->
  ((exists e, it = ClosedAtStart e /\ validate = Throw e) \/
   (exists s r, it = Started s /\ gen s = GCompleted r /\ outputBuffer s = [] /\
      match r with
      | Normal _ => isDone s = true /\ setError s = None
      | Throw _ => is_Some (setError s) /\ isDone s = false
      end) \/
   (exists s v, it = Started s /\ gen s = GAwaiting /\ isDone s = false /\
      outputBuffer s = [] /\ error s = Some v /\ truthy v = false /\
      exists ev, In ev (log s) /\ raises ev v)) /\
  (truthyThrows ->
   (exists e, it = ClosedAtStart e) \/ (exists s r, it = Started s /\ gen s = GCompleted r)).
Proof.
  intros Hex Hstuck. destruct it as [|s|e].
  - specialize (Hstuck Next). simpl in Hstuck. by destruct prologue.
  - pose proof (exec_reachable sched s Hex) as Hr.
    assert (Hfin : finished s).
    { intros l. specialize (Hstuck l). simpl in Hstuck. by destruct (step l s). }
    destruct (finished_completed s Hr Hfin)
      as [(r & Hg & Hb & Hrest)|(Hg & Hnd & Hb & v & Hv & Hfalsy)].
    + split; [right; left; by exists s, r|]. intros _. right. by exists s, r.
    + split.
      * right. right. exists s, v. do 6 (split; [done|]).
        destruct (reachable_history s Hr) as [_ H2 _ _]. by apply H2.
      * intros Htt. rewrite (truthyThrows_slot s v Htt Hr Hv) in Hfalsy. done.
  - split; [|intros _; left; by exists e]. left. exists e. split; [done|].
    destruct sched as [|l sched]; simpl in Hex; [done|].
    destruct l; try done. unfold prologue in Hex.
    destruct validate as [N|e'] eqn:Hv.
    + rewrite exec_of_started in Hex. by destruct (execFrom _ _).
    + destruct sched; simpl in Hex; by simplify_eq.
Qed.

(** *** A recorded error ends the sequence by throwing *)

(** X2.  From the moment the error slot holds a truthy value (an [Error] object,
    say), the generator is not parked, the sequence can no longer end
    normally, and when no task is left it has ended by throwing: such an
    error is never swallowed into a clean end of the sequence. *)
Theorem recorded_error_is_never_swallowed sched s e :
  exec sched exploreFilesAsync = Some (Started s) -> error s = Some e -> truthy e = true ->
  gen s <> GAwaiting /\
  forall sched' s', execFrom sched' s = Some s' ->
    gen s' <> GCompleted (Normal ()) /\
    (finished s' -> exists e', gen s' = GCompleted (Throw e')).
Proof.
  intros Hex He0 Ht. apply exec_reachable in Hex.
  pose proof (setError_truthy s e He0 Ht) as He.
  split; [by apply (error_set_gen s e)|].
  intros sched' s' Hrun.
  pose proof (execFrom_reachable sched' s s' Hex Hrun) as Hr'.
  destruct (execFrom_error_kept sched' s s' e He Hrun) as [e' He'].
  destruct (error_set_gen s' e' Hr' He') as [Hna Hnn]. split; [done|].
  intros Hfin. destruct (finished_thrown s' e' Hr' He' Hfin) as (e'' & Hg & _). eauto.
Qed.

(** *** The order of delivery *)

(** X3.  The records handed to the consumer, followed by those still in the
    Output Buffer, are exactly the records for which [shouldYieldFile] has
    returned [true], in the order of those calls: the buffer is a FIFO queue,
    and no record is dropped, duplicated or reordered between a worker and
    the consumer.  When the sequence has ended, the buffer is empty and the
    consumer has received all of them. *)
Theorem records_are_delivered_in_acceptance_order sched s :
  exec sched exploreFilesAsync = Some (Started s) ->
  yielded s ++ outputBuffer s = acceptedRecords (log s) /\
  (forall r, gen s = GCompleted r ->
     outputBuffer s = [] /\ yielded s = acceptedRecords (log s)).
Proof.
  intros Hex. apply exec_reachable in Hex.
  destruct (reachable_history s Hex) as [Hfifo _ _ _].
  destruct (reachable_handshake s Hex) as [_ _ H3 H4].
  split; [done|]. intros r Hg.
  assert (outputBuffer s = []) as Hb.
  { destruct r as [[]|e]; [by destruct (H3 Hg)|by destruct (H4 e Hg)]. }
  split; [done|]. by rewrite Hb, app_nil_r in Hfifo.
Qed.

(** *** Where errors come from *)

(** X4.  The error in the slot, and the error the sequence has ended with, was
    thrown by a predicate or by an [fs] call of this very run: a call that is
    in the log and that throws this error. *)
Theorem sequence_throws_only_what_a_call_has_thrown sched s e :
  exec sched exploreFilesAsync = Some (Started s) ->
  error s = Some e \/ gen s = GCompleted (Throw e) ->
  exists ev, In ev (log s) /\ raises ev e.
Proof.
  intros Hex He. apply exec_reachable in Hex.
  destruct (reachable_history s Hex) as [_ H2 H2' _].
  destruct He as [He|Hg]; [by apply H2|]. apply H2'. by rewrite Hg.
Qed.

(** *** Work is never stranded *)

(** X5.  Between two tasks, while a queue holds a task no worker is parked in
    [workerWaiters] (every push is followed by [notifyWorkers], and a worker
    parks only when it has found all five queues empty); as long as no error
    is recorded, some worker then has an [fs] call pending, and the
    yield-check queue is empty: a worker that has read a file evaluates
    [shouldYieldFile] on it before it suspends again. *)
Theorem no_worker_sleeps_while_a_queue_holds_a_task sched s :
  exec sched exploreFilesAsync = Some (Started s) ->
  (allQueuesEmpty s = false -> forall w, workers s !! w <> Some WParked) /\
  (allQueuesEmpty s = false -> error s = None ->
     exists w st, workers s !! w = Some st /\ isAwaitingIo st = 1) /\
  (error s = None -> queueYieldCheck s = []).
Proof.
  intros Hex. apply exec_reachable in Hex.
  destruct (reachable_asleep s Hex) as [Hn Hy].
  destruct (reachable_counting s Hex) as (N & _ & Hc & [_ _ _ _ Hdone Hzero] & Hq & Hlen).
  unfold quiescent in Hq.
  split; [|split; [|done]].
  - intros Hne w Hw.
    pose proof (sumWorkers_lookup isParked (workers s) w _ isParked_nonneg Hw) as Hle.
    rewrite (Hn Hne) in Hle. simpl in Hle. lia.
  - intros Hne He. specialize (Hc He).
    assert (isDone s = false) as Hnd.
    { destruct (isDone s); [|done]. destruct (Hdone eq_refl) as [? _]. congruence. }
    assert (0 < sumWorkers isAwaitingIo (workers s)) as Hio.
    { pose proof (sumWorkers_nonneg isAwaitingIo (workers s) isAwaitingIo_nonneg).
      destruct (decide (activeWorkers s = 0)) as [Hz|Hz]; [|lia].
      rewrite (Hzero Hz) in Hnd. done. }
    destruct (worker_with_positive_count _ _ isAwaitingIo_nonneg Hio) as (w & st & Hw & Hst).
    exists w, st. split; [done|]. destruct st; simpl in *; lia.
Qed.

(** *** The traversal does not wait for the consumer *)

(** X6.  The workers never wait for a pull: as long as no error is recorded, a
    state in which no task of a worker is left is one in which the traversal
    is complete, whether or not the consumer has taken the records: [isDone]
    is set, the queues are empty and every worker has returned.  The Output
    Buffer holds whatever has not been pulled; its length is not bounded. *)
Theorem traversal_does_not_wait_for_the_consumer sched s :
  exec sched exploreFilesAsync = Some (Started s) -> error s = None ->
  (forall w, step (WorkerResume w) s = None /\ step (IoDone w) s = None) ->
  isDone s = true /\ allQueuesEmpty s = true /\
  forall w st, workers s !! w = Some st -> st = WReturned.
Proof.
  intros Hex He Hidle. apply exec_reachable in Hex.
  destruct (reachable_counting s Hex) as (N & _ & Hc & [_ _ _ _ Hdone Hzero] & Hq & Hlen).
  unfold quiescent in Hq. specialize (Hc He).
  assert (Hio : sumWorkers isAwaitingIo (workers s) = 0).
  { pose proof (sumWorkers_nonneg isAwaitingIo (workers s) isAwaitingIo_nonneg).
    destruct (decide (0 < sumWorkers isAwaitingIo (workers s))) as [Hpos|]; [|lia].
    destruct (worker_with_positive_count _ _ isAwaitingIo_nonneg Hpos) as (w & st & Hw & Hst).
    destruct (awaiting_is_enabled s w st Hw) as [s' Hs']; [destruct st; simpl in *; lia|].
    destruct (Hidle w) as [_ Hn]. congruence. }
  assert (Hd : isDone s = true) by (apply Hzero; lia).
  destruct (Hdone Hd) as (Hempty & _ & _ & Hpark).
  split; [done|]. split; [done|]. intros w st Hw.
  pose proof (sumWorkers_lookup isRunning _ w st isRunning_nonneg Hw).
  pose proof (sumWorkers_lookup isAwaitingIo _ w st isAwaitingIo_nonneg Hw).
  pose proof (sumWorkers_lookup isParked _ w st isParked_nonneg Hw).
  destruct st; simpl in *; try lia; [|done].
  destruct (Hidle w) as [Hn _]. simpl in Hn. by rewrite Hw in Hn.
Qed.

(** *** The start of a run *)

(** X7.  What the first pull does before it reaches the generator loop, for a
    [workerCount] that is a positive integer [k]: it starts [min(k, 8)]
    workers one after the other; the first one takes the root from the
    directory-stat queue and waits for its listing, each of the others finds
    the five queues empty, decrements [activeWorkers] and parks.  So
    [activeWorkers] is 1, and the only call made is [readdir(rootDir)]. *)
Theorem first_pull_leaves_one_worker_listing_the_root q k :
  workerCount options = Some (Finite q) -> (q == inject_Z k)%Q -> 1 <= k ->
  exists s0,
    prologue = Normal s0 /\
    workers s0 =
      WAwaitReaddir (rootDir options)
        :: replicate (Z.to_nat (Z.min k MAX_WORKER_COUNT) - 1) WParked /\
    activeWorkers s0 = 1 /\ allQueuesEmpty s0 = true /\ outputBuffer s0 = [] /\
    isDone s0 = false /\ error s0 = None /\ log s0 = [EvReaddir (rootDir options)] /\
    istep Next exploreFilesAsync = Some (Started (with_gen GAwaiting s0)).
Proof.
  intros Hwc Hq Hk.
  pose proof (validate_positive_integer q k Hwc Hq Hk) as Hv.
  pose proof (prologue_started _ Hv) as Hp.
  exists (startedState (Z.min k MAX_WORKER_COUNT)).
  split; [done|]. simpl. rewrite Hp. done.
Qed.

(** *** What the active count counts *)

(** X8.  Between two tasks, as long as no error is recorded, [activeWorkers] is
    exactly the number of workers that wait for an [fs] call: parked, woken
    and returned workers are not counted. *)
Theorem active_count_is_the_number_of_pending_fs_calls sched s :
  exec sched exploreFilesAsync = Some (Started s) -> error s = None ->
  activeWorkers s = sumWorkers isAwaitingIo (workers s).
Proof.
  intros Hex He. apply exec_reachable in Hex.
  destruct (reachable_counting s Hex) as (N & _ & Hc & _ & Hq & Hlen).
  unfold quiescent in Hq. specialize (Hc He). lia.
Qed.

(** *** The length of a task of a worker *)

Lemma workerLoop_more_fuel fuel w s s' :
  workerLoop fuel w s = Some s' -> workerLoop (S fuel) w s = Some s'.
Proof.
  revert s. induction fuel as [|fuel IH]; intros s H; [done|].
  cbn [workerLoop] in *. destruct (iteration s) as [[] s1]; try done. by apply IH.
Qed.

(** X9.  A task of a worker runs at most one iteration more than there are
    tasks in the yield-check, file-check and directory-check queues when it
    starts: within that many iterations the loop reaches an [await] or a
    [return], and more fuel does not change the state it reaches. *)
Theorem worker_task_ends_within_the_queued_work w s fuel :
  (syncWork s < fuel)%nat -> workerLoop fuel w s = Some (runWorker w s).
Proof.
  intros Hlt. replace fuel with ((fuel - S (syncWork s)) + S (syncWork s))%nat by lia.
  induction (fuel - S (syncWork s))%nat as [|k IH]; [apply runWorker_eq|].
  by apply workerLoop_more_fuel.
Qed.

(** *** Which calls a run makes *)

(** X10.  In every run, failing or not: a directory is passed to [readdir] only if
    it is the root or a sub-directory entry of a listed directory that
    [shouldExploreDir] has accepted; a file is passed to [shouldReadFile] only
    if it is a file entry of a listed directory, and to [readFile] only if
    [shouldReadFile] has accepted it. *)
Theorem only_accepted_directories_and_files_reach_fs sched s :
  exec sched exploreFilesAsync = Some (Started s) ->
  (forall dirPath, In (EvReaddir dirPath) (log s) -> explored dirPath) /\
  (forall f, In (EvShouldReadFile f) (log s) -> candidateFile f) /\
  (forall p, In (EvReadFile p) (log s) ->
     candidateFile {| ctx_path := p |} /\
     shouldReadFile options {| ctx_path := p |} = Normal true).
Proof.
  intros Hex. apply exec_reachable, reachable_origins in Hex.
  destruct Hex as [_ _ _ _ _ _ _ _ Hlog]. rewrite Forall_forall in Hlog.
  split; [|split].
  - intros d Hin. apply (Hlog (EvReaddir d)). by apply list_elem_of_In.
  - intros f Hin. apply (Hlog (EvShouldReadFile f)). by apply list_elem_of_In.
  - intros p Hin. apply (Hlog (EvReadFile p)). by apply list_elem_of_In.
Qed.

(** X11.  Every record in the Output Buffer or handed to the consumer, in every
    run: its path is a file entry of a listed directory, [shouldReadFile] and
    [shouldYieldFile] have accepted it, and its reader holds exactly the bytes
    that [readFile] returned for that path. *)
Theorem yielded_records_hold_the_bytes_read_for_their_path sched s r :
  exec sched exploreFilesAsync = Some (Started s) ->
  In r (yielded s ++ outputBuffer s) ->
  candidateFile {| ctx_path := path r |} /\
  shouldReadFile options {| ctx_path := path r |} = Normal true /\
  fs_readFile (path r) = Normal (buffer (contents r)) /\
  yieldPredicate r = Normal true.
Proof.
  intros Hex Hin. apply exec_reachable, reachable_origins in Hex.
  destruct Hex as [_ _ _ _ _ Ho Hy _ _].
  assert (selected r) as [[[? ?] ?] ?]; [|done].
  rewrite Forall_forall in Ho. rewrite Forall_forall in Hy.
  apply in_app_iff in Hin as [Hin|Hin]; [apply Hy|apply Ho]; by apply list_elem_of_In.
Qed.

(* ================================================================= *)
(** ** One worker: the sequence is reproducible *)

Lemma workerSide_idem s : workerSide (workerSide s) = workerSide s.
Proof. done. Qed.

Lemma workerSide_notifyGenerator s :
  workerSide (notifyGenerator s) = workerSide s.
Proof. unfold notifyGenerator. by destruct (gen s). Qed.

Lemma workerSide_stageYieldCheck file s :
  fst (stageYieldCheck file (workerSide s)) = fst (stageYieldCheck file s) /\
  workerSide (snd (stageYieldCheck file (workerSide s))) =
    workerSide (snd (stageYieldCheck file s)).
Proof.
  unfold stageYieldCheck. destruct (yieldPredicate file) as [[]|]; simpl;
    rewrite ?workerSide_notifyGenerator; done.
Qed.

Lemma workerSide_stageFileCheck fileCtx s :
  fst (stageFileCheck fileCtx (workerSide s)) = fst (stageFileCheck fileCtx s) /\
  workerSide (snd (stageFileCheck fileCtx (workerSide s))) =
    workerSide (snd (stageFileCheck fileCtx s)).
Proof.
  unfold stageFileCheck. destruct (shouldReadFile options fileCtx) as [[]|]; simpl;
    rewrite ?workerSide_notifyGenerator; done.
Qed.

Lemma workerSide_stageDirCheck dirPath s :
  fst (stageDirCheck dirPath (workerSide s)) = fst (stageDirCheck dirPath s) /\
  workerSide (snd (stageDirCheck dirPath (workerSide s))) =
    workerSide (snd (stageDirCheck dirPath s)).
Proof.
  unfold stageDirCheck. destruct (shouldExploreDir options dirPath) as [[]|]; simpl;
    rewrite ?workerSide_notifyGenerator; done.
Qed.

Lemma workerSide_stageIdle s :
  fst (stageIdle (workerSide s)) = fst (stageIdle s) /\
  workerSide (snd (stageIdle (workerSide s))) = workerSide (snd (stageIdle s)).
Proof.
  unfold stageIdle.
  change (allQueuesEmpty (with_activeWorkers (activeWorkers (workerSide s) - 1) (workerSide s)))
    with (allQueuesEmpty (with_activeWorkers (activeWorkers s - 1) s)).
  change (activeWorkers (with_activeWorkers (activeWorkers (workerSide s) - 1) (workerSide s)))
    with (activeWorkers (with_activeWorkers (activeWorkers s - 1) s)).
  case_match; simpl; [|done]. split; [done|].
  unfold notifyWorkers. simpl. unfold notifyGenerator. simpl. by destruct (gen s).
Qed.

Lemma workerSide_iteration s :
  fst (iteration (workerSide s)) = fst (iteration s) /\
  workerSide (snd (iteration (workerSide s))) = workerSide (snd (iteration s)).
Proof.
  unfold iteration.
  change (setError (workerSide s)) with (setError s).
  change (queueYieldCheck (workerSide s)) with (queueYieldCheck s).
  change (queueRead (workerSide s)) with (queueRead s).
  change (queueFileCheck (workerSide s)) with (queueFileCheck s).
  change (queueDirStat (workerSide s)) with (queueDirStat s).
  change (queueDirCheck (workerSide s)) with (queueDirCheck s).
  destruct (setError s); [done|].
  destruct (queueYieldCheck s) as [|file rest];
    [|exact (workerSide_stageYieldCheck file (with_queueYieldCheck rest s))].
  destruct (queueRead s) as [|fileCtx rest]; [|done].
  destruct (queueFileCheck s) as [|fileCtx rest];
    [|exact (workerSide_stageFileCheck fileCtx (with_queueFileCheck rest s))].
  destruct (queueDirStat s) as [|dirPath rest]; [|done].
  destruct (queueDirCheck s) as [|dirPath rest];
    [|exact (workerSide_stageDirCheck dirPath (with_queueDirCheck rest s))].
  apply workerSide_stageIdle.
Qed.

Lemma workerSide_settle w o s : workerSide (settle w o s) = settle w o (workerSide s).
Proof. by destruct o. Qed.

Lemma workerSide_workerLoop w fuel a b :
  workerSide a = workerSide b ->
  workerSide <$> workerLoop fuel w a = workerSide <$> workerLoop fuel w b.
Proof.
  revert a b. induction fuel as [|fuel IH]; intros a b Hab; [done|].
  cbn [workerLoop].
  destruct (workerSide_iteration a) as [Ha1 Ha2].
  destruct (workerSide_iteration b) as [Hb1 Hb2].
  rewrite Hab in Ha1, Ha2.
  assert (H1 : fst (iteration a) = fst (iteration b)) by congruence.
  assert (H2 : workerSide (snd (iteration a)) = workerSide (snd (iteration b)))
    by congruence.
  clear Ha1 Ha2 Hb1 Hb2.
  destruct (iteration a) as [oa a'], (iteration b) as [ob b']. simpl in H1, H2. subst ob.
  destruct oa; try (by apply IH);
    unfold fmap, option_fmap, option_map; rewrite !workerSide_settle; by rewrite H2.
Qed.

Lemma workerSide_runWorker w a b :
  workerSide a = workerSide b -> workerSide (runWorker w a) = workerSide (runWorker w b).
Proof.
  intros Hab.
  pose proof (workerSide_workerLoop w (S (syncWork a)) a b Hab) as H.
  assert (Hs : syncWork a = syncWork b).
  { change (syncWork (workerSide a) = syncWork (workerSide b)). by rewrite Hab. }
  rewrite runWorker_eq in H. rewrite Hs, runWorker_eq in H.
  unfold fmap, option_fmap, option_map in H. congruence.
Qed.

Lemma workerSide_afterRead fileCtx r s :
  workerSide (afterRead fileCtx r s) = workerSide (afterRead fileCtx r (workerSide s)).
Proof. unfold afterRead. destruct r; simpl; rewrite ?workerSide_notifyGenerator; done. Qed.

Lemma workerSide_sortEntries dirPath entries s :
  workerSide (fold_left (sortEntry dirPath) entries s) =
  fold_left (sortEntry dirPath) entries (workerSide s).
Proof.
  revert s. induction entries as [|e es IH]; intros s; simpl; [done|].
  rewrite IH. f_equal. unfold sortEntry. by repeat case_match.
Qed.

Lemma workerSide_afterReaddir dirPath r s :
  workerSide (afterReaddir dirPath r s) = workerSide (afterReaddir dirPath r (workerSide s)).
Proof.
  unfold afterReaddir. destruct r as [entries|e]; [|by rewrite !workerSide_notifyGenerator].
  case_match.
  - change (workerSide (notifyWorkers ?x)) with (notifyWorkers (workerSide x)).
    by rewrite !workerSide_sortEntries.
  - by rewrite !workerSide_sortEntries.
Qed.

Lemma workerSide_step l a b :
  (exists w, l = WorkerResume w \/ l = IoDone w) -> workerSide a = workerSide b ->
  workerSide <$> step l a = workerSide <$> step l b.
Proof.
  intros [w Hl] Hab.
  assert (Hws : workers a = workers b).
  { change (workers (workerSide a) = workers (workerSide b)). by rewrite Hab. }
  destruct Hl as [-> | ->]; simpl; rewrite Hws.
  - destruct (workers b !! w) as [[]|]; try done. simpl. f_equal.
    apply workerSide_runWorker.
    change (with_activeWorkers (activeWorkers (workerSide a) + 1)
              (set_worker w WRunning (workerSide a)) =
            with_activeWorkers (activeWorkers (workerSide b) + 1)
              (set_worker w WRunning (workerSide b))).
    by rewrite Hab.
  - destruct (workers b !! w) as [[| fileCtx | dirPath | | |]|]; try done; simpl; f_equal;
      apply workerSide_runWorker.
    + rewrite workerSide_afterRead. symmetry. rewrite workerSide_afterRead. symmetry.
      change (workerSide (set_worker w WRunning ?x))
        with (set_worker w WRunning (workerSide x)).
      by rewrite Hab.
    + rewrite workerSide_afterReaddir. symmetry. rewrite workerSide_afterReaddir. symmetry.
      change (workerSide (set_worker w WRunning ?x))
        with (set_worker w WRunning (workerSide x)).
      by rewrite Hab.
Qed.

Lemma workerSide_generatorLoop s : workerSide (generatorLoop s) = workerSide s.
Proof. unfold generatorLoop. by repeat case_match. Qed.

Lemma workerTask_is_worker s l :
  workerTask s = Some l -> exists w, l = WorkerResume w \/ l = IoDone w.
Proof. unfold workerTask. intros H. repeat case_match; simplify_eq; eauto. Qed.

Lemma workerSide_advance a b :
  workerSide a = workerSide b -> workerSide <$> advance a = workerSide <$> advance b.
Proof.
  intros Hab. unfold advance.
  assert (Hws : workerTask a = workerTask b).
  { unfold workerTask. change (workers a) with (workers (workerSide a)). by rewrite Hab. }
  rewrite Hws. destruct (workerTask b) as [l|] eqn:Hl; [|done].
  apply workerSide_step; [|done]. by eapply workerTask_is_worker.
Qed.

Lemma fmap_Some_same {A B} (f : A -> B) (x : A) (o : option A) :
  f <$> Some x = f <$> o -> exists y, o = Some y /\ f x = f y.
Proof. destruct o as [y|]; [|done]. intros [= H]. eauto. Qed.

Lemma workerSide_advanceBy k a b :
  workerSide a = workerSide b ->
  workerSide <$> advanceBy k a = workerSide <$> advanceBy k b.
Proof.
  revert a b. induction k as [|k IH]; intros a b Hab; simpl; [by rewrite Hab|].
  pose proof (workerSide_advance a b Hab) as H.
  destruct (advance a) as [a'|].
  - apply fmap_Some_same in H as (b' & -> & H). by apply IH.
  - destruct (advance b) as [b'|]; [|done].
    symmetry in H. by apply fmap_Some_same in H as (? & ? & _).
Qed.

(** With one worker, the task of a worker that runs is the one of worker 0. *)
Lemma single_worker_task l s s' :
  length (workers s) = 1%nat -> (exists w, l = WorkerResume w \/ l = IoDone w) ->
  step l s = Some s' -> advance s = Some s'.
Proof.
  intros Hlen [w Hl] Hstep.
  assert (w = 0%nat) as ->.
  { destruct Hl as [-> | ->]; simpl in Hstep;
      destruct (workers s !! w) eqn:Hw; try done;
      apply lookup_lt_Some in Hw; lia. }
  unfold advance, workerTask.
  destruct Hl as [-> | ->]; simpl in Hstep;
    destruct (workers s !! 0%nat) as [[]|] eqn:Hw; simplify_eq; simpl; by rewrite Hw.
Qed.

(** A run of a single worker follows the chain of its tasks. *)
Lemma execFrom_advanceBy sched s s' :
  length (workers s) = 1%nat -> execFrom sched s = Some s' ->
  exists k t, advanceBy k s = Some t /\ workerSide t = workerSide s'.
Proof.
  revert s. induction sched as [|l sched IH]; intros s Hlen Hrun; simpl in Hrun.
  - simplify_eq. by exists 0%nat, s'.
  - destruct (step l s) as [s1|] eqn:Hstep; [|done].
    destruct (IH s1) as (k & t & Hk & Ht); [by rewrite (step_length l s s1 Hstep)|done|].
    destruct l as [| |w|w].
    + assert (workerSide s1 = workerSide s) as Hs.
      { simpl in Hstep. destruct (gen s); simplify_eq. apply workerSide_generatorLoop. }
      pose proof (workerSide_advanceBy k s1 s Hs) as H. rewrite Hk in H.
      apply fmap_Some_same in H as (t0 & Ht0 & Hsame).
      exists k, t0. split; [done|]. congruence.
    + assert (workerSide s1 = workerSide s) as Hs.
      { simpl in Hstep. destruct (gen s); simplify_eq. apply workerSide_generatorLoop. }
      pose proof (workerSide_advanceBy k s1 s Hs) as H. rewrite Hk in H.
      apply fmap_Some_same in H as (t0 & Ht0 & Hsame).
      exists k, t0. split; [done|]. congruence.
    + exists (S k), t. split; [|done]. simpl.
      by rewrite (single_worker_task (WorkerResume w) s s1 Hlen) by eauto.
    + exists (S k), t. split; [|done]. simpl.
      by rewrite (single_worker_task (IoDone w) s s1 Hlen) by eauto.
Qed.

Lemma advanceBy_last k s t :
  advanceBy k s = Some t -> advance t = None ->
  forall k' t', advanceBy k' s = Some t' -> (k' <= k)%nat.
Proof.
  revert s. induction k as [|k IH]; intros s Hk Hend k' t' Hk'; simpl in Hk.
  - simplify_eq. destruct k' as [|k']; [done|]. simpl in Hk'. by rewrite Hend in Hk'.
  - destruct (advance s) as [s1|] eqn:Hs; [|done].
    destruct k' as [|k']; [lia|]. simpl in Hk'. rewrite Hs in Hk'.
    specialize (IH s1 Hk Hend k' t' Hk'). lia.
Qed.

Lemma finished_advance s : finished s -> advance s = None.
Proof. intros Hfin. unfold advance. destruct (workerTask s); [apply Hfin|done]. Qed.

(** Two runs of a single worker that have come to their end have made the
    same calls and left the same shared variables. *)
Lemma single_worker_same_end s sched1 sched2 s1 s2 :
  length (workers s) = 1%nat ->
  execFrom sched1 s = Some s1 -> finished s1 ->
  execFrom sched2 s = Some s2 -> finished s2 ->
  workerSide s1 = workerSide s2.
Proof.
  intros Hlen Hrun1 Hfin1 Hrun2 Hfin2.
  destruct (execFrom_advanceBy sched1 s s1 Hlen Hrun1) as (k1 & t1 & Hk1 & Ht1).
  destruct (execFrom_advanceBy sched2 s s2 Hlen Hrun2) as (k2 & t2 & Hk2 & Ht2).
  assert (Hend : forall t s', workerSide t = workerSide s' -> finished s' -> advance t = None).
  { intros t s' Ht Hfin. pose proof (workerSide_advance t s' Ht) as H.
    rewrite (finished_advance s' Hfin) in H.
    destruct (advance t) as [t'|] eqn:E; [|done].
    by apply fmap_Some_same in H as (? & ? & _). }
  pose proof (advanceBy_last k1 s t1 Hk1 (Hend t1 s1 Ht1 Hfin1) k2 t2 Hk2).
  pose proof (advanceBy_last k2 s t2 Hk2 (Hend t2 s2 Ht2 Hfin2) k1 t1 Hk1).
  assert (k1 = k2) as -> by lia. congruence.
Qed.

Lemma iteration_suspends_clean s o s' :
  iteration s = (o, s') -> o <> OReturn -> o <> OContinue -> setError s' = None.
Proof.
  destruct s as [qy qr qf qs qc ob aw dn er ws g yl lg].
  unfold_stages; simpl. intros Hit Hr Hc.
  repeat case_match; simplify_eq/=; slot_tests; try done; congruence.
Qed.

Lemma setError_settle w o s : setError (settle w o s) = setError s.
Proof. by destruct o. Qed.

Lemma alone_iteration N w s o s' :
  (N = 1 -> forall e, gen s <> GCompleted (Throw e)) ->
  Accounting N s -> workers s !! w = Some WRunning -> iteration s = (o, s') ->
  match o with
  | OContinue => N = 1 -> forall e, gen s' <> GCompleted (Throw e)
  | _ => Alone N (settle w o s')
  end.
Proof.
  intros HJ Hacc Hw Hit.
  assert (HJ' : N = 1 -> forall e, gen s' <> GCompleted (Throw e)).
  { intros HN e Hg. destruct (iteration_gen s o s' Hit) as [E|[_ E]]; [|congruence].
    rewrite E in Hg. by apply (HJ HN e). }
  assert (Halone : N = 1 -> forall e, gen (settle w o s') = GCompleted (Throw e) ->
            setError (settle w o s') = Some e).
  { intros HN e Hg. rewrite settle_gen in Hg. by destruct (HJ' HN e). }
  destruct o; try done; intros HN; (split; [|by apply Halone]); intros [e He].
  - pose proof (accounting_iteration N w s _ s' Hacc Hw Hit) as [[Hlen _ _ _ _ _] _].
    assert (length (workers s') = length (workers s)) as Hl.
    { clear - Hit. destruct s. unfold_stages. simpl in *.
      repeat case_match; simplify_eq/=; rewrite ?length_fmap; done. }
    destruct Hacc as [Hlen0 _ _ _ _ _]. simpl in *.
    apply lookup_lt_Some in Hw as Hlt.
    destruct (workers s') as [|st [|? ?]] eqn:Hws; simpl in *; try lia.
    assert (w = 0%nat) as -> by lia. done.
  - rewrite setError_settle in He. by rewrite (iteration_suspends_clean s _ s' Hit) in He.
  - rewrite setError_settle in He. by rewrite (iteration_suspends_clean s _ s' Hit) in He.
  - rewrite setError_settle in He. by rewrite (iteration_suspends_clean s _ s' Hit) in He.
Qed.

Lemma reachable_alone s : reachable s -> validate = Normal 1 -> Alone 1 s.
Proof.
  intros Hr Hv.
  cut (exists N, validate = Normal N /\ Alone N s /\ Accounting N s /\ quiescent s /\
                 Z.of_nat (length (workers s)) = N).
  { intros (N & Hv' & H & _). assert (N = 1) as -> by congruence. done. }
  clear Hv. revert s Hr.
  assert (Hstart : forall w s st, Alone 1 s -> workers s !! w = Some st -> st <> WReturned ->
            forall e, gen s <> GCompleted (Throw e)).
  { intros w s st [H1 H2] Hw Hst e Hg; [done|].
    rewrite H1 in Hw by (rewrite (H2 e Hg); eauto).
    destruct w; simpl in Hw; by simplify_eq. }
  apply (run_rule Alone (fun N _ s => N = 1 -> forall e, gen s <> GCompleted (Throw e))).
  - intros N Hv _. split; [by intros [? ?]|done].
  - intros N w s Ha _ _ Hw ->. exact (Hstart w s _ Ha Hw ltac:(done)).
  - intros N w fileCtx s Ha _ _ _ Hw -> e Hg.
    destruct (afterRead_gen fileCtx (fs_readFile (ctx_path fileCtx))
                (set_worker w WRunning s)) as [E|[_ E]]; [|congruence].
    rewrite E in Hg. exact (Hstart w s _ Ha Hw ltac:(done) e Hg).
  - intros N w dirPath s Ha _ _ _ Hw -> e Hg.
    destruct (afterReaddir_gen dirPath (fs_readdir dirPath)
                (set_worker w WRunning s)) as [E|[_ E]]; [|congruence].
    rewrite E in Hg. exact (Hstart w s _ Ha Hw ltac:(done) e Hg).
  - intros N w s o s' HJ Hacc Hw Hit. exact (alone_iteration N w s o s' HJ Hacc Hw Hit).
  - intros N s Ha _ _ _ HN. destruct (Ha HN) as [H1 H2].
    destruct (generatorLoop_fields s) as (_ & _ & _ & _ & _ & _ & _ & He & Hws & _).
    rewrite (setError_same _ _ He), Hws. split; [done|].
    intros e. unfold generatorLoop. repeat case_match; simpl; try done.
    by intros [= <-].
Qed.

(** A run that has started: the first pull, then tasks from the state in
    which the workers have been started. *)
Lemma exec_first_pull N sched s :
  validate = Normal N -> exec sched exploreFilesAsync = Some (Started s) ->
  exists sched', sched = Next :: sched' /\
    execFrom sched' (generatorLoop (startedState N)) = Some s.
Proof.
  intros Hv Hex. destruct sched as [|l sched]; simpl in Hex; [done|].
  destruct l; try done. rewrite (prologue_started N Hv), exec_of_started in Hex.
  exists sched. split; [done|].
  destruct (execFrom sched _) as [s'|]; simpl in Hex; by simplify_eq.
Qed.

(** X12.  With [workerCount] 1 (or omitted), the sequence is reproducible: any two
    runs that have come to their end, however the pulls of the consumer and the
    completions of the [fs] calls were interleaved, have handed the same
    records to the consumer in the same order, have ended the same way
    (normally, or by throwing the same error), and have made the same calls in
    the same order. *)
Theorem single_worker_sequence_is_reproducible sched1 sched2 s1 s2 :
  (workerCount options = None \/
   exists q, workerCount options = Some (Finite q) /\ (q == 1)%Q) ->
  exec sched1 exploreFilesAsync = Some (Started s1) -> finished s1 ->
  exec sched2 exploreFilesAsync = Some (Started s2) -> finished s2 ->
  yielded s1 = yielded s2 /\ gen s1 = gen s2 /\ log s1 = log s2.
Proof.
  intros Hone Hex1 Hfin1 Hex2 Hfin2.
  assert (Hv : validate = Normal 1).
  { destruct Hone as [Hnone|(q & Hq & Heq)]; [by apply validate_default|].
    apply (validate_positive_integer q 1 Hq); [exact Heq|lia]. }
  destruct (exec_first_pull 1 sched1 s1 Hv Hex1) as (r1 & _ & Hrun1).
  destruct (exec_first_pull 1 sched2 s2 Hv Hex2) as (r2 & _ & Hrun2).
  assert (Hsame : workerSide s1 = workerSide s2).
  { apply (single_worker_same_end (generatorLoop (startedState 1)) r1 r2); done. }
  assert (Hlog : log s1 = log s2).
  { change (log (workerSide s1) = log (workerSide s2)). by rewrite Hsame. }
  assert (Herr : setError s1 = setError s2).
  { change (setError (workerSide s1) = setError (workerSide s2)). by rewrite Hsame. }
  assert (Hdn : isDone s1 = isDone s2).
  { change (isDone (workerSide s1) = isDone (workerSide s2)). by rewrite Hsame. }
  pose proof (exec_reachable sched1 s1 Hex1) as Hr1.
  pose proof (exec_reachable sched2 s2 Hex2) as Hr2.
  destruct (reachable_history s1 Hr1) as [Hf1 _ _ _].
  destruct (reachable_history s2 Hr2) as [Hf2 _ _ _].
  destruct (reachable_alone s1 Hr1 Hv eq_refl) as [_ Ht1].
  destruct (reachable_alone s2 Hr2 Hv eq_refl) as [_ Ht2].
  destruct (finished_completed s1 Hr1 Hfin1)
    as [(c1 & Hg1 & Hb1 & Hc1)|(Hg1 & Hd1 & Hb1 & v1 & Hv1 & Hfalsy1)];
    destruct (finished_completed s2 Hr2 Hfin2)
      as [(c2 & Hg2 & Hb2 & Hc2)|(Hg2 & Hd2 & Hb2 & v2 & Hv2 & Hfalsy2)];
    rewrite Hb1, app_nil_r in Hf1; rewrite Hb2, app_nil_r in Hf2;
    (split; [congruence|]); (split; [|done]); rewrite Hg1, Hg2.
  - destruct c1 as [[]|e1], c2 as [[]|e2]; try done.
    + destruct Hc1 as [_ He1]. destruct Hc2 as [[e He2] _]. congruence.
    + destruct Hc2 as [_ He2]. destruct Hc1 as [[e He1] _]. congruence.
    + specialize (Ht1 e1 Hg1). specialize (Ht2 e2 Hg2). congruence.
  - pose proof (setError_falsy s2 v2 Hv2 Hfalsy2) as He2.
    destruct c1 as [[]|e1].
    + destruct Hc1 as [Hd1 _]. congruence.
    + destruct Hc1 as [[e He1] _]. congruence.
  - pose proof (setError_falsy s1 v1 Hv1 Hfalsy1) as He1.
    destruct c2 as [[]|e2].
    + destruct Hc2 as [Hd2 _]. congruence.
    + destruct Hc2 as [[e He2] _]. congruence.
  - done.
Qed.

(* ================================================================= *)
(** ** A root that cannot be listed *)

Lemma parked_worker_has_no_task n w st :
  replicate n WParked !! w = Some st -> st = WParked.
Proof. intros H. by apply lookup_replicate in H as [-> _]. Qed.

Lemma rootFailed_first N e l s' :
  fs_readdir (rootDir options) = Throw e ->
  step l (generatorLoop (startedState N)) = Some s' -> s' = rootFailed N e GWoken.
Proof.
  intros Hfs Hstep.
  change (generatorLoop (startedState N)) with (with_gen GAwaiting (startedState N)) in Hstep.
  destruct l as [| |w|w]; simpl in Hstep; try done.
  - destruct w as [|w]; simpl in Hstep; [done|].
    destruct (replicate _ _ !! w) as [st|] eqn:Hw; [|done].
    apply parked_worker_has_no_task in Hw as ->. done.
  - destruct w as [|w]; simpl in Hstep.
    + rewrite Hfs in Hstep. by simplify_eq.
    + destruct (replicate _ _ !! w) as [st|] eqn:Hw; [|done].
      apply parked_worker_has_no_task in Hw as ->. done.
Qed.

Lemma rootFailed_second N e l s' :
  step l (rootFailed N e GWoken) = Some s' -> s' = rootFailed N e (GCompleted (Throw (VError e))).
Proof.
  intros Hstep. destruct l as [| |w|w]; simpl in Hstep; try done.
  - by simplify_eq.
  - destruct w as [|w]; simpl in Hstep; [done|].
    destruct (replicate _ _ !! w) as [st|] eqn:Hw; [|done].
    apply parked_worker_has_no_task in Hw as ->. done.
  - destruct w as [|w]; simpl in Hstep; [done|].
    destruct (replicate _ _ !! w) as [st|] eqn:Hw; [|done].
    apply parked_worker_has_no_task in Hw as ->. done.
Qed.

Lemma rootFailed_last N e : finished (rootFailed N e (GCompleted (Throw (VError e)))).
Proof.
  intros l. destruct l as [| |w|w]; simpl; try done.
  - destruct w as [|w]; simpl; [done|].
    destruct (replicate _ _ !! w) as [st|] eqn:Hw; [|done].
    apply parked_worker_has_no_task in Hw as ->. done.
  - destruct w as [|w]; simpl; [done|].
    destruct (replicate _ _ !! w) as [st|] eqn:Hw; [|done].
    apply parked_worker_has_no_task in Hw as ->. done.
Qed.

(** X13.  When [readdir(rootDir)] fails (the root does not exist, is not a
    directory, or may not be read), the run consists of at most three tasks,
    whatever [workerCount] is: the first pull, the failed listing, and the
    continuation of the pull, which throws the error of [readdir].  No
    predicate is called, nothing is read and nothing is yielded. *)
Theorem unlistable_root_fails_the_first_pull e sched s :
  fs_readdir (rootDir options) = Throw e ->
  exec sched exploreFilesAsync = Some (Started s) ->
  (length sched <= 3)%nat /\
  yielded s = [] /\ outputBuffer s = [] /\ log s = [EvReaddir (rootDir options)] /\
  (finished s -> gen s = GCompleted (Throw (VError e))) /\
  (forall r, gen s = GCompleted r -> r = Throw (VError e)).
Proof.
  intros Hfs Hex.
  destruct validate as [N|e'] eqn:Hv.
  - destruct (exec_first_pull N sched s Hv Hex) as (r & -> & Hrun).
    destruct r as [|l1 r]; simpl in Hrun.
    { simplify_eq. split; [simpl; lia|]. repeat split; try done.
      intros Hfin. specialize (Hfin (IoDone 0)). simpl in Hfin. by rewrite Hfs in Hfin. }
    destruct (step l1 _) as [s2|] eqn:H1; [|done].
    apply (rootFailed_first N e) in H1; [|done]. subst s2.
    destruct r as [|l2 r]; simpl in Hrun.
    { simplify_eq. split; [simpl; lia|]. repeat split; try done.
      intros Hfin. specialize (Hfin GenResume). done. }
    destruct (step l2 _) as [s3|] eqn:H2; [|done].
    apply rootFailed_second in H2. subst s3.
    destruct r as [|l3 r]; simpl in Hrun.
    { simplify_eq. split; [simpl; lia|]. repeat split; try done.
      intros r Hg. simpl in Hg. by simplify_eq. }
    by rewrite rootFailed_last in Hrun.
  - destruct sched as [|l sched]; simpl in Hex; [done|].
    destruct l; try done. unfold prologue in Hex. rewrite Hv in Hex.
    destruct sched; simpl in Hex; by simplify_eq.
Qed.

(* ================================================================= *)
(** *** Driving a run to its end *)

Lemma firstWorkerTask_some w0 ws l :
  firstWorkerTask w0 ws = Some l ->
  exists w st, ws !! w = Some st /\ taskOf (w0 + w) st = Some l.
Proof.
  revert w0. induction ws as [|a ws IH]; intros w0 H; simpl in H; [done|].
  destruct (taskOf w0 a) as [l'|] eqn:Ha.
  - simplify_eq. exists 0%nat, a. by rewrite Nat.add_0_r.
  - destruct (IH _ H) as (w & st & Hw & Hst). exists (S w), st.
    split; [done|]. by rewrite Nat.add_succ_r.
Qed.

Lemma firstWorkerTask_none w0 ws :
  firstWorkerTask w0 ws = None ->
  forall w st, ws !! w = Some st -> taskOf (w0 + w) st = None.
Proof.
  revert w0. induction ws as [|a ws IH]; intros w0 H w st Hw; simpl in H; [done|].
  destruct (taskOf w0 a) as [l'|] eqn:Ha; [done|].
  destruct w as [|w]; simpl in Hw.
  - simplify_eq. by rewrite Nat.add_0_r.
  - rewrite Nat.add_succ_r. by apply (IH (S w0)).
Qed.

Lemma nextTask_enabled s l : nextTask s = Some l -> is_Some (step l s).
Proof.
  unfold nextTask. intros H.
  assert (Hws : firstWorkerTask 0 (workers s) = Some l -> is_Some (step l s)).
  { intros Hf. destruct (firstWorkerTask_some _ _ _ Hf) as (w & st & Hw & Hst).
    simpl in Hst. destruct st; simplify_eq/=; rewrite Hw; eauto. }
  destruct (gen s) eqn:Hg; simplify_eq; auto; simpl; rewrite Hg; eauto.
Qed.

Lemma nextTask_none s : nextTask s = None -> finished s.
Proof.
  unfold nextTask. intros H l.
  destruct (gen s) eqn:Hg; try done;
    pose proof (firstWorkerTask_none _ _ H) as Hws;
    (destruct l as [| |w|w]; simpl; rewrite ?Hg; try done;
     destruct (workers s !! w) as [st|] eqn:Hw; try done;
     specialize (Hws w st Hw); by destruct st).
Qed.

Lemma exec_app sched rest it :
  exec (sched ++ rest) it = exec sched it ≫= exec rest.
Proof.
  revert it. induction sched as [|l sched IH]; intros it; simpl; [done|].
  destruct (istep l it); simpl; [apply IH|done].
Qed.

(** *** The traversal of a finite tree by predicates that do not throw *)

Section Traversal.

Variable children : list Tree.
Hypothesis predicates_total : nonThrowing.
Hypothesis root_tree : holdsTree (rootDir options) children.

Lemma explored_tree dirPath :
  explored dirPath ->
  exists sub, holdsTree dirPath sub /\ (treeDepth sub <= treeDepth children)%nat /\
    forall p, In p (expected dirPath sub) -> In p (expected (rootDir options) children).
Proof.
  induction 1 as [|d entries e Hd (sub & Hsub & Hdepth & Hexp) Hls Hin Hdir Hok].
  - exists children. split; [done|]. split; [lia|done].
  - pose proof Hsub as [Hls' _]. rewrite Hls' in Hls. simplify_eq.
    destruct (entry_is_directory sub e Hin Hdir) as (n & sub' & Hin' & Hn).
    rewrite Hn in *.
    exists sub'. split; [exact (holdsTree_dir d sub n sub' Hsub Hin')|].
    pose proof (treeDepth_dir sub n sub' Hin'). split; [lia|].
    intros p Hp. apply Hexp. exact (expected_dir d sub n sub' p Hin' Hok Hp).
Qed.

Lemma candidateDir_tree dirPath :
  candidateDir dirPath ->
  exists sub, holdsTree dirPath sub /\ (treeDepth sub < treeDepth children)%nat.
Proof.
  intros (d & entries & e & Hd & Hls & Hin & Hdir & ->).
  destruct (explored_tree d Hd) as (sub & Hsub & Hdepth & _).
  pose proof Hsub as [Hls' _]. rewrite Hls' in Hls. simplify_eq.
  destruct (entry_is_directory sub e Hin Hdir) as (n & sub' & Hin' & Hn).
  rewrite Hn in *.
  exists sub'. split; [exact (holdsTree_dir d sub n sub' Hsub Hin')|].
  pose proof (treeDepth_dir sub n sub' Hin'). lia.
Qed.

Lemma candidateFile_tree f :
  candidateFile f ->
  exists d sub n b, holdsTree d sub /\ In (TFile n b) sub /\
    ctx_path f = path_join d n /\ fs_readFile (ctx_path f) = Normal b /\
    forall p, In p (expected d sub) -> In p (expected (rootDir options) children).
Proof.
  intros (d & entries & e & Hd & Hls & Hin & Hdir & Hfile & Hp).
  destruct (explored_tree d Hd) as (sub & Hsub & _ & Hexp).
  pose proof Hsub as [Hls' _]. rewrite Hls' in Hls. simplify_eq.
  destruct (entry_is_file sub e Hin Hdir Hfile) as (n & b & Hin' & Hn).
  exists d, sub, n, b. rewrite Hp, Hn.
  split; [done|]. split; [done|]. split; [done|]. split; [|done].
  exact (holdsTree_file d sub n b Hsub Hin').
Qed.

(** Safety: what is yielded is selected. *)
Lemma selected_expected r :
  selected r -> In (path r) (expected (rootDir options) children).
Proof.
  destruct r as [p [b']]. intros [[[Hcand Hread] Hfs] Hy].
  destruct (candidateFile_tree _ Hcand) as (d & sub & n & b & Hsub & Hin & Hp & Hb & Hexp).
  simpl in *. rewrite Hb in Hfs. injection Hfs as <-. subst p.
  apply Hexp. exact (expected_file d sub n b Hin Hread Hy).
Qed.

(** *** The measure decreases and no error arises *)

Lemma sumWorkers_wake_potential fuel ws :
  sumWorkers (workerPotential fuel) (wake <$> ws) =
  sumWorkers (workerPotential fuel) ws + 2 * sumWorkers isParked ws.
Proof. induction ws as [|[] ws IH]; rewrite ?fmap_cons; simpl in *; lia. Qed.

Lemma sumDirs_app fuel extra ds d :
  sumDirs fuel extra (ds ++ [d]) = sumDirs fuel extra ds + (extra + weightDir fuel d).
Proof. induction ds as [|a ds IH]; simpl; lia. Qed.

Lemma sumDirs_nonneg fuel extra ds : 0 <= extra -> 0 <= sumDirs fuel extra ds.
Proof.
  intros He. induction ds as [|a ds IH]; simpl; [lia|].
  pose proof (weightDir_nonneg fuel a). lia.
Qed.

Lemma workerPotential_nonneg fuel st : 0 <= workerPotential fuel st.
Proof. destruct st; simpl; try lia. apply weightDir_nonneg. Qed.

Lemma measure_nonneg fuel s : 0 <= measure fuel s.
Proof.
  unfold measure.
  pose proof (sumDirs_nonneg fuel 0 (queueDirStat s)).
  pose proof (sumDirs_nonneg fuel 16 (queueDirCheck s)).
  pose proof (sumWorkers_nonneg (workerPotential fuel) (workers s)
                (workerPotential_nonneg fuel)).
  destruct (gen s), (isDone s); simpl; lia.
Qed.

(** The predicates do not throw. *)
Ltac no_throw :=
  repeat match goal with
  | H : shouldExploreDir options ?d = Throw _ |- _ =>
      destruct (proj1 predicates_total d) as [? ?]; congruence
  | H : shouldReadFile options ?f = Throw _ |- _ =>
      destruct (proj1 (proj2 predicates_total) f) as [? ?]; congruence
  | H : yieldPredicate ?r = Throw _ |- _ =>
      destruct (proj2 (proj2 predicates_total) r) as [? ?]; congruence
  end.

Ltac measure_sums :=
  repeat first
    [ rewrite sumWorkers_wake_potential | rewrite sumDirs_app | progress sums ].

Lemma sound_iteration N fuel w s o s' :
  Accounting N s -> N <= 8 -> Sound N s -> workers s !! w = Some WRunning ->
  iteration s = (o, s') ->
  match o with
  | OContinue => Sound N s' /\ measure fuel s' <= measure fuel s
  | _ => Sound N (settle w o s') /\ measure fuel (settle w o s') <= measure fuel s
  end.
Proof.
  intros [Hlen Hrun Hlo Hup Hdone Hzero] HN [Herr Hact Hgen] Hw Hit.
  destruct s as [qy qr qf qs qc ob aw dn er ws g yl lg].
  unfold quiescent, allQueuesEmpty, measure in *. simpl in *. subst er.
  worker_facts ws.
  pose proof (sumWorkers_lookup isRunning ws w _ isRunning_nonneg Hw) as Hone.
  simpl in Hone.
  unfold_stages; simpl in *.
  repeat case_match; simplify_eq/=; no_throw; idle_condition;
    (split; [constructor; simpl|unfold measure; simpl]);
    try done; measure_sums; try lia;
    try (intros Hd; specialize (Hgen Hd); done);
    try (destruct (Hdone eq_refl) as (_ & _ & _ & ?); lia);
    try (by destruct (Hgen eq_refl));
    try (match goal with
         | |- context [weightDir ?f ?d] => pose proof (weightDir_nonneg f d)
         end; lia).
Qed.

Lemma parked_bound N s :
  Accounting N s -> N <= 8 -> sumWorkers isParked (workers s) <= 8.
Proof.
  intros [Hlen Hrun Hlo Hup Hdone Hzero] HN. worker_facts (workers s). lia.
Qed.

Lemma sound_notifyWorkers N fuel s :
  sumWorkers isParked (workers s) <= 8 -> Sound N s ->
  Sound N (notifyWorkers s) /\ measure fuel (notifyWorkers s) <= measure fuel s + 16.
Proof.
  intros Hp [Herr Hact Hgen].
  destruct s as [qy qr qf qs qc ob aw dn er ws g yl lg].
  unfold measure. simpl in *. worker_facts ws.
  split; [constructor; simpl; try done; sums; lia|].
  measure_sums. lia.
Qed.

Lemma sound_afterRead N fuel fileCtx b s :
  sumWorkers isParked (workers s) <= 8 -> Sound N s ->
  Sound N (afterRead fileCtx (Normal b) s) /\
  measure fuel (afterRead fileCtx (Normal b) s) <= measure fuel s + 18.
Proof.
  intros Hp Hs. unfold afterRead.
  set (s1 := with_queueYieldCheck _ s).
  assert (Hs1 : Sound N s1) by (destruct Hs; by constructor).
  assert (Hm : measure fuel s1 = measure fuel s + 2).
  { unfold measure, s1. simpl. rewrite length_app. simpl. lia. }
  destruct (sound_notifyWorkers N fuel s1 Hp Hs1). split; [done|lia].
Qed.

Lemma measure_sortEntries fuel dirPath sub :
  (forall n sub', In (TDir n sub') sub ->
     weightDir fuel (path_join dirPath n) = treeWeight sub') ->
  forall s,
    measure fuel (fold_left (sortEntry dirPath) (map entryOf sub) s) =
    measure fuel s + foldr (fun c acc => nodeWeight c + acc) 0 sub.
Proof.
  induction sub as [|c cs IH]; intros Hw s; simpl; [lia|].
  rewrite IH by (intros n sub' Hin; apply Hw; by right).
  assert (measure fuel (sortEntry dirPath s (entryOf c)) = measure fuel s + nodeWeight c)
    as ->; [|lia].
  destruct c as [n b|n sub'|n]; unfold sortEntry, measure; simpl.
  - rewrite length_app. simpl. lia.
  - rewrite sumDirs_app, (Hw n sub') by (by left). unfold treeWeight. lia.
  - lia.
Qed.

Lemma sound_same N s s' :
  Sound N s -> error s' = error s -> activeWorkers s' = activeWorkers s ->
  workers s' = workers s -> isDone s' = isDone s -> gen s' = gen s -> Sound N s'.
Proof.
  intros [Herr Hact Hgen] H1 H2 H3 H4 H5.
  constructor; rewrite ?H1, ?H2, ?H3, ?H4, ?H5; done.
Qed.

Lemma sound_afterReaddir N fuel dirPath sub s :
  holdsTree dirPath sub -> (treeDepth sub < fuel)%nat ->
  sumWorkers isParked (workers s) <= 8 -> Sound N s ->
  let s' := afterReaddir dirPath (Normal (map entryOf sub)) s in
  Sound N s' /\ measure fuel s' <= measure fuel s + weightDir fuel dirPath - 1.
Proof.
  intros Hsub Hdepth Hp Hs. simpl.
  rewrite (weightDir_tree sub fuel dirPath Hsub Hdepth). unfold treeWeight.
  unfold afterReaddir.
  destruct (sortEntries_fields dirPath (map entryOf sub) s)
    as (_ & _ & _ & _ & Ha & Hd & He & Hws & Hg & _).
  set (s1 := fold_left (sortEntry dirPath) (map entryOf sub) s) in *.
  assert (Hs1 : Sound N s1) by (by eapply sound_same).
  assert (Hm : measure fuel s1 =
               measure fuel s + foldr (fun c acc => nodeWeight c + acc) 0 sub).
  { apply measure_sortEntries. intros n sub' Hin. apply weightDir_tree.
    - exact (holdsTree_dir dirPath sub n sub' Hsub Hin).
    - pose proof (treeDepth_dir sub n sub' Hin). lia. }
  case_match.
  - destruct (sound_notifyWorkers N fuel s1) as [? ?]; [by rewrite Hws|done|].
    split; [done|lia].
  - split; [done|lia].
Qed.

Lemma sound_resume N fuel w s :
  Sound N s -> workers s !! w = Some WWoken ->
  let s' := with_activeWorkers (activeWorkers s + 1) (set_worker w WRunning s) in
  Sound N s' /\ measure fuel s' = measure fuel s - 2 /\
  sumWorkers isParked (workers s') = sumWorkers isParked (workers s).
Proof.
  intros [Herr Hact Hgen] Hw.
  destruct s as [qy qr qf qs qc ob aw dn er ws g yl lg].
  unfold measure. simpl in *.
  split; [constructor; simpl; try done; sums; lia|].
  split; sums; lia.
Qed.

Lemma sound_io N fuel w st s :
  Sound N s -> workers s !! w = Some st -> isAwaitingIo st = 1 ->
  let s' := set_worker w WRunning s in
  Sound N s' /\ measure fuel s' = measure fuel s - workerPotential fuel st /\
  sumWorkers isParked (workers s') = sumWorkers isParked (workers s).
Proof.
  intros [Herr Hact Hgen] Hw Hio.
  destruct s as [qy qr qf qs qc ob aw dn er ws g yl lg].
  unfold measure. simpl in *.
  destruct st; simplify_eq/=;
    (split; [constructor; simpl; try done; sums; lia|]); split; sums; lia.
Qed.

Lemma sound_generatorLoop N fuel s :
  Sound N s -> gen s = GSuspendedYield \/ gen s = GWoken ->
  let s' := generatorLoop s in
  Sound N s' /\ measure fuel s' < measure fuel s /\ genSettled (gen s') /\
  (gen s' = GCompleted (Normal ()) -> isDone s' = true /\ outputBuffer s' = []).
Proof.
  intros [Herr Hact Hgen] Hg.
  destruct s as [qy qr qf qs qc ob aw dn er ws g yl lg].
  unfold measure, generatorLoop. simpl in *. subst er.
  destruct ob as [|r rest], dn; destruct Hg as [-> | ->]; simpl;
    (split; [constructor; simpl; done|]); (split; [lia|]); (split; [done|]); done.
Qed.

Lemma resume_when_done N w s :
  Accounting N s -> quiescent s -> isDone s = true ->
  let s' := runWorker w (with_activeWorkers (activeWorkers s + 1) (set_worker w WRunning s)) in
  isDone s' = true /\ outputBuffer s' = outputBuffer s.
Proof.
  intros [_ _ _ _ Hdone _] Hq Hd. destruct (Hdone Hd) as (Hempty & Ha & He & _).
  destruct s as [qy qr qf qs qc ob aw dn er ws g yl lg].
  unfold allQueuesEmpty, quiescent in *. simpl in *.
  destruct qy, qr, qf, qs, qc; try done. rewrite Hq in Ha. subst.
  unfold setError in He. simpl in He.
  unfold runWorker, syncWork. simpl. unfold iteration, setError. simpl. rewrite He.
  unfold stageIdle. simpl. unfold notifyGenerator. simpl. by destruct g.
Qed.

Lemma genSettled_kept s s' :
  genKeptOrWoken s s' -> genSettled (gen s) -> genSettled (gen s').
Proof. intros [->|[_ ->]]; done. Qed.

Lemma sound_runWorker N fuel w s :
  Accounting N s -> N <= 8 -> Sound N s -> workers s !! w = Some WRunning ->
  Sound N (runWorker w s) /\ measure fuel (runWorker w s) <= measure fuel s.
Proof.
  intros Hacc HN Hs Hw.
  apply (runWorker_rule
           (fun s1 => Accounting N s1 /\ Sound N s1 /\ workers s1 !! w = Some WRunning /\
                      measure fuel s1 <= measure fuel s)
           (fun s1 => Sound N s1 /\ measure fuel s1 <= measure fuel s)); [|by auto with lia].
  intros s0 o s' (Ha & Hs0 & Hl & Hm) Hit.
  pose proof (accounting_iteration N w s0 o s' Ha Hl Hit) as H1.
  pose proof (sound_iteration N fuel w s0 o s' Ha HN Hs0 Hl Hit) as H2.
  destruct o; destruct H1, H2; (split; [done|]); try lia.
  split; [done|]. split; [done|lia].
Qed.

Lemma steady_step N l s s' :
  Steady N s -> step l s = Some s' ->
  Steady N s' /\
  measure (S (treeDepth children)) s' < measure (S (treeDepth children)) s.
Proof.
  intros [Hacc Hq Hs Ho Hg HN Hlen Hcompl] Hstep.
  assert (Hlen2 : N <= Z.of_nat (length (workers s)) <= N) by lia. clear Hlen.
  destruct (accounting_step N l s s' Hacc Hq Hstep) as [Hacc' Hq'].
  pose proof (origins_step l s s' Ho Hstep) as Ho'.
  pose proof (step_length l s s' Hstep) as Hlen'.
  set (fuel := S (treeDepth children)).
  assert (Sound N s' /\ measure fuel s' < measure fuel s /\ genSettled (gen s') /\
          (gen s' = GCompleted (Normal ()) -> isDone s' = true /\ outputBuffer s' = []))
    as (Hs' & Hm & Hg' & Hc'); [|split; [constructor; try done; lia|done]].
  assert (Hfuel : (treeDepth children < fuel)%nat) by (unfold fuel; lia).
  clearbody fuel.
  pose proof (parked_bound N s Hacc HN) as Hpark.
  destruct l as [| |w|w]; simpl in Hstep.
  - destruct (gen s) eqn:Hgs; simplify_eq. apply sound_generatorLoop; auto.
  - destruct (gen s) eqn:Hgs; simplify_eq. apply sound_generatorLoop; auto.
  - destruct (workers s !! w) as [[]|] eqn:Hw; simplify_eq.
    destruct (accounting_resume N w s Hacc Hq Hw) as [Ha1 Hw1].
    destruct (sound_resume N fuel w s Hs Hw) as (Hs1 & Hm1 & _).
    destruct (sound_runWorker N fuel w _ Ha1 HN Hs1 Hw1) as [Hs2 Hm2].
    pose proof (runWorker_gen w (with_activeWorkers (activeWorkers s + 1)
                                   (set_worker w WRunning s))) as Hk.
    split; [done|]. split; [lia|]. split; [exact (genSettled_kept _ _ Hk Hg)|].
    intros Hc. assert (gen s = GCompleted (Normal ())) as Hcs.
    { destruct Hk as [E|[_ E]]; [rewrite E in Hc; exact Hc|congruence]. }
    destruct (Hcompl Hcs) as [Hd Hb].
    destruct (resume_when_done N w s Hacc Hq Hd) as [? ?]. split; congruence.
  - destruct (workers s !! w) as [[| fileCtx | dirPath | | |]|] eqn:Hw; simplify_eq.
    + destruct (accounting_io N w _ s Hacc Hq Hw eq_refl) as (Ha1 & Hw1 & Hd1).
      destruct (sound_io N fuel w _ s Hs Hw eq_refl) as (Hs1 & Hm1 & Hp1).
      pose proof (origins_lookup w _ s Ho Hw) as [Hcand _].
      destruct (candidateFile_tree _ Hcand) as (_ & _ & _ & b & _ & _ & _ & Hb & _).
      rewrite Hb.
      destruct (accounting_afterRead N w fileCtx (Normal b) _ Ha1 Hd1 Hw1) as [Ha2 Hw2].
      destruct (sound_afterRead N fuel fileCtx b (set_worker w WRunning s))
        as [Hs2 Hm2]; [lia|done|].
      destruct (sound_runWorker N fuel w _ Ha2 HN Hs2 Hw2) as [Hs3 Hm3].
      pose proof (genKeptOrWoken_trans _ _ _
                    (afterRead_gen fileCtx (Normal b) (set_worker w WRunning s))
                    (runWorker_gen w _)) as Hk.
      split; [done|]. simpl in Hm1. split; [lia|].
      split; [exact (genSettled_kept _ _ Hk Hg)|].
      intros Hc. assert (gen s = GCompleted (Normal ())) as Hcs.
      { destruct Hk as [E|[_ E]]; [rewrite E in Hc; exact Hc|congruence]. }
      destruct (Hcompl Hcs) as [Hd _]. simpl in Hd1. congruence.
    + destruct (accounting_io N w _ s Hacc Hq Hw eq_refl) as (Ha1 & Hw1 & Hd1).
      destruct (sound_io N fuel w _ s Hs Hw eq_refl) as (Hs1 & Hm1 & Hp1).
      pose proof (origins_lookup w _ s Ho Hw) as Hexp. simpl in Hexp.
      destruct (explored_tree dirPath Hexp) as (sub & Hsub & Hdepth & _).
      pose proof Hsub as [Hls _]. rewrite Hls.
      destruct (accounting_afterReaddir N w dirPath (Normal (map entryOf sub)) _
                  Ha1 Hd1 Hw1) as [Ha2 Hw2].
      destruct (sound_afterReaddir N fuel dirPath sub (set_worker w WRunning s))
        as [Hs2 Hm2]; [done|lia|lia|done|].
      destruct (sound_runWorker N fuel w _ Ha2 HN Hs2 Hw2) as [Hs3 Hm3].
      pose proof (genKeptOrWoken_trans _ _ _
                    (afterReaddir_gen dirPath (Normal (map entryOf sub))
                       (set_worker w WRunning s))
                    (runWorker_gen w _)) as Hk.
      split; [done|]. cbn [workerPotential] in Hm1. split; [lia|].
      split; [exact (genSettled_kept _ _ Hk Hg)|].
      intros Hc. assert (gen s = GCompleted (Normal ())) as Hcs.
      { destruct Hk as [E|[_ E]]; [rewrite E in Hc; exact Hc|congruence]. }
      destruct (Hcompl Hcs) as [Hd _]. simpl in Hd1. congruence.
Qed.

(** *** Coverage *)

Lemma Exists_cons_iff {A} (P : A -> Prop) x l : Exists P (x :: l) <-> P x \/ Exists P l.
Proof. split; [apply Exists_inv|]. intros [H|H]; [by left|by right]. Qed.

Lemma Exists_nil_iff {A} (P : A -> Prop) : Exists P [] <-> False.
Proof. split; [by inversion 1|done]. Qed.

Lemma Exists_snoc_iff {A} (P : A -> Prop) l x : Exists P (l ++ [x]) <-> Exists P l \/ P x.
Proof. rewrite Exists_app, Exists_cons_iff, Exists_nil_iff. tauto. Qed.

Lemma Exists_insert_worker (P : WorkerState -> Prop) ws w old new :
  ws !! w = Some old -> ~ P old ->
  P new \/ Exists P ws -> Exists P (<[w := new]> ws).
Proof.
  intros Hw Hold [Hnew|Hex].
  - apply Exists_exists. exists new. split; [|done].
    apply list_elem_of_lookup. exists w. apply list_lookup_insert_eq.
    by eapply lookup_lt_Some.
  - apply Exists_exists in Hex as (st & Hin & Hst).
    apply list_elem_of_lookup in Hin as [i Hi].
    destruct (decide (i = w)) as [->|Hne]; [congruence|].
    apply Exists_exists. exists st. split; [|done].
    apply list_elem_of_lookup. exists i. by rewrite list_lookup_insert_ne.
Qed.

Lemma Exists_wake p ws :
  Exists (workerCovers p) (wake <$> ws) <-> Exists (workerCovers p) ws.
Proof.
  rewrite Exists_fmap. split; intros H; (eapply Exists_impl; [exact H|]); by intros [].
Qed.

(** Replaces the coverage by the workers, after the running worker has
    settled, by what it follows from. *)
Ltac cover_worker :=
  repeat match goal with
  | Hw : ?ws !! ?w = Some WRunning
    |- context [Exists (workerCovers ?p) (<[?w := ?st]> ?l)] =>
      let H := fresh "Hcover" in
      assert (H : workerCovers p st \/ Exists (workerCovers p) ws ->
                  Exists (workerCovers p) (<[w := st]> l));
      [ let HH := fresh in
        intros HH; apply (Exists_insert_worker _ _ _ WRunning);
        [ first [exact Hw | by apply lookup_wake_running]
        | simpl; tauto
        | rewrite ?Exists_wake; exact HH ]
      | revert H; generalize (Exists (workerCovers p) (<[w := st]> l)); intros ? H ]
  end.

Lemma covered_iteration p w s o s' :
  covered s p -> workers s !! w = Some WRunning -> error s = None ->
  iteration s = (o, s') ->
  match o with
  | OContinue => covered s' p
  | _ => covered (settle w o s') p
  end.
Proof.
  intros Hc Hw He Hit.
  destruct s as [qy qr qf qs qc ob aw dn er ws g yl lg].
  unfold covered in *. simpl in *. subst er.
  unfold_stages; simpl in *.
  repeat case_match; simplify_eq/=; no_throw;
    rewrite ?Exists_cons_iff, ?Exists_snoc_iff, ?Exists_nil_iff, ?Exists_wake in *;
    cover_worker; simpl in *;
    unfold coversYielded, coversYieldCheck, coversRead, coversFileCheck, coversDirStat,
      coversDirCheck, fileYields in *; simpl in *;
    try tauto;
    try (intuition (subst; rewrite ?ctx_path_eta in *; congruence)).
Qed.

Lemma covered_runWorker N p w s :
  Accounting N s -> N <= 8 -> Sound N s -> workers s !! w = Some WRunning ->
  covered s p -> covered (runWorker w s) p.
Proof.
  intros Hacc HN Hs Hw Hc.
  apply (runWorker_rule
           (fun s1 => Accounting N s1 /\ Sound N s1 /\ workers s1 !! w = Some WRunning /\
                      covered s1 p)
           (fun s1 => covered s1 p)); [|done].
  intros s0 o s' (Ha & Hs0 & Hl & Hc0) Hit.
  pose proof (accounting_iteration N w s0 o s' Ha Hl Hit) as H1.
  pose proof (sound_iteration N 0 w s0 o s' Ha HN Hs0 Hl Hit) as H2.
  pose proof (covered_iteration p w s0 o s' Hc0 Hl (snd_error _ _ Hs0) Hit) as H3.
  destruct o; try done. destruct H1, H2. done.
Qed.

Lemma covered_release p w old s :
  workers s !! w = Some old -> covered s p ->
  workerCovers p old \/ covered (set_worker w WRunning s) p.
Proof.
  intros Hw Hc. unfold covered in *. simpl.
  destruct Hc as [H|[H|[H|[H|[H|[H|[H|H]]]]]]]; try tauto.
  apply Exists_exists in H as (st & Hin & Hst).
  apply list_elem_of_lookup in Hin as [i Hi].
  destruct (decide (i = w)) as [->|Hne]; [left; congruence|].
  right. do 7 right. apply Exists_exists. exists st. split; [|done].
  apply list_elem_of_lookup. exists i. by rewrite list_lookup_insert_ne.
Qed.

Lemma covered_notifyWorkers p s : covered s p -> covered (notifyWorkers s) p.
Proof. unfold covered. simpl. rewrite Exists_wake. tauto. Qed.

Lemma covered_afterRead p fileCtx b s :
  fs_readFile (ctx_path fileCtx) = Normal b ->
  coversRead p fileCtx \/ covered s p ->
  covered (afterRead fileCtx (Normal b) s) p.
Proof.
  intros Hb Hc. unfold afterRead. apply covered_notifyWorkers.
  unfold covered in *. simpl. rewrite Exists_snoc_iff.
  destruct Hc as [[Hp (b' & Hb' & Hy)]|Hc]; [|tauto].
  do 2 right. left. right. unfold coversYieldCheck. simpl.
  split; [done|]. subst p. rewrite Hb in Hb'. by simplify_eq.
Qed.

Lemma sortEntries_keeps dirPath entries s :
  let s' := fold_left (sortEntry dirPath) entries s in
  (forall d, In d (queueDirCheck s) -> In d (queueDirCheck s')) /\
  (forall f, In f (queueFileCheck s) -> In f (queueFileCheck s')).
Proof.
  revert s. induction entries as [|e es IH]; intros s; simpl; [done|].
  destruct (IH (sortEntry dirPath s e)) as [IH1 IH2].
  split; intros x Hx; [apply IH1|apply IH2]; unfold sortEntry;
    repeat case_match; simpl; rewrite ?in_app_iff; auto.
Qed.

Lemma sortEntries_adds dirPath entries s e :
  In e entries ->
  let s' := fold_left (sortEntry dirPath) entries s in
  (isDirectory e = true -> In (path_join dirPath (name e)) (queueDirCheck s')) /\
  (isDirectory e = false -> isFile e = true ->
   In {| ctx_path := path_join dirPath (name e) |} (queueFileCheck s')).
Proof.
  revert s. induction entries as [|e' es IH]; intros s; simpl; [done|].
  intros [->|Hin]; [|by apply IH].
  destruct (sortEntries_keeps dirPath es (sortEntry dirPath s e)) as [K1 K2].
  split.
  - intros Hd. apply K1. unfold sortEntry. rewrite Hd. simpl.
    rewrite in_app_iff. right. by left.
  - intros Hd Hf. apply K2. unfold sortEntry. rewrite Hd, Hf. simpl.
    rewrite in_app_iff. right. by left.
Qed.

Lemma Exists_In {A} (P : A -> Prop) l x : In x l -> P x -> Exists P l.
Proof. intros Hin Hx. apply Exists_exists. exists x. by rewrite list_elem_of_In. Qed.

Lemma Exists_incl {A} (P : A -> Prop) l l' :
  (forall x, In x l -> In x l') -> Exists P l -> Exists P l'.
Proof.
  intros Hsub H. apply Exists_exists in H as (x & Hin & Hx).
  apply (Exists_In P l' x); [|done]. apply Hsub. by apply list_elem_of_In.
Qed.

Lemma covered_afterReaddir p dirPath entries s :
  fs_readdir dirPath = Normal entries ->
  coversDirStat p dirPath \/ covered s p ->
  covered (afterReaddir dirPath (Normal entries) s) p.
Proof.
  intros Hls Hc. unfold afterReaddir.
  assert (covered (fold_left (sortEntry dirPath) entries s) p) as Hc';
    [|case_match; [by apply covered_notifyWorkers|done]].
  destruct (sortEntries_fields dirPath entries s)
    as (E1 & E2 & E3 & E4 & _ & _ & _ & E8 & _ & E10 & _).
  destruct (sortEntries_keeps dirPath entries s) as [K1 K2].
  unfold covered. rewrite E1, E2, E3, E4, E8, E10.
  destruct Hc as [(sub & Hsub & Hp)|Hc].
  - pose proof Hsub as [Hls' _]. rewrite Hls' in Hls. simplify_eq.
    destruct (expected_inv dirPath sub p Hp)
      as [(n & b & Hin & -> & Hr & Hy)|(n & sub' & Hin & Hok & Hp')].
    + do 4 right. left.
      apply (Exists_In _ _ {| ctx_path := path_join dirPath n |}).
      * apply (sortEntries_adds dirPath (map entryOf sub) s (entryOf (TFile n b)));
          [by apply in_map|done|done].
      * split; [done|]. split; [done|]. exists b. split; [|done].
        exact (holdsTree_file dirPath sub n b Hsub Hin).
    + do 6 right. left.
      apply (Exists_In _ _ (path_join dirPath n)).
      * apply (sortEntries_adds dirPath (map entryOf sub) s (entryOf (TDir n sub')));
          [by apply in_map|done].
      * split; [done|]. exists sub'. split; [|done].
        exact (holdsTree_dir dirPath sub n sub' Hsub Hin).
  - unfold covered in Hc.
    destruct Hc as [H|[H|[H|[H|[H|[H|[H|H]]]]]]]; try tauto.
    + do 4 right. left. by eapply Exists_incl.
    + do 6 right. left. by eapply Exists_incl.
Qed.

Lemma covered_generatorLoop p s : covered s p -> covered (generatorLoop s) p.
Proof.
  unfold covered, generatorLoop.
  destruct s as [qy qr qf qs qc ob aw dn er ws g yl lg]. simpl.
  repeat case_match; simpl; rewrite ?Exists_snoc_iff, ?Exists_cons_iff; tauto.
Qed.

Lemma covered_step N p l s s' :
  Steady N s -> covered s p -> step l s = Some s' -> covered s' p.
Proof.
  intros [Hacc Hq Hs Ho Hg HN _ Hcompl] Hc Hstep.
  destruct l as [| |w|w]; simpl in Hstep.
  - destruct (gen s); simplify_eq. by apply covered_generatorLoop.
  - destruct (gen s); simplify_eq. by apply covered_generatorLoop.
  - destruct (workers s !! w) as [[]|] eqn:Hw; simplify_eq.
    destruct (accounting_resume N w s Hacc Hq Hw) as [Ha1 Hw1].
    destruct (sound_resume N 0 w s Hs Hw) as (Hs1 & _).
    apply (covered_runWorker N); try done.
    destruct (covered_release p w _ s Hw Hc) as [[]|H]. exact H.
  - destruct (workers s !! w) as [[| fileCtx | dirPath | | |]|] eqn:Hw; simplify_eq.
    + destruct (accounting_io N w _ s Hacc Hq Hw eq_refl) as (Ha1 & Hw1 & Hd1).
      destruct (sound_io N 0 w _ s Hs Hw eq_refl) as (Hs1 & _ & Hp1).
      pose proof (origins_lookup w _ s Ho Hw) as [Hcand _].
      destruct (candidateFile_tree _ Hcand) as (_ & _ & _ & b & _ & _ & _ & Hb & _).
      rewrite Hb.
      destruct (accounting_afterRead N w fileCtx (Normal b) _ Ha1 Hd1 Hw1) as [Ha2 Hw2].
      pose proof (parked_bound N s Hacc HN) as Hpark.
      destruct (sound_afterRead N 0 fileCtx b (set_worker w WRunning s))
        as [Hs2 _]; [lia|done|].
      apply (covered_runWorker N); try done.
      apply covered_afterRead; [done|]. exact (covered_release p w _ s Hw Hc).
    + destruct (accounting_io N w _ s Hacc Hq Hw eq_refl) as (Ha1 & Hw1 & Hd1).
      destruct (sound_io N 0 w _ s Hs Hw eq_refl) as (Hs1 & _ & Hp1).
      pose proof (origins_lookup w _ s Ho Hw) as Hexp. simpl in Hexp.
      destruct (explored_tree dirPath Hexp) as (sub & Hsub & Hdepth & _).
      pose proof Hsub as [Hls _]. rewrite Hls.
      destruct (accounting_afterReaddir N w dirPath (Normal (map entryOf sub)) _
                  Ha1 Hd1 Hw1) as [Ha2 Hw2].
      pose proof (parked_bound N s Hacc HN) as Hpark.
      destruct (sound_afterReaddir N (S (treeDepth sub)) dirPath sub
                  (set_worker w WRunning s)) as [Hs2 _]; [done|lia|lia|done|].
      apply (covered_runWorker N); try done.
      apply covered_afterReaddir; [done|]. exact (covered_release p w _ s Hw Hc).
Qed.

(** *** From the first pull to the end of the sequence *)

Lemma sumWorkers_replicate f n st : sumWorkers f (replicate n st) = Z.of_nat n * f st.
Proof. induction n as [|n IH]; simpl; [lia|]. rewrite IH. lia. Qed.

Lemma steady_first N :
  validate = Normal N ->
  let s := generatorLoop (startedState N) in
  Steady N s /\
  measure (S (treeDepth children)) s = treeWeight children + 17 /\
  forall p, In p (expected (rootDir options) children) -> covered s p.
Proof.
  intros Hv. destruct (validate_accepts N Hv) as [[HN1 HN8] _].
  pose proof (prologue_started N Hv) as Hp.
  destruct (accounting_prologue _ Hp) as (N' & Hv' & Hacc & Hq & Hlen).
  assert (N' = N) as -> by congruence.
  destruct (accounting_generatorLoop _ _ Hacc Hq) as [Hacc' Hq'].
  pose proof (origins_generatorLoop _ (origins_prologue _ Hp)) as Ho.
  assert (Hgl : generatorLoop (startedState N) = with_gen GAwaiting (startedState N))
    by done.
  rewrite Hgl in *.
  split; [|split].
  - constructor; [exact Hacc'|exact Hq'| |exact Ho|done|exact HN8| |done].
    + constructor; simpl; try done.
      rewrite !sumWorkers_replicate, length_replicate. simpl. lia.
    + simpl. rewrite length_replicate. lia.
  - pose proof (weightDir_tree children (S (treeDepth children)) _ root_tree
                  (Nat.lt_succ_diag_r _)) as Hw.
    revert Hw. generalize (S (treeDepth children)). intros fuel Hw.
    unfold measure. simpl. rewrite sumWorkers_replicate, Hw. simpl. lia.
  - intros p Hp'. unfold covered. simpl. do 7 right. apply Exists_cons_iff. left.
    exists children. done.
Qed.

Lemma execFrom_steady N sched :
  forall s s',
    Steady N s -> (forall p, In p (expected (rootDir options) children) -> covered s p) ->
    execFrom sched s = Some s' ->
    Steady N s' /\
    (forall p, In p (expected (rootDir options) children) -> covered s' p) /\
    Z.of_nat (length sched) + measure (S (treeDepth children)) s'
      <= measure (S (treeDepth children)) s.
Proof.
  induction sched as [|l sched IH]; intros s s' Hs Hc Hrun; simpl in Hrun.
  - simplify_eq. split; [done|]. split; [done|]. simpl. lia.
  - destruct (step l s) as [s1|] eqn:Hstep; [|done].
    destruct (steady_step N l s s1 Hs Hstep) as [Hs1 Hm1].
    destruct (IH s1 s' Hs1) as (Hs' & Hc' & Hm'); [|done|].
    + intros p Hp. exact (covered_step N p l s s1 Hs (Hc p Hp) Hstep).
    + split; [done|]. split; [done|]. cbn [length]. lia.
Qed.

Lemma exec_started sched s : exec sched (Started s) = Started <$> execFrom sched s.
Proof.
  revert s. induction sched as [|l sched IH]; intros s; simpl; [done|].
  destruct (step l s) as [s1|]; simpl; [apply IH|done].
Qed.

Lemma exec_steady N sched s :
  validate = Normal N -> exec sched exploreFilesAsync = Some (Started s) ->
  Steady N s /\
  (forall p, In p (expected (rootDir options) children) -> covered s p) /\
  Z.of_nat (length sched) + measure (S (treeDepth children)) s <= treeWeight children + 18.
Proof.
  intros Hv. destruct sched as [|l sched]; simpl; [done|].
  destruct l; try done. rewrite (prologue_started N Hv). rewrite exec_started.
  destruct (execFrom sched (generatorLoop (startedState N))) as [s'|] eqn:Hrun; [|done].
  simpl. intros [= ->].
  destruct (steady_first N Hv) as (Hs0 & Hm0 & Hc0).
  destruct (execFrom_steady N sched _ s Hs0 Hc0 Hrun) as (Hs & Hc & Hm).
  split; [done|]. split; [done|].
  rewrite Hm0 in Hm. rewrite Nat2Z.inj_succ. lia.
Qed.

Lemma runs_are_bounded sched it :
  exec sched exploreFilesAsync = Some it -> (length sched <= runBound children)%nat.
Proof.
  unfold runBound. intros Hex.
  assert (Hw : 17 <= treeWeight children).
  { unfold treeWeight. clear. induction children as [|c cs IH]; simpl; [lia|].
    assert (0 <= nodeWeight c); [|lia].
    induction c as [n b|n sub IHc|n] using Tree_forall_ind; simpl; try lia.
    assert (0 <= foldr (fun c acc => nodeWeight c + acc) 0 sub); [|lia].
    clear IH. induction sub as [|c' cs' IH']; simpl; [lia|].
    apply Forall_cons in IHc as [? ?]. specialize (IH' H0). lia. }
  destruct validate as [N|e] eqn:Hv.
  - destruct it as [|s|e].
    + destruct sched as [|l sched]; simpl in *; [lia|].
      destruct l; try done. rewrite (prologue_started N Hv), exec_started in Hex.
      by destruct (execFrom _ _).
    + destruct (exec_steady N sched s Hv Hex) as (_ & _ & Hm).
      pose proof (measure_nonneg (S (treeDepth children)) s). lia.
    + destruct sched as [|l sched]; simpl in *; [lia|].
      destruct l; try done. rewrite (prologue_started N Hv), exec_started in Hex.
      by destruct (execFrom _ _).
  - destruct sched as [|l sched]; simpl in *; [lia|].
    destruct l; try done. unfold prologue in Hex. rewrite Hv in Hex.
    destruct sched as [|l' sched]; simpl in *; [lia|done].
Qed.

Lemma sumWorkers_pos_lookup f ws :
  (forall st, 0 <= f st) -> 0 < sumWorkers f ws ->
  exists w st, ws !! w = Some st /\ 0 < f st.
Proof.
  intros Hf. induction ws as [|a ws IH]; simpl; [lia|]. intros Hpos.
  destruct (decide (0 < f a)) as [Ha|Ha].
  - exists 0%nat, a. done.
  - destruct IH as (w & st & Hw & Hst); [specialize (Hf a); lia|].
    exists (S w), st. done.
Qed.

(** Progress: as long as the sequence has not ended, some task can run. *)
Lemma steady_progress N s :
  Steady N s -> (forall l, step l s = None) -> gen s = GCompleted (Normal ()).
Proof.
  intros [Hacc Hq Hs Ho Hg HN Hlen Hcompl] Hstuck.
  destruct (gen s) as [| | | |[[]|e]] eqn:Hgen; try done.
  - specialize (Hstuck Next). simpl in Hstuck. by rewrite Hgen in Hstuck.
  - destruct Hacc as [_ _ _ _ _ Hzero]. destruct Hs as [_ Hact Hgn].
    unfold quiescent in Hq.
    assert (isDone s = false) as Hnd.
    { destruct (isDone s); [|done]. by destruct (Hgn eq_refl). }
    assert (0 < sumWorkers isAwaitingIo (workers s)) as Hio.
    { pose proof (sumWorkers_nonneg isAwaitingIo (workers s) isAwaitingIo_nonneg).
      destruct (decide (activeWorkers s = 0)) as [Hz|Hz]; [|lia].
      specialize (Hzero Hz). congruence. }
    destruct (sumWorkers_pos_lookup _ _ isAwaitingIo_nonneg Hio) as (w & st & Hw & Hst).
    specialize (Hstuck (IoDone w)). simpl in Hstuck. rewrite Hw in Hstuck.
    destruct st; simpl in Hst; try lia; done.
  - specialize (Hstuck GenResume). simpl in Hstuck. by rewrite Hgen in Hstuck.
Qed.

Lemma no_io_no_cover p ws :
  sumWorkers isAwaitingIo ws = 0 -> ~ Exists (workerCovers p) ws.
Proof.
  intros Hz Hex. apply Exists_exists in Hex as (st & Hin & Hst).
  apply list_elem_of_lookup in Hin as [w Hw].
  pose proof (sumWorkers_lookup isAwaitingIo ws w st isAwaitingIo_nonneg Hw).
  destruct st; simpl in *; try done; lia.
Qed.

Lemma completed_yielded N s :
  Steady N s -> (forall p, In p (expected (rootDir options) children) -> covered s p) ->
  gen s = GCompleted (Normal ()) ->
  forall p, In p (map path (yielded s)) <-> In p (expected (rootDir options) children).
Proof.
  intros [Hacc Hq Hs Ho Hg HN Hlen Hcompl] Hc Hgen p. split.
  - intros Hin. apply in_map_iff in Hin as (r & <- & Hr).
    destruct Ho as [_ _ _ _ _ _ Hy _ _]. rewrite Forall_forall in Hy.
    apply selected_expected, Hy. by apply list_elem_of_In.
  - intros Hp. specialize (Hc p Hp). destruct (Hcompl Hgen) as [Hd Hb].
    destruct Hacc as [_ _ Hlo _ Hdone _]. destruct (Hdone Hd) as (Hempty & Ha & _).
    unfold quiescent in Hq.
    pose proof (sumWorkers_nonneg isAwaitingIo (workers s) isAwaitingIo_nonneg).
    assert (sumWorkers isAwaitingIo (workers s) = 0) as Hio by lia.
    unfold covered in Hc. unfold allQueuesEmpty in Hempty. rewrite Hb in Hc.
    destruct (queueYieldCheck s), (queueRead s), (queueFileCheck s),
      (queueDirStat s), (queueDirCheck s); try done.
    rewrite !Exists_nil_iff in Hc.
    destruct Hc as [H'|[[]|[[]|[[]|[[]|[[]|[[]|H']]]]]]];
      [|by apply no_io_no_cover in H'].
    apply Exists_exists in H' as (r & Hin & Hr). apply in_map_iff.
    exists r. split; [done|]. by apply list_elem_of_In.
Qed.

(** The traversal property for the options of this section. *)
Lemma traversal_is_complete_and_sound :
  (workerCount options = None \/
   exists n, workerCount options = Some n /\ positiveInteger n) ->
  (forall sched it,
     exec sched exploreFilesAsync = Some it -> (length sched <= runBound children)%nat) /\
  (forall sched it,
     exec sched exploreFilesAsync = Some it -> (forall l, istep l it = None) ->
     exists s, it = Started s /\ gen s = GCompleted (Normal ())) /\
  (forall sched s,
     exec sched exploreFilesAsync = Some (Started s) -> gen s = GCompleted (Normal ()) ->
     forall p, In p (map path (yielded s)) <-> In p (expected (rootDir options) children)).
Proof.
  intros Hvalid.
  assert (exists N, validate = Normal N) as [N Hv].
  { destruct Hvalid as [Hnone|(n & Hn & q & k & -> & Hq & Hk)].
    - eexists. by apply validate_default.
    - eexists. by eapply validate_positive_integer. }
  split; [exact runs_are_bounded|]. split.
  - intros sched it Hex Hstuck. destruct it as [|s|e].
    + specialize (Hstuck Next). simpl in Hstuck.
      rewrite (prologue_started N Hv) in Hstuck. done.
    + exists s. split; [done|].
      destruct (exec_steady N sched s Hv Hex) as (Hs & _).
      apply (steady_progress N s Hs). intros l. specialize (Hstuck l). simpl in Hstuck.
      by destruct (step l s).
    + destruct sched as [|l sched]; simpl in Hex; [done|].
      destruct l; try done. rewrite (prologue_started N Hv), exec_started in Hex.
      by destruct (execFrom _ _).
  - intros sched s Hex Hgen.
    destruct (exec_steady N sched s Hv Hex) as (Hs & Hc & _).
    by apply (completed_yielded N).
Qed.

(* ================================================================= *)
(** *** Every call is made exactly once *)

Lemma hits_app {A} (phi : A -> bool) l1 l2 : hits phi (l1 ++ l2) = hits phi l1 + hits phi l2.
Proof. induction l1 as [|x l1 IH]; simpl; lia. Qed.

Lemma hits_cons {A} (phi : A -> bool) x l : hits phi (x :: l) = hit phi x + hits phi l.
Proof. done. Qed.

Lemma sumOver_app {A} (f : A -> Z) l x : sumOver f (l ++ [x]) = sumOver f l + f x.
Proof. induction l as [|a l IH]; simpl; lia. Qed.

Lemma hits_flat_map {A B} (phi : B -> bool) (f : A -> list B) l :
  hits phi (flat_map f l) = sumOver (fun x => hits phi (f x)) l.
Proof. induction l as [|x l IH]; simpl; [done|]. by rewrite hits_app, IH. Qed.

Lemma sumWorkers_wake_hits phi fuel ws :
  sumWorkers (hitsWorker phi fuel) (wake <$> ws) = sumWorkers (hitsWorker phi fuel) ws.
Proof. induction ws as [|[] ws IH]; rewrite ?fmap_cons; simpl in *; lia. Qed.

Lemma sumWorkers_no_io phi fuel ws :
  sumWorkers isAwaitingIo ws = 0 -> sumWorkers (hitsWorker phi fuel) ws = 0.
Proof.
  induction ws as [|st ws IH]; simpl; [done|]. intros H.
  pose proof (sumWorkers_nonneg isAwaitingIo ws isAwaitingIo_nonneg).
  pose proof (isAwaitingIo_nonneg st).
  rewrite IH by lia. destruct st; simpl in *; lia.
Qed.

(** On a tree the counts read off the file system are those of its calls. *)
Lemma hits_tree phi sub :
  forall fuel dirPath,
    holdsTree dirPath sub -> (treeDepth sub < fuel)%nat ->
    hitsAfterReaddir phi fuel dirPath = hits phi (flat_map (callsNode dirPath) sub).
Proof.
  assert (Hnode : forall t, forall fuel dirPath,
            holdsNode dirPath t -> (nodeDepth t <= fuel)%nat ->
            (if isDirectory (entryOf t)
             then hit phi (EvShouldExploreDir (path_join dirPath (name (entryOf t)))) +
                  (if accepts (shouldExploreDir options (path_join dirPath (name (entryOf t))))
                   then hit phi (EvReaddir (path_join dirPath (name (entryOf t)))) +
                        hitsAfterReaddir phi fuel (path_join dirPath (name (entryOf t)))
                   else 0)
             else if isFile (entryOf t)
                  then hitsFileCheck phi
                         {| ctx_path := path_join dirPath (name (entryOf t)) |}
                  else 0) = hits phi (callsNode dirPath t)).
  { induction t as [n b|n sub' IH|n] using Tree_forall_ind; intros fuel d Hh Hd.
    - cbn [entryOf isDirectory isFile name callsNode holdsNode] in *.
      unfold hitsFileCheck, hitsRead, hitsAfterRead. cbn [ctx_path]. rewrite Hh.
      destruct (accepts _); simpl; lia.
    - cbn [entryOf isDirectory name callsNode]. rewrite hits_cons. f_equal.
      destruct (accepts _); [|done]. rewrite hits_cons. f_equal.
      destruct fuel as [|fuel]; [simpl in Hd; lia|].
      destruct Hh as [Hls Hsub]. cbn [hitsAfterReaddir]. rewrite Hls.
      apply holds_Forall in Hsub. cbn [nodeDepth] in Hd. apply le_S_n in Hd.
      clear Hls. induction sub' as [|c cs IHcs]; cbn [map foldr flat_map]; [done|].
      apply Forall_cons in IH as [IHc IHrest]. apply Forall_cons in Hsub as [Hc Hrest].
      simpl in Hd. rewrite hits_app, (IHc fuel _ Hc) by lia. f_equal.
      apply IHcs; try done. lia.
    - done. }
  intros fuel d [Hls Hsub] Hd. destruct fuel as [|fuel]; [lia|].
  cbn [hitsAfterReaddir]. rewrite Hls.
  apply holds_Forall in Hsub. unfold treeDepth in Hd. clear Hls.
  induction sub as [|c cs IHcs]; cbn [map foldr flat_map]; [done|].
  apply Forall_cons in Hsub as [Hc Hrest]. simpl in Hd.
  rewrite hits_app, (Hnode c fuel d Hc) by lia. f_equal. apply IHcs; [done|lia].
Qed.

Ltac tally_sums :=
  repeat first
    [ rewrite sumWorkers_wake_hits | rewrite sumOver_app | rewrite hits_app
    | progress sums ].

Lemma tally_iteration phi fuel w s o s' :
  error s = None -> workers s !! w = Some WRunning -> iteration s = (o, s') ->
  match o with
  | OContinue => tally phi fuel s' = tally phi fuel s
  | _ => tally phi fuel (settle w o s') = tally phi fuel s
  end.
Proof.
  intros Herr Hw Hit.
  destruct s as [qy qr qf qs qc ob aw dn er ws g yl lg].
  simpl in *. subst er.
  unfold_stages; simpl in *.
  repeat case_match; simplify_eq/=; no_throw; unfold tally; simpl; tally_sums;
    unfold hitsDirCheck, hitsFileCheck, hitsRead, hitsDirStat;
    repeat match goal with H : _ = Normal _ |- _ => rewrite H end; simpl; try lia.
Qed.

Lemma tally_runWorker phi N fuel w s :
  Accounting N s -> N <= 8 -> Sound N s -> workers s !! w = Some WRunning ->
  tally phi fuel (runWorker w s) = tally phi fuel s.
Proof.
  intros Hacc HN Hs Hw.
  apply (runWorker_rule
           (fun s1 => Accounting N s1 /\ Sound N s1 /\ workers s1 !! w = Some WRunning /\
                      tally phi fuel s1 = tally phi fuel s)
           (fun s1 => tally phi fuel s1 = tally phi fuel s)); [|done].
  intros s0 o s' (Ha & Hs0 & Hl & Ht) Hit.
  pose proof (accounting_iteration N w s0 o s' Ha Hl Hit) as H1.
  pose proof (sound_iteration N 0 w s0 o s' Ha HN Hs0 Hl Hit) as H2.
  pose proof (tally_iteration phi fuel w s0 o s' (snd_error _ _ Hs0) Hl Hit) as H3.
  destruct o; destruct H1, H2; try congruence.
  split; [done|]. split; [done|]. split; [done|]. congruence.
Qed.

Lemma tally_same phi fuel s s' :
  log s' = log s -> queueYieldCheck s' = queueYieldCheck s -> queueRead s' = queueRead s ->
  queueFileCheck s' = queueFileCheck s -> queueDirStat s' = queueDirStat s ->
  queueDirCheck s' = queueDirCheck s -> workers s' = workers s ->
  tally phi fuel s' = tally phi fuel s.
Proof. intros H1 H2 H3 H4 H5 H6 H7. unfold tally. by rewrite H1, H2, H3, H4, H5, H6, H7. Qed.

Lemma tally_notifyWorkers phi fuel s : tally phi fuel (notifyWorkers s) = tally phi fuel s.
Proof. unfold tally. simpl. by rewrite sumWorkers_wake_hits. Qed.

Lemma tally_sortEntries phi fuel dirPath sub :
  (forall n sub', In (TDir n sub') sub ->
     hitsAfterReaddir phi fuel (path_join dirPath n) =
     hits phi (flat_map (callsNode (path_join dirPath n)) sub')) ->
  (forall n b, In (TFile n b) sub -> fs_readFile (path_join dirPath n) = Normal b) ->
  forall s,
    tally phi fuel (fold_left (sortEntry dirPath) (map entryOf sub) s) =
    tally phi fuel s + hits phi (flat_map (callsNode dirPath) sub).
Proof.
  induction sub as [|c cs IH]; intros Hd Hf s; cbn [map fold_left flat_map]; [simpl; lia|].
  rewrite IH; [|intros n sub' Hin; apply Hd; by right|intros n b Hin; apply Hf; by right].
  rewrite hits_app.
  assert (tally phi fuel (sortEntry dirPath s (entryOf c)) =
          tally phi fuel s + hits phi (callsNode dirPath c)) as ->; [|lia].
  destruct c as [n b|n sub'|n]; unfold sortEntry, tally;
    cbn [entryOf isDirectory isFile name callsNode]; simpl.
  - rewrite sumOver_app. unfold hitsFileCheck, hitsRead, hitsAfterRead. simpl.
    rewrite (Hf n b) by (by left). destruct (accepts _); simpl; lia.
  - rewrite sumOver_app. unfold hitsDirCheck, hitsDirStat.
    rewrite (Hd n sub') by (by left). destruct (accepts _); simpl; lia.
  - lia.
Qed.

Lemma tally_afterReaddir phi fuel dirPath sub s :
  holdsTree dirPath sub -> (treeDepth sub < fuel)%nat ->
  tally phi fuel (afterReaddir dirPath (Normal (map entryOf sub)) s) =
  tally phi fuel s + hitsAfterReaddir phi fuel dirPath.
Proof.
  intros Hsub Hdepth. rewrite (hits_tree phi sub fuel dirPath Hsub Hdepth).
  unfold afterReaddir.
  assert (Hm : tally phi fuel (fold_left (sortEntry dirPath) (map entryOf sub) s) =
               tally phi fuel s + hits phi (flat_map (callsNode dirPath) sub)).
  { apply tally_sortEntries.
    - intros n sub' Hin. apply hits_tree.
      + exact (holdsTree_dir dirPath sub n sub' Hsub Hin).
      + pose proof (treeDepth_dir sub n sub' Hin). lia.
    - intros n b Hin. exact (holdsTree_file dirPath sub n b Hsub Hin). }
  case_match; [by rewrite tally_notifyWorkers|done].
Qed.

Lemma tally_afterRead phi fuel fileCtx b s :
  fs_readFile (ctx_path fileCtx) = Normal b ->
  tally phi fuel (afterRead fileCtx (Normal b) s) =
  tally phi fuel s + hitsAfterRead phi (ctx_path fileCtx).
Proof.
  intros Hb. unfold afterRead. rewrite tally_notifyWorkers.
  unfold tally, hitsAfterRead. simpl. rewrite sumOver_app, Hb. unfold recordOf. lia.
Qed.

Lemma tally_set_running phi fuel w st s :
  workers s !! w = Some st ->
  tally phi fuel (set_worker w WRunning s) = tally phi fuel s - hitsWorker phi fuel st.
Proof.
  intros Hw. unfold tally. simpl. erewrite sumWorkers_insert by exact Hw. simpl. lia.
Qed.

Lemma tally_step phi N l s s' :
  Steady N s -> step l s = Some s' ->
  tally phi (S (treeDepth children)) s' = tally phi (S (treeDepth children)) s.
Proof.
  intros [Hacc Hq Hs Ho Hg HN Hlen Hcompl] Hstep. clear Hlen.
  set (fuel := S (treeDepth children)).
  assert (Hfuel : (treeDepth children < fuel)%nat) by (unfold fuel; lia).
  clearbody fuel.
  destruct l as [| |w|w]; simpl in Hstep.
  - destruct (gen s) eqn:Hgs; simplify_eq.
    destruct (generatorLoop_fields s) as (? & ? & ? & ? & ? & _ & _ & _ & ? & ?).
    by apply tally_same.
  - destruct (gen s) eqn:Hgs; simplify_eq.
    destruct (generatorLoop_fields s) as (? & ? & ? & ? & ? & _ & _ & _ & ? & ?).
    by apply tally_same.
  - destruct (workers s !! w) as [[]|] eqn:Hw; simplify_eq.
    destruct (accounting_resume N w s Hacc Hq Hw) as [Ha1 Hw1].
    destruct (sound_resume N 0 w s Hs Hw) as (Hs1 & _ & _).
    rewrite (tally_runWorker phi N fuel w _ Ha1 HN Hs1 Hw1).
    change (tally phi fuel (set_worker w WRunning s) = tally phi fuel s).
    rewrite (tally_set_running phi fuel w _ s Hw). simpl. lia.
  - destruct (workers s !! w) as [[| fileCtx | dirPath | | |]|] eqn:Hw; simplify_eq.
    + destruct (accounting_io N w _ s Hacc Hq Hw eq_refl) as (Ha1 & Hw1 & Hd1).
      destruct (sound_io N 0 w _ s Hs Hw eq_refl) as (Hs1 & _ & Hp1).
      pose proof (origins_lookup w _ s Ho Hw) as [Hcand _].
      destruct (candidateFile_tree _ Hcand) as (_ & _ & _ & b & _ & _ & _ & Hb & _).
      rewrite Hb.
      destruct (accounting_afterRead N w fileCtx (Normal b) _ Ha1 Hd1 Hw1) as [Ha2 Hw2].
      pose proof (parked_bound N s Hacc HN) as Hpark.
      destruct (sound_afterRead N 0 fileCtx b (set_worker w WRunning s))
        as [Hs2 _]; [lia|done|].
      rewrite (tally_runWorker phi N fuel w _ Ha2 HN Hs2 Hw2).
      rewrite (tally_afterRead phi fuel fileCtx b _ Hb).
      rewrite (tally_set_running phi fuel w _ s Hw). simpl. lia.
    + destruct (accounting_io N w _ s Hacc Hq Hw eq_refl) as (Ha1 & Hw1 & Hd1).
      destruct (sound_io N 0 w _ s Hs Hw eq_refl) as (Hs1 & _ & Hp1).
      pose proof (origins_lookup w _ s Ho Hw) as Hexp. simpl in Hexp.
      destruct (explored_tree dirPath Hexp) as (sub & Hsub & Hdepth & _).
      pose proof Hsub as [Hls _]. rewrite Hls.
      destruct (accounting_afterReaddir N w dirPath (Normal (map entryOf sub)) _
                  Ha1 Hd1 Hw1) as [Ha2 Hw2].
      pose proof (parked_bound N s Hacc HN) as Hpark.
      destruct (sound_afterReaddir N fuel dirPath sub (set_worker w WRunning s))
        as [Hs2 _]; [done|lia|lia|done|].
      rewrite (tally_runWorker phi N fuel w _ Ha2 HN Hs2 Hw2).
      rewrite (tally_afterReaddir phi fuel dirPath sub _ Hsub) by lia.
      rewrite (tally_set_running phi fuel w _ s Hw). cbn [hitsWorker]. lia.
Qed.

Lemma hits_nonneg {A} (phi : A -> bool) l : 0 <= hits phi l.
Proof. induction l as [|x l IH]; simpl; [lia|]. unfold hit. destruct (phi x); lia. Qed.

Lemma hits_Permutation {A} (phi : A -> bool) l k : l ≡ₚ k -> hits phi l = hits phi k.
Proof. induction 1; simpl; lia. Qed.

Lemma hits_pos_elem {A} (phi : A -> bool) l :
  0 < hits phi l -> exists x, x ∈ l /\ phi x = true.
Proof.
  induction l as [|x l IH]; simpl; [lia|]. unfold hit at 1.
  destruct (phi x) eqn:Hx.
  - intros _. exists x. split; [by left|done].
  - intros H. destruct IH as (y & Hy & Hphi); [lia|]. exists y. split; [by right|done].
Qed.

(** Two lists with the same counts are rearrangements of each other. *)
Lemma same_hits_Permutation {A} `{EqDecision A} (l k : list A) :
  (forall phi : A -> bool, hits phi l = hits phi k) -> l ≡ₚ k.
Proof.
  revert k. induction l as [|x l IH]; intros k H.
  - specialize (H (fun _ => true)). destruct k as [|y k]; [done|].
    pose proof (hits_nonneg (fun _ : A => true) k). simpl in H. unfold hit in H. lia.
  - pose proof (H (fun y => bool_decide (y = x))) as Hx.
    pose proof (hits_nonneg (fun y => bool_decide (y = x)) l).
    assert (0 < hits (fun y => bool_decide (y = x)) k) as Hpos.
    { rewrite <- Hx. simpl. unfold hit at 1. rewrite bool_decide_eq_true_2 by done. lia. }
    destruct (hits_pos_elem _ _ Hpos) as (y & Hy & Hdec).
    apply bool_decide_eq_true in Hdec. subst y.
    apply elem_of_Permutation in Hy as [k' Hk']. rewrite Hk'. constructor.
    apply IH. intros phi. specialize (H phi).
    rewrite (hits_Permutation phi k (x :: k') Hk') in H. simpl in H. lia.
Qed.

Lemma execFrom_tally phi N sched s s' :
  Steady N s -> execFrom sched s = Some s' ->
  Steady N s' /\
  tally phi (S (treeDepth children)) s' = tally phi (S (treeDepth children)) s.
Proof.
  revert s. induction sched as [|l sched IH]; intros s Hs Hrun; simpl in Hrun.
  - by simplify_eq.
  - destruct (step l s) as [s1|] eqn:Hstep; [|done].
    destruct (steady_step N l s s1 Hs Hstep) as [Hs1 _].
    destruct (IH s1 Hs1 Hrun) as [Hs' Ht]. split; [done|].
    rewrite Ht. by apply (tally_step phi N l).
Qed.

Lemma exec_tally phi N sched s :
  validate = Normal N -> exec sched exploreFilesAsync = Some (Started s) ->
  Steady N s /\
  tally phi (S (treeDepth children)) s =
    hits phi (expectedCalls (rootDir options) children).
Proof.
  intros Hv Hex. destruct (exec_first_pull N sched s Hv Hex) as (r & -> & Hrun).
  destruct (steady_first N Hv) as (Hs0 & _ & _).
  destruct (execFrom_tally phi N r _ s Hs0 Hrun) as [Hs Ht]. split; [done|].
  rewrite Ht.
  pose proof (hits_tree phi children (S (treeDepth children)) _ root_tree
                (Nat.lt_succ_diag_r _)) as Hw.
  revert Hw. generalize (S (treeDepth children)). intros fuel Hw.
  unfold tally, expectedCalls. simpl. rewrite <- Hw.
  rewrite (sumWorkers_no_io phi fuel (replicate _ WParked)).
  - unfold hit. lia.
  - rewrite sumWorkers_replicate. simpl. lia.
Qed.

(** When the sequence has ended normally, nothing is left to come. *)
Lemma completed_tally phi N fuel s :
  Steady N s -> gen s = GCompleted (Normal ()) -> tally phi fuel s = hits phi (log s).
Proof.
  intros [Hacc Hq Hs Ho Hg HN Hlen Hcompl] Hgen.
  destruct (Hcompl Hgen) as [Hd Hb].
  destruct Hacc as [_ _ Hlo _ Hdone _]. destruct (Hdone Hd) as (Hempty & Ha & _).
  unfold quiescent in Hq.
  pose proof (sumWorkers_nonneg isAwaitingIo (workers s) isAwaitingIo_nonneg).
  assert (sumWorkers isAwaitingIo (workers s) = 0) as Hio by lia.
  unfold tally. rewrite (sumWorkers_no_io phi fuel _ Hio).
  unfold allQueuesEmpty in Hempty.
  destruct (queueYieldCheck s), (queueRead s), (queueFileCheck s),
    (queueDirStat s), (queueDirCheck s); try done. simpl. lia.
Qed.

Lemma accepted_calls_of_node dirPath t :
  map path (acceptedRecords (callsNode dirPath t)) =
  selectedNode path_join
    (fun d => accepts (shouldExploreDir options d))
    (fun p => accepts (shouldReadFile options {| ctx_path := p |}))
    (fun r => accepts (yieldPredicate r)) dirPath t.
Proof.
  revert dirPath. induction t as [n b|n sub IH|n] using Tree_forall_ind; intros d.
  - cbn [callsNode selectedNode]. destruct (accepts (shouldReadFile _ _)); simpl; [|done].
    destruct (accepts (yieldPredicate _)); done.
  - cbn [callsNode selectedNode]. destruct (accepts (shouldExploreDir _ _)); simpl; [|done].
    fold (acceptedRecords (flat_map (callsNode (path_join d n)) sub)).
    induction sub as [|c cs IHcs]; simpl; [done|].
    apply Forall_cons in IH as [IHc IHrest].
    unfold acceptedRecords in *. rewrite flat_map_app, map_app, IHc. f_equal. by apply IHcs.
  - done.
Qed.

Lemma accepted_expected_calls dirPath sub :
  map path (acceptedRecords (expectedCalls dirPath sub)) = expected dirPath sub.
Proof.
  unfold expectedCalls, expected, selectedPaths. cbn [acceptedRecords flat_map acceptedCall app].
  fold (acceptedRecords (flat_map (callsNode dirPath) sub)).
  induction sub as [|c cs IH]; simpl; [done|].
  unfold acceptedRecords in *. rewrite flat_map_app, map_app, IH. f_equal.
  apply accepted_calls_of_node.
Qed.

Lemma completed_calls sched s :
  (workerCount options = None \/
   exists n, workerCount options = Some n /\ positiveInteger n) ->
  exec sched exploreFilesAsync = Some (Started s) -> gen s = GCompleted (Normal ()) ->
  log s ≡ₚ expectedCalls (rootDir options) children.
Proof.
  intros Hvalid Hex Hgen.
  assert (exists N, validate = Normal N) as [N Hv].
  { destruct Hvalid as [Hnone|(n & Hn & q & k & -> & Hq & Hk)].
    - eexists. by apply validate_default.
    - eexists. by eapply validate_positive_integer. }
  apply same_hits_Permutation. intros phi.
  destruct (exec_tally phi N sched s Hv Hex) as [Hs Ht].
  by rewrite <- Ht, (completed_tally phi N _ s Hs Hgen).
Qed.

(** X14.  Each call of a complete traversal is made exactly once.  Over a finite
    tree, with predicates that do not throw and any valid [workerCount], the
    calls of a run that has ended are a rearrangement of the calls of the
    tree: one [readdir] for the root and for every accepted sub-directory, one
    [shouldExploreDir] per directory entry and one [shouldReadFile] per file
    entry found there, one [readFile] and one [shouldYieldFile] per accepted
    file, however the tasks of the workers are interleaved.  In particular,
    when the calls of the tree are pairwise different (no path occurs twice
    in it), no directory is listed twice and no file is read twice. *)
Theorem every_call_is_made_exactly_once sched s :
  (workerCount options = None \/
   exists n, workerCount options = Some n /\ positiveInteger n) ->
  exec sched exploreFilesAsync = Some (Started s) -> gen s = GCompleted (Normal ()) ->
  log s ≡ₚ expectedCalls (rootDir options) children /\
  (NoDup (expectedCalls (rootDir options) children) -> NoDup (log s)).
Proof.
  intros Hvalid Hex Hgen.
  pose proof (completed_calls sched s Hvalid Hex Hgen) as Hperm.
  split; [done|]. intros Hnd. by rewrite Hperm.
Qed.

(** X15.  Each selected file is yielded exactly once: when the sequence has ended,
    the list of the yielded paths is a rearrangement of the list of the
    selected files of the tree (and has its length), whatever the number of
    workers and the interleaving. *)
Theorem each_selected_file_is_yielded_exactly_once sched s :
  (workerCount options = None \/
   exists n, workerCount options = Some n /\ positiveInteger n) ->
  exec sched exploreFilesAsync = Some (Started s) -> gen s = GCompleted (Normal ()) ->
  map path (yielded s) ≡ₚ expected (rootDir options) children /\
  length (yielded s) = length (expected (rootDir options) children).
Proof.
  intros Hvalid Hex Hgen.
  pose proof (completed_calls sched s Hvalid Hex Hgen) as Hlog.
  pose proof (exec_reachable sched s Hex) as Hr.
  destruct (reachable_history s Hr) as [Hfifo _ _ _].
  destruct (reachable_handshake s Hr) as [_ _ H3 _].
  destruct (H3 Hgen) as [_ Hb]. rewrite Hb, app_nil_r in Hfifo.
  assert (Hperm : map path (yielded s) ≡ₚ expected (rootDir options) children).
  { rewrite Hfifo, <- accepted_expected_calls.
    apply Permutation_map. unfold acceptedRecords. by apply Permutation_flat_map. }
  split; [done|]. apply Permutation_length in Hperm. by rewrite length_map in Hperm.
Qed.

(* ================================================================= *)
(** *** Runs over a finite tree end, whatever the predicates do

    The measure of the bound on the runs also decreases in the tasks of a
    run in which a predicate throws: the task that fails gives up the
    weight of the item it took, and the tasks left in the queues stay
    there. *)

Lemma weigh_iteration N fuel w s o s' :
  Accounting N s -> N <= 8 -> Handshake s -> workers s !! w = Some WRunning ->
  iteration s = (o, s') ->
  match o with
  | OContinue => measure fuel s' <= measure fuel s
  | _ => measure fuel (settle w o s') <= measure fuel s
  end.
Proof using Type.
  intros [Hlen Hrun Hlo Hup Hdone Hzero] HN [_ Hwait _ _] Hw Hit.
  destruct s as [qy qr qf qs qc ob aw dn er ws g yl lg].
  unfold quiescent, allQueuesEmpty, measure in *. simpl in *.
  worker_facts ws.
  pose proof (sumWorkers_lookup isRunning ws w _ isRunning_nonneg Hw) as Hone.
  simpl in Hone.
  unfold_stages; simpl in *.
  repeat case_match; simplify_eq/=; idle_condition;
    unfold measure; simpl; measure_sums; try lia;
    try (destruct (Hwait eq_refl) as [? ?]; simplify_eq; lia);
    try (destruct (Hdone eq_refl) as (_ & _ & _ & ?); lia);
    try (match goal with
         | |- context [weightDir ?f ?d] => pose proof (weightDir_nonneg f d)
         end; lia).
Qed.

Lemma weigh_notifyWorkers fuel s :
  sumWorkers isParked (workers s) <= 8 ->
  measure fuel (notifyWorkers s) <= measure fuel s + 16.
Proof using Type.
  intros Hp. destruct s as [qy qr qf qs qc ob aw dn er ws g yl lg].
  unfold measure. simpl in *. worker_facts ws. measure_sums. lia.
Qed.

Lemma weigh_afterRead fuel fileCtx b s :
  sumWorkers isParked (workers s) <= 8 ->
  measure fuel (afterRead fileCtx (Normal b) s) <= measure fuel s + 18.
Proof using Type.
  intros Hp. unfold afterRead.
  set (s1 := with_queueYieldCheck _ s).
  assert (Hm : measure fuel s1 = measure fuel s + 2).
  { unfold measure, s1. simpl. rewrite length_app. simpl. lia. }
  pose proof (weigh_notifyWorkers fuel s1 Hp). lia.
Qed.

Lemma weigh_afterReaddir fuel dirPath sub s :
  holdsTree dirPath sub -> (treeDepth sub < fuel)%nat ->
  sumWorkers isParked (workers s) <= 8 ->
  measure fuel (afterReaddir dirPath (Normal (map entryOf sub)) s)
    <= measure fuel s + weightDir fuel dirPath - 1.
Proof using Type.
  intros Hsub Hdepth Hp.
  rewrite (weightDir_tree sub fuel dirPath Hsub Hdepth). unfold treeWeight.
  unfold afterReaddir.
  destruct (sortEntries_fields dirPath (map entryOf sub) s)
    as (_ & _ & _ & _ & _ & _ & _ & Hws & _).
  set (s1 := fold_left (sortEntry dirPath) (map entryOf sub) s) in *.
  assert (Hm : measure fuel s1 =
               measure fuel s + foldr (fun c acc => nodeWeight c + acc) 0 sub).
  { apply measure_sortEntries. intros n sub' Hin. apply weightDir_tree.
    - exact (holdsTree_dir dirPath sub n sub' Hsub Hin).
    - pose proof (treeDepth_dir sub n sub' Hin). lia. }
  case_match; [|lia].
  pose proof (weigh_notifyWorkers fuel s1) as Hn. rewrite Hws in Hn.
  specialize (Hn Hp). lia.
Qed.

Lemma weigh_set_running fuel w st s :
  workers s !! w = Some st ->
  measure fuel (set_worker w WRunning s) = measure fuel s - workerPotential fuel st /\
  (isParked st = 0 ->
   sumWorkers isParked (workers (set_worker w WRunning s)) =
   sumWorkers isParked (workers s)).
Proof using Type.
  intros Hw. destruct s as [qy qr qf qs qc ob aw dn er ws g yl lg].
  unfold measure. simpl in *. split; [|intros Hst]; sums; lia.
Qed.

Lemma weigh_runWorker N fuel w s :
  Accounting N s -> N <= 8 -> Handshake s -> workers s !! w = Some WRunning ->
  measure fuel (runWorker w s) <= measure fuel s.
Proof using Type.
  intros Hacc HN Hh Hw.
  apply (runWorker_rule
           (fun s1 => Accounting N s1 /\ Handshake s1 /\ workers s1 !! w = Some WRunning /\
                      measure fuel s1 <= measure fuel s)
           (fun s1 => measure fuel s1 <= measure fuel s)); [|by auto with lia].
  intros s0 o s' (Ha & Hh0 & Hl & Hm) Hit.
  pose proof (accounting_iteration N w s0 o s' Ha Hl Hit) as H1.
  pose proof (weigh_iteration N fuel w s0 o s' Ha HN Hh0 Hl Hit) as H2.
  pose proof (handshake_iteration N w s0 o s' Hh0 Ha Hit) as H3.
  destruct o; destruct H1; try lia.
  split; [done|]. split; [done|]. split; [done|lia].
Qed.

Lemma weigh_generatorLoop fuel s :
  gen s = GSuspendedYield \/ gen s = GWoken ->
  measure fuel (generatorLoop s) < measure fuel s.
Proof using Type.
  intros Hg. destruct s as [qy qr qf qs qc ob aw dn er ws g yl lg].
  unfold measure, generatorLoop, setError. simpl in *.
  destruct ob as [|r rest], dn, er as [v|]; try destruct (truthy v);
    destruct Hg as [-> | ->]; simpl; lia.
Qed.

(** Every task makes the measure smaller. *)
Lemma weigh_step N l s s' :
  Accounting N s -> quiescent s -> N <= 8 -> Handshake s -> Origins s ->
  step l s = Some s' ->
  measure (S (treeDepth children)) s' < measure (S (treeDepth children)) s.
Proof using root_tree.
  intros Hacc Hq HN Hh Ho Hstep.
  set (fuel := S (treeDepth children)).
  assert (Hfuel : (treeDepth children < fuel)%nat) by (unfold fuel; lia).
  clearbody fuel.
  pose proof (parked_bound N s Hacc HN) as Hpark.
  destruct l as [| |w|w]; simpl in Hstep.
  - destruct (gen s) eqn:Hgs; simplify_eq. apply weigh_generatorLoop; auto.
  - destruct (gen s) eqn:Hgs; simplify_eq. apply weigh_generatorLoop; auto.
  - destruct (workers s !! w) as [[]|] eqn:Hw; simplify_eq.
    destruct (accounting_resume N w s Hacc Hq Hw) as [Ha1 Hw1].
    destruct (weigh_set_running fuel w _ s Hw) as [Hm1 _].
    assert (Hh1 : Handshake (with_activeWorkers (activeWorkers s + 1)
                               (set_worker w WRunning s)))
      by (by apply (handshake_same s)).
    pose proof (weigh_runWorker N fuel w _ Ha1 HN Hh1 Hw1) as Hm2.
    simpl in Hm1.
    change (measure fuel (with_activeWorkers (activeWorkers s + 1) (set_worker w WRunning s)))
      with (measure fuel (set_worker w WRunning s)) in Hm2.
    lia.
  - destruct (workers s !! w) as [[| fileCtx | dirPath | | |]|] eqn:Hw; simplify_eq.
    + destruct (accounting_io N w _ s Hacc Hq Hw eq_refl) as (Ha1 & Hw1 & Hd1).
      destruct (weigh_set_running fuel w _ s Hw) as [Hm1 Hp1]. specialize (Hp1 eq_refl).
      pose proof (origins_lookup w _ s Ho Hw) as [Hcand _].
      destruct (candidateFile_tree _ Hcand) as (_ & _ & _ & b & _ & _ & _ & Hb & _).
      rewrite Hb.
      destruct (accounting_afterRead N w fileCtx (Normal b) _ Ha1 Hd1 Hw1) as [Ha2 Hw2].
      pose proof (weigh_afterRead fuel fileCtx b (set_worker w WRunning s)) as Hm2.
      assert (Hh1 : Handshake (set_worker w WRunning s)) by (by apply (handshake_same s)).
      pose proof (weigh_runWorker N fuel w _ Ha2 HN
                    (handshake_afterRead fileCtx (Normal b) _ Hh1 Hd1) Hw2) as Hm3.
      simpl in Hm1. lia.
    + destruct (accounting_io N w _ s Hacc Hq Hw eq_refl) as (Ha1 & Hw1 & Hd1).
      destruct (weigh_set_running fuel w _ s Hw) as [Hm1 Hp1]. specialize (Hp1 eq_refl).
      pose proof (origins_lookup w _ s Ho Hw) as Hexp. simpl in Hexp.
      destruct (explored_tree dirPath Hexp) as (sub & Hsub & Hdepth & _).
      pose proof Hsub as [Hls _]. rewrite Hls.
      destruct (accounting_afterReaddir N w dirPath (Normal (map entryOf sub)) _
                  Ha1 Hd1 Hw1) as [Ha2 Hw2].
      pose proof (weigh_afterReaddir fuel dirPath sub (set_worker w WRunning s) Hsub) as Hm2.
      assert (Hh1 : Handshake (set_worker w WRunning s)) by (by apply (handshake_same s)).
      pose proof (weigh_runWorker N fuel w _ Ha2 HN
                    (handshake_afterReaddir dirPath (Normal (map entryOf sub)) _ Hh1 Hd1)
                    Hw2) as Hm3.
      cbn [workerPotential] in Hm1. lia.
Qed.

Lemma execFrom_weigh sched :
  forall s s', reachable s -> execFrom sched s = Some s' ->
    Z.of_nat (length sched) + measure (S (treeDepth children)) s'
      <= measure (S (treeDepth children)) s.
Proof using root_tree.
  induction sched as [|l sched IH]; intros s s' Hr Hrun; simpl in Hrun.
  - simplify_eq. simpl. lia.
  - destruct (step l s) as [s1|] eqn:Hstep; [|done].
    destruct (reachable_accounting s Hr) as (N & Hv & Hacc & Hq & _).
    destruct (validate_accepts N Hv) as [[_ HN] _].
    pose proof (weigh_step N l s s1 Hacc Hq HN (reachable_handshake s Hr)
                  (reachable_origins s Hr) Hstep) as Hm.
    pose proof (IH s1 s' (reachable_step s l s1 Hr Hstep) Hrun). cbn [length]. lia.
Qed.

Lemma drain_ends fuel :
  forall s, reachable s -> measure (S (treeDepth children)) s < Z.of_nat fuel ->
    exists s', execFrom (drain fuel s) s = Some s' /\ finished s'.
Proof using root_tree.
  induction fuel as [|fuel IH]; intros s Hr Hm.
  - pose proof (measure_nonneg (S (treeDepth children)) s). lia.
  - cbn [drain]. destruct (nextTask s) as [l|] eqn:Hn.
    + destruct (nextTask_enabled s l Hn) as [s1 Hstep]. rewrite Hstep.
      cbn [execFrom]. rewrite Hstep.
      destruct (reachable_accounting s Hr) as (N & Hv & Hacc & Hq & _).
      destruct (validate_accepts N Hv) as [[_ HN] _].
      pose proof (weigh_step N l s s1 Hacc Hq HN (reachable_handshake s Hr)
                    (reachable_origins s Hr) Hstep) as Hm1.
      apply IH; [exact (reachable_step s l s1 Hr Hstep)|lia].
    + exists s. split; [done|]. by apply nextTask_none.
Qed.

(** X18.  Over a finite tree every run runs out of tasks, whether or not a
    predicate throws and whatever it throws: a run has at most [runBound]
    tasks, and from wherever it stands it can be continued, with a consumer
    that keeps pulling, to a state in which no task is left.  When the
    predicates only throw truthy values (such as [Error] objects) the
    sequence has then ended: by the validation error, normally or by
    throwing.  A predicate that throws cannot make the traversal run for
    ever, and one that throws an [Error] cannot make the consumer wait for
    ever. *)
Theorem run_over_a_finite_tree_runs_out_of_tasks sched it :
  exec sched exploreFilesAsync = Some it ->
  (length sched <= runBound children)%nat /\
  exists rest it',
    exec (sched ++ rest) exploreFilesAsync = Some it' /\
    (forall l, istep l it' = None) /\
    (truthyThrows ->
     (exists e, it' = ClosedAtStart e /\ validate = Throw e) \/
     (exists s r, it' = Started s /\ gen s = GCompleted r /\ outputBuffer s = [] /\
        match r with
        | Normal _ => isDone s = true /\ setError s = None
        | Throw _ => is_Some (setError s) /\ isDone s = false
        end)).
Proof using root_tree.
  intros Hex.
  set (F := S (treeDepth children)).
  assert (Hfrom : forall s, reachable s ->
            exists rest s', execFrom rest s = Some s' /\ reachable s' /\ finished s').
  { intros s Hr.
    destruct (drain_ends (S (Z.to_nat (measure F s))) s Hr) as (s' & Hrun & Hfin).
    - pose proof (measure_nonneg F s). unfold F in *. lia.
    - exists (drain (S (Z.to_nat (measure F s))) s), s'.
      split; [done|]. split; [by eapply execFrom_reachable|done]. }
  assert (Hend : forall s, reachable s -> finished s ->
            (forall l, istep l (Started s) = None) /\
            (truthyThrows ->
             exists r, gen s = GCompleted r /\ outputBuffer s = [] /\
               match r with
               | Normal _ => isDone s = true /\ setError s = None
               | Throw _ => is_Some (setError s) /\ isDone s = false
               end)).
  { intros s Hr Hfin. split; [intros l; simpl; by rewrite (Hfin l)|].
    intros Htt.
    destruct (finished_completed s Hr Hfin) as [H|(_ & _ & _ & v & Hv & Hfalsy)]; [done|].
    rewrite (truthyThrows_slot s v Htt Hr Hv) in Hfalsy. done. }
  assert (Hw : 0 <= treeWeight children).
  { pose proof (weightDir_tree children F _ root_tree (Nat.lt_succ_diag_r _)) as E.
    rewrite <- E. apply weightDir_nonneg. }
  destruct validate as [N|e] eqn:Hv.
  - pose proof (prologue_started N Hv) as Hp.
    destruct (steady_first N Hv) as (_ & Hm0 & _).
    assert (Hr0 : reachable (generatorLoop (startedState N))) by (by constructor).
    destruct it as [|s|e].
    + destruct sched as [|l sched]; simpl in Hex.
      2: { destruct l; try done. rewrite Hp, exec_of_started in Hex.
           by destruct (execFrom _ _). }
      split; [simpl; lia|].
      destruct (Hfrom _ Hr0) as (rest & s' & Hrun & Hr' & Hfin).
      destruct (Hend s' Hr' Hfin) as (Hstuck & Hg).
      exists (Next :: rest), (Started s'). split.
      * simpl. rewrite Hp, exec_of_started, Hrun. done.
      * split; [done|]. intros Htt. right. destruct (Hg Htt) as (r & ?). by exists s', r.
    + destruct sched as [|l sched]; simpl in Hex; [done|].
      destruct l; try done. rewrite Hp, exec_of_started in Hex.
      destruct (execFrom sched _) as [s1|] eqn:Hrun; simplify_eq/=.
      pose proof (execFrom_reachable _ _ _ Hr0 Hrun) as Hr.
      split.
      * pose proof (execFrom_weigh sched _ _ Hr0 Hrun) as Hm.
        pose proof (measure_nonneg F s). fold F in Hm, Hm0. unfold runBound. lia.
      * destruct (Hfrom _ Hr) as (rest & s' & Hrun' & Hr' & Hfin).
        destruct (Hend s' Hr' Hfin) as (Hstuck & Hg).
        exists rest, (Started s'). split.
        -- simpl. rewrite Hp, exec_app, exec_of_started, Hrun. simpl.
           rewrite exec_of_started, Hrun'. done.
        -- split; [done|]. intros Htt. right. destruct (Hg Htt) as (r & ?).
           by exists s', r.
    + destruct sched as [|l sched]; simpl in Hex; [done|].
      destruct l; try done. rewrite Hp, exec_of_started in Hex.
      by destruct (execFrom _ _).
  - assert (Hp : prologue = Throw e) by (unfold prologue; by rewrite Hv).
    destruct sched as [|l sched]; simpl in Hex.
    + simplify_eq. split; [simpl; lia|].
      exists [Next], (ClosedAtStart e). simpl. rewrite Hp.
      split; [done|]. split; [done|]. intros _. left. by exists e.
    + destruct l; try done. rewrite Hp in Hex.
      destruct sched as [|l' sched]; simpl in Hex; [|done]. simplify_eq.
      split; [unfold runBound; simpl; lia|].
      exists [], (ClosedAtStart e). simpl. rewrite Hp.
      split; [done|]. split; [done|]. intros _. left. by exists e.
Qed.

(* ================================================================= *)
(** *** Nothing is done twice, at any time *)

Lemma hit_nonneg {A} (phi : A -> bool) x : 0 <= hit phi x.
Proof using Type. unfold hit. destruct (phi x); lia. Qed.

Lemma sumOver_nonneg {A} (f : A -> Z) l : (forall x, 0 <= f x) -> 0 <= sumOver f l.
Proof using Type. intros Hf. induction l as [|x l IH]; simpl; [lia|]. specialize (Hf x). lia. Qed.

Lemma hitsAfterRead_nonneg phi p : 0 <= hitsAfterRead phi p.
Proof using Type. unfold hitsAfterRead. destruct (fs_readFile p); [apply hit_nonneg|lia]. Qed.

Lemma hitsRead_nonneg phi f : 0 <= hitsRead phi f.
Proof using Type.
  unfold hitsRead. pose proof (hit_nonneg phi (EvReadFile (ctx_path f))).
  pose proof (hitsAfterRead_nonneg phi (ctx_path f)). lia.
Qed.

Lemma hitsFileCheck_nonneg phi f : 0 <= hitsFileCheck phi f.
Proof using Type.
  unfold hitsFileCheck. pose proof (hit_nonneg phi (EvShouldReadFile f)).
  pose proof (hitsRead_nonneg phi f). destruct (accepts _); lia.
Qed.

Lemma hitsAfterReaddir_nonneg phi fuel dirPath : 0 <= hitsAfterReaddir phi fuel dirPath.
Proof using Type.
  revert dirPath. induction fuel as [|fuel IH]; intros d; cbn [hitsAfterReaddir]; [lia|].
  destruct (fs_readdir d) as [entries|]; [|lia].
  induction entries as [|e es IHes]; cbn [foldr]; [lia|].
  pose proof (hit_nonneg phi (EvShouldExploreDir (path_join d (name e)))).
  pose proof (hit_nonneg phi (EvReaddir (path_join d (name e)))).
  pose proof (IH (path_join d (name e))).
  pose proof (hitsFileCheck_nonneg phi {| ctx_path := path_join d (name e) |}).
  destruct (isDirectory e), (isFile e),
    (accepts (shouldExploreDir options (path_join d (name e)))); lia.
Qed.

Lemma hitsDirStat_nonneg phi fuel d : 0 <= hitsDirStat phi fuel d.
Proof using Type.
  unfold hitsDirStat. pose proof (hit_nonneg phi (EvReaddir d)).
  pose proof (hitsAfterReaddir_nonneg phi fuel d). lia.
Qed.

Lemma hitsDirCheck_nonneg phi fuel d : 0 <= hitsDirCheck phi fuel d.
Proof using Type.
  unfold hitsDirCheck. pose proof (hit_nonneg phi (EvShouldExploreDir d)).
  pose proof (hitsDirStat_nonneg phi fuel d). destruct (accepts _); lia.
Qed.

Lemma hitsWorker_nonneg phi fuel st : 0 <= hitsWorker phi fuel st.
Proof using Type.
  destruct st; simpl; try lia; [apply hitsAfterRead_nonneg|apply hitsAfterReaddir_nonneg].
Qed.

(** The calls made are among the calls made and to come. *)
Lemma log_below_tally phi fuel s : hits phi (log s) <= tally phi fuel s.
Proof using Type.
  unfold tally.
  pose proof (sumOver_nonneg (fun r => hit phi (EvShouldYieldFile r)) (queueYieldCheck s)
                (fun r => hit_nonneg phi _)).
  pose proof (sumOver_nonneg (hitsRead phi) (queueRead s) (hitsRead_nonneg phi)).
  pose proof (sumOver_nonneg (hitsFileCheck phi) (queueFileCheck s)
                (hitsFileCheck_nonneg phi)).
  pose proof (sumOver_nonneg (hitsDirStat phi fuel) (queueDirStat s)
                (hitsDirStat_nonneg phi fuel)).
  pose proof (sumOver_nonneg (hitsDirCheck phi fuel) (queueDirCheck s)
                (hitsDirCheck_nonneg phi fuel)).
  pose proof (sumWorkers_nonneg (hitsWorker phi fuel) (workers s)
                (hitsWorker_nonneg phi fuel)).
  lia.
Qed.

(** A list whose counts are below those of another is contained in it, as a
    multiset. *)
Lemma hits_le_submseteq {A} `{EqDecision A} (l k : list A) :
  (forall phi : A -> bool, hits phi l <= hits phi k) -> l ⊆+ k.
Proof using Type.
  revert k. induction l as [|x l IH]; intros k H; [apply submseteq_nil_l|].
  pose proof (H (fun y => bool_decide (y = x))) as Hx.
  pose proof (hits_nonneg (fun y => bool_decide (y = x)) l).
  assert (0 < hits (fun y => bool_decide (y = x)) k) as Hpos.
  { simpl in Hx. unfold hit at 1 in Hx. rewrite bool_decide_eq_true_2 in Hx by done. lia. }
  destruct (hits_pos_elem _ _ Hpos) as (y & Hy & Hdec).
  apply bool_decide_eq_true in Hdec. subst y.
  apply elem_of_Permutation in Hy as [k' Hk']. rewrite Hk'. apply submseteq_skip.
  apply IH. intros phi. specialize (H phi).
  rewrite (hits_Permutation phi k (x :: k') Hk') in H. simpl in H. lia.
Qed.

Lemma flat_map_submseteq {A B} (f : A -> list B) l k :
  l ⊆+ k -> flat_map f l ⊆+ flat_map f k.
Proof using Type.
  induction 1 as [|x l1 l2 _ IH|x y l|x l1 l2 _ IH|l1 l2 l3 _ IH1 _ IH2]; simpl.
  - done.
  - by apply submseteq_skips_l.
  - rewrite !app_assoc. apply submseteq_skips_r. apply Permutation_submseteq.
    apply Permutation_app_comm.
  - by apply submseteq_inserts_l.
  - by etrans.
Qed.

Lemma map_submseteq {A B} (f : A -> B) l k : l ⊆+ k -> map f l ⊆+ map f k.
Proof using Type.
  induction 1 as [|x l1 l2 _ IH|x y l|x l1 l2 _ IH|l1 l2 l3 _ IH1 _ IH2]; simpl.
  - done.
  - by apply submseteq_skip.
  - apply submseteq_swap.
  - by apply submseteq_cons.
  - by etrans.
Qed.

Lemma submseteq_keeps_NoDup {A} (l k : list A) : l ⊆+ k -> NoDup k -> NoDup l.
Proof using Type.
  intros Hsub Hnd. apply submseteq_sublist_r in Hsub as (l' & Hperm & Hsl).
  rewrite Hperm. by apply (sublist_NoDup l' k).
Qed.

(** X19.  At every moment of a traversal of a finite tree by predicates that do
    not throw, whatever the number of workers and the interleaving: the
    calls made so far are, as a multiset, among the calls the tree determines,
    and the paths of the records accepted so far are among the selected files.
    So when the calls (the selected paths) of the tree are pairwise
    different, no directory has been listed twice, no file checked or read
    twice, and no path handed to the consumer twice. *)
Theorem nothing_is_done_twice_during_a_traversal sched s :
  exec sched exploreFilesAsync = Some (Started s) ->
  log s ⊆+ expectedCalls (rootDir options) children /\
  map path (yielded s ++ outputBuffer s) ⊆+ expected (rootDir options) children /\
  (NoDup (expectedCalls (rootDir options) children) -> NoDup (log s)) /\
  (NoDup (expected (rootDir options) children) -> NoDup (map path (yielded s))).
Proof using predicates_total root_tree.
  intros Hex. pose proof (exec_reachable sched s Hex) as Hr.
  destruct (reachable_accounting s Hr) as (N & Hv & _).
  assert (Hlog : log s ⊆+ expectedCalls (rootDir options) children).
  { apply hits_le_submseteq. intros phi.
    destruct (exec_tally phi N sched s Hv Hex) as [_ Ht]. rewrite <- Ht.
    apply log_below_tally. }
  assert (Hpaths : map path (yielded s ++ outputBuffer s)
                     ⊆+ expected (rootDir options) children).
  { destruct (reachable_history s Hr) as [Hfifo _ _ _]. rewrite Hfifo.
    rewrite <- accepted_expected_calls. apply map_submseteq.
    by apply flat_map_submseteq. }
  split; [done|]. split; [done|]. split.
  - intros Hnd. exact (submseteq_keeps_NoDup _ _ Hlog Hnd).
  - intros Hnd. pose proof (submseteq_keeps_NoDup _ _ Hpaths Hnd) as Hnd'.
    rewrite map_app in Hnd'. by apply NoDup_app in Hnd' as [? _].
Qed.

End Traversal.

End Walker.

(** * Instances on the example tree *)

Lemma done_iff_queues_empty_and_no_active_worker_witness :
  exists s,
    exec Demo.join Demo.readdir Demo.readFile (Demo.options (Some Demo.three))
      Demo.schedule exploreFilesAsync = Some (Started s) /\
    (isDone s = true <-> allQueuesEmpty s = true /\ activeWorkers s = 0).
Proof.
  eexists. split; [vm_compute; reflexivity|].
  apply (proj2 (done_iff_queues_empty_and_no_active_worker
                  Demo.join Demo.readdir Demo.readFile (Demo.options (Some Demo.three)))
           Demo.schedule).
  vm_compute; reflexivity.
Defined.

Lemma worker_pool_is_min_of_request_and_ceiling_witness :
  (exists s0,
     prologue (Demo.options (Some (Finite (100 # 1)))) = Normal s0 /\
     Z.of_nat (length (workers s0)) = Z.min 100 MAX_WORKER_COUNT) /\
  (forall sched s,
     exec Demo.join Demo.readdir Demo.readFile (Demo.options (Some (Finite (100 # 1))))
       sched exploreFilesAsync = Some (Started s) ->
     Z.of_nat (length (workers s)) = Z.min 100 MAX_WORKER_COUNT /\
     Z.of_nat (length (workers s)) <= 8 /\
     0 <= activeWorkers s <= Z.min 100 MAX_WORKER_COUNT).
Proof.
  apply (worker_pool_is_min_of_request_and_ceiling
           Demo.join Demo.readdir Demo.readFile
           (Demo.options (Some (Finite (100 # 1)))) (100 # 1) 100).
  - reflexivity.
  - reflexivity.
  - lia.
Defined.

(** The consumer has received [r/f0]; the reads of [r/f1] and [r/f2] were
    pending.  The first failure sets the slot, the second one replaces it,
    and the next pull throws the second error.  And in the run in which
    [shouldReadFile] does [throw undefined], the slot holds [undefined] and
    the worker goes on calling the predicates and the file system. *)
Lemma later_error_overwrites_the_slot :
  (exists s1 s2 s3,
     exec Demo.join Faulty.readdir Faulty.readFile Faulty.options
       [Next; IoDone 0; WorkerResume 1; IoDone 0; GenResume; IoDone 1]%nat
       exploreFilesAsync = Some (Started s1) /\
     error s1 = Some (VError (Error "EACCES: r/f1")) /\
     step Demo.join Faulty.readdir Faulty.readFile Faulty.options (IoDone 0) s1 = Some s2 /\
     error s2 = Some (VError (Error "EACCES: r/f2")) /\
     step Demo.join Faulty.readdir Faulty.readFile Faulty.options Next s2 = Some s3 /\
     gen s3 = GCompleted (Throw (VError (Error "EACCES: r/f2")))) /\
  (exists s s',
     exec Demo.join Demo.readdir Demo.readFile Faulty.undefinedOptions
       [Next; IoDone 0; IoDone 0]%nat exploreFilesAsync = Some (Started s) /\
     error s = Some VUndefined /\
     step Demo.join Demo.readdir Demo.readFile Faulty.undefinedOptions (IoDone 0) s
       = Some s' /\
     error s' = Some VUndefined /\
     log s' = log s ++ [EvShouldReadFile {| ctx_path := "r/sub/c.txt" |};
                        EvReadFile "r/sub/c.txt"]%string).
Proof.
  split.
  - do 3 eexists.
    split; [vm_compute; reflexivity|]. split; [reflexivity|].
    split; [vm_compute; reflexivity|]. split; [reflexivity|].
    split; [vm_compute; reflexivity|]. reflexivity.
  - do 2 eexists.
    split; [vm_compute; reflexivity|]. split; [reflexivity|].
    split; [vm_compute; reflexivity|]. split; reflexivity.
Defined.

Lemma error_slot_is_overwritten_by_pending_failures_witness :
  exists s s',
    exec Demo.join Faulty.readdir Faulty.readFile Faulty.options
      [Next; IoDone 0; WorkerResume 1; IoDone 0; GenResume; IoDone 1]%nat
      exploreFilesAsync = Some (Started s) /\
    step Demo.join Faulty.readdir Faulty.readFile Faulty.options (IoDone 0) s = Some s' /\
    log s' = log s /\
    (forall w e', IoDone 0 = IoDone w ->
       pendingFails Faulty.readdir Faulty.readFile s w e' ->
       error s' = Some (VError e')) /\
    (exists e1, error s' = Some e1 /\ truthy e1 = true).
Proof.
  do 2 eexists.
  split; [vm_compute; reflexivity|]. split; [vm_compute; reflexivity|].
  match goal with
  | |- log ?s' = log ?s /\ _ =>
      destruct (error_slot_is_overwritten_by_pending_failures
                  Demo.join Faulty.readdir Faulty.readFile Faulty.options
                  s (VError (Error "EACCES: r/f1")) (IoDone 0) s')
        as (Hlog & _ & Hover & Hkept & _)
  end.
  - reflexivity.
  - reflexivity.
  - vm_compute; reflexivity.
  - split; [exact Hlog|]. split; [exact Hover|exact Hkept].
Defined.

(** [shouldReadFile] throws an [Error] on [r/b.log].  The consumer receives
    [r/a.txt] and then the error; no task is left, and [isDone] is still
    unset.  And when it does [throw undefined] there, the slot holds
    [undefined], the worker goes on, the record of [r/sub/c.txt] is appended
    to the Output Buffer afterwards, and [isDone] is set in the end. *)
Lemma error_set_and_done_never_set :
  (exists s,
     exec Demo.join Demo.readdir Demo.readFile Faulty.throwingOptions
       Faulty.throwingSchedule exploreFilesAsync = Some (Started s) /\
     error s = Some (VError (Error "unexpected file")) /\
     gen s = GCompleted (Throw (VError (Error "unexpected file"))) /\
     isDone s = false /\
     forall l, step Demo.join Demo.readdir Demo.readFile Faulty.throwingOptions l s
               = None) /\
  (exists s s' s'',
     exec Demo.join Demo.readdir Demo.readFile Faulty.undefinedOptions
       [Next; IoDone 0; IoDone 0; GenResume]%nat exploreFilesAsync = Some (Started s) /\
     error s = Some VUndefined /\ outputBuffer s = [] /\
     execFrom Demo.join Demo.readdir Demo.readFile Faulty.undefinedOptions
       [Next; IoDone 0; IoDone 0]%nat s = Some s' /\
     error s' = Some VUndefined /\
     map path (outputBuffer s') = ["r/sub/c.txt"]%string /\
     execFrom Demo.join Demo.readdir Demo.readFile Faulty.undefinedOptions
       [GenResume; Next]%nat s' = Some s'' /\
     error s'' = Some VUndefined /\ isDone s'' = true /\
     gen s'' = GCompleted (Normal ())).
Proof.
  split.
  - eexists. split; [vm_compute; reflexivity|].
    split; [reflexivity|]. split; [reflexivity|]. split; [reflexivity|].
    intros [| |[|w]|[|w]]; reflexivity.
  - do 3 eexists. split; [vm_compute; reflexivity|].
    split; [reflexivity|]. split; [reflexivity|].
    split; [vm_compute; reflexivity|]. split; [reflexivity|]. split; [reflexivity|].
    split; [vm_compute; reflexivity|]. split; [reflexivity|]. split; reflexivity.
Defined.

Lemma after_error_no_append_and_done_stays_unset_witness :
  exists s,
    exec Demo.join Demo.readdir Demo.readFile Faulty.throwingOptions
      [Next; IoDone 0; IoDone 0]%nat exploreFilesAsync = Some (Started s) /\
    error s = Some (VError (Error "unexpected file")) /\
    isDone s = false /\
    forall sched' s',
      execFrom Demo.join Demo.readdir Demo.readFile Faulty.throwingOptions sched' s
        = Some s' ->
      outputBuffer s' `suffix_of` outputBuffer s /\
      (exists e', error s' = Some e' /\ truthy e' = true) /\
      isDone s' = false /\
      gen s' <> GAwaiting /\ gen s' <> GCompleted (Normal ()) /\
      (forall l s'', l = Next \/ l = GenResume -> outputBuffer s' = [] ->
         step Demo.join Demo.readdir Demo.readFile Faulty.throwingOptions l s' = Some s'' ->
         exists e', error s' = Some e' /\ gen s'' = GCompleted (Throw e')) /\
      (length sched' <= length (workers s) + length (outputBuffer s) + 1)%nat /\
      (finished Demo.join Demo.readdir Demo.readFile Faulty.throwingOptions s' ->
       exists e', gen s' = GCompleted (Throw e') /\ outputBuffer s' = []).
Proof.
  eexists. split; [vm_compute; reflexivity|]. split; [reflexivity|].
  apply (after_error_no_append_and_done_stays_unset
           Demo.join Demo.readdir Demo.readFile Faulty.throwingOptions
           [Next; IoDone 0; IoDone 0]%nat _ (VError (Error "unexpected file"))).
  - vm_compute; reflexivity.
  - reflexivity.
  - reflexivity.
Defined.

(** The call alone, with [workerCount: 0]: an iterator, and no failure. *)
Lemma call_with_invalid_worker_count_does_not_fail :
  exec Demo.join Demo.readdir Demo.readFile (Demo.options (Some (Finite 0)))
    [] exploreFilesAsync = Some SuspendedStart /\
  (forall e, exploreFilesAsync <> ClosedAtStart e) /\
  exec Demo.join Demo.readdir Demo.readFile (Demo.options (Some (Finite 0)))
    [Next] exploreFilesAsync =
    Some (ClosedAtStart (Error "workerCount must be a positive integer.")).
Proof.
  split; [reflexivity|]. split; [intros e; discriminate|]. vm_compute; reflexivity.
Defined.

Lemma invalid_worker_count_fails_at_first_pull_witness :
  istep Demo.join Demo.readdir Demo.readFile (Demo.options (Some (Finite 0)))
    Next exploreFilesAsync =
    Some (ClosedAtStart (Error "workerCount must be a positive integer.")) /\
  forall sched it,
    exec Demo.join Demo.readdir Demo.readFile (Demo.options (Some (Finite 0)))
      sched exploreFilesAsync = Some it ->
    it = SuspendedStart \/
    it = ClosedAtStart (Error "workerCount must be a positive integer.").
Proof.
  apply (invalid_worker_count_fails_at_first_pull
           Demo.join Demo.readdir Demo.readFile (Demo.options (Some (Finite 0)))
           (Finite 0)).
  - reflexivity.
  - left. unfold Qle. simpl. lia.
Defined.



(** The root sits in the directory-stat queue, is listed, and is never
    passed to [shouldExploreDir]. *)
Lemma root_is_not_in_directory_check_queue :
  queueDirCheck (initialState (Demo.options None)) <> [rootDir (Demo.options None)] /\
  queueDirStat (initialState (Demo.options None)) = ["r"%string] /\
  exists s,
    exec Demo.join Demo.readdir Demo.readFile (Demo.options None)
      [Next; IoDone 0; IoDone 0; GenResume; Next; IoDone 0; IoDone 0; GenResume; Next]%nat
      exploreFilesAsync = Some (Started s) /\
    gen s = GCompleted (Normal ()) /\
    In (EvReaddir "r") (log s) /\ ~ In (EvShouldExploreDir "r") (log s).
Proof.
  split; [discriminate|]. split; [reflexivity|].
  eexists. split; [vm_compute; reflexivity|]. split; [reflexivity|].
  split; [by left|]. cbn. intuition discriminate.
Defined.



(** * The traversal property *)

(** C1, as the code has it.  Take a file system that holds a finite tree at
    [rootDir], predicates that return a boolean on every argument
    ([shouldYieldFile] may be omitted), and any [workerCount] that is omitted or
    a positive integer (1 through 8 among them).  Then every run is finite;
    a run in which no task is left has ended the sequence normally; and when
    the sequence has ended, the set of yielded paths is the set of the files
    [f] below [rootDir] such that every directory between [rootDir] and [f]
    ([rootDir] itself excluded: it is listed without being passed to
    [shouldExploreDir]) satisfies [shouldExploreDir], [f] satisfies
    [shouldReadFile] and the record of [f] satisfies [shouldYieldFile].  That
    set does not mention [workerCount]. *)
Theorem yielded_paths_are_the_selected_files
    (path_join : string -> string -> string)
    (fs_readdir : string -> Completion JsError (list Dirent))
    (fs_readFile : string -> Completion JsError (list Byte.byte))
    (options : ExploreFileArgs) (children : list Tree) (count : option JsNumber) :
  nonThrowing options ->
  holdsTree path_join fs_readdir fs_readFile (rootDir options) children ->
  validCount count ->
  (forall sched it,
     exec path_join fs_readdir fs_readFile (withWorkerCount count options)
       sched exploreFilesAsync = Some it ->
     (length sched <= runBound children)%nat) /\
  (forall sched it,
     exec path_join fs_readdir fs_readFile (withWorkerCount count options)
       sched exploreFilesAsync = Some it ->
     (forall l, istep path_join fs_readdir fs_readFile (withWorkerCount count options) l it
                = None) ->
     exists s, it = Started s /\ gen s = GCompleted (Normal ())) /\
  (forall sched s,
     exec path_join fs_readdir fs_readFile (withWorkerCount count options)
       sched exploreFilesAsync = Some (Started s) ->
     gen s = GCompleted (Normal ()) ->
     forall p, In p (map path (yielded s)) <->
               In p (expected path_join options (rootDir options) children)).
Proof.
  intros Hpred Htree Hcount.
  apply (traversal_is_complete_and_sound path_join fs_readdir fs_readFile
           (withWorkerCount count options) children Hpred Htree).
  destruct Hcount as [->|(n & q & k & -> & -> & Hq & Hk)]; [by left|].
  right. exists (Finite q). split; [done|]. by exists q, k.
Qed.

Lemma demo_predicates_total count : nonThrowing (Demo.options count).
Proof. repeat split; intros; eexists; reflexivity. Qed.

Lemma demo_tree_holds : holdsTree Demo.join Demo.readdir Demo.readFile "r" Demo.tree.
Proof. repeat split. Qed.

Lemma yielded_paths_are_the_selected_files_witness :
  exists s,
    exec Demo.join Demo.readdir Demo.readFile (Demo.options (Some Demo.three))
      Demo.schedule exploreFilesAsync = Some (Started s) /\
    gen s = GCompleted (Normal ()) /\
    (length Demo.schedule <= runBound Demo.tree)%nat /\
    forall p, In p (map path (yielded s)) <->
              In p (expected Demo.join (Demo.options None) "r" Demo.tree).
Proof.
  destruct (yielded_paths_are_the_selected_files
              Demo.join Demo.readdir Demo.readFile (Demo.options None) Demo.tree
              (Some Demo.three))
    as (Hbound & _ & Hset).
  - apply demo_predicates_total.
  - apply demo_tree_holds.
  - right. exists Demo.three, (3 # 1)%Q, 3.
    split; [reflexivity|]. split; [reflexivity|]. split; [reflexivity|lia].
  - eexists. split; [vm_compute; reflexivity|]. split; [reflexivity|].
    split.
    + eapply (Hbound Demo.schedule). vm_compute; reflexivity.
    + apply (Hset Demo.schedule); [vm_compute; reflexivity|reflexivity].
Defined.

(** [shouldExploreDir] rejects every directory, the root included.  The
    root is listed all the same and its two files are yielded, whereas no
    file has all its ancestor directories accepted. *)
Lemma root_rejected_by_the_predicate_is_still_walked :
  exists s,
    exec Demo.join Demo.readdir Demo.readFile (Faulty.rejectingOptions None)
      Faulty.rejectingSchedule exploreFilesAsync = Some (Started s) /\
    gen s = GCompleted (Normal ()) /\
    map path (yielded s) = ["r/a.txt"; "r/b.log"]%string /\
    claimed Demo.join (Faulty.rejectingOptions None) "r" Demo.tree = [] /\
    holdsTree Demo.join Demo.readdir Demo.readFile "r" Demo.tree /\
    nonThrowing (Faulty.rejectingOptions None).
Proof.
  eexists. split; [vm_compute; reflexivity|]. split; [reflexivity|].
  split; [reflexivity|]. split; [reflexivity|]. split; [apply demo_tree_holds|].
  repeat split; intros; eexists; reflexivity.
Defined.

(** * The scripts *)

Lemma mapGet_mapSet_same k v m : Scripts.mapGet k (Scripts.mapSet k v m) = Some v.
Proof.
  induction m as [|[k' v'] m IH]; simpl.
  - by rewrite String.eqb_refl.
  - destruct (String.eqb k' k) eqn:E; simpl; rewrite ?String.eqb_refl, ?E; done.
Qed.

Lemma mapGet_mapSet_other k v m q :
  q <> k -> Scripts.mapGet q (Scripts.mapSet k v m) = Scripts.mapGet q m.
Proof.
  intros Hne. induction m as [|[k' v'] m IH]; simpl.
  - destruct (String.eqb_spec k q); [congruence|done].
  - destruct (String.eqb_spec k' k) as [->|Hk]; simpl.
    + destruct (String.eqb_spec k q); [congruence|done].
    + destruct (String.eqb k' q); [done|exact IH].
Qed.

Lemma mapSet_keys k v m :
  NoDup (map fst m) -> NoDup (map fst (Scripts.mapSet k v m)) /\
  forall q, In q (map fst (Scripts.mapSet k v m)) <-> q = k \/ In q (map fst m).
Proof.
  induction m as [|[k' v'] m IH]; simpl; intros Hnd.
  - split; [apply NoDup_singleton|]. intros q. split; [intros [<-|[]]|intros [->|[]]]; auto.
  - apply NoDup_cons in Hnd as [Hk' Hnd]. destruct (IH Hnd) as [IH1 IH2].
    destruct (String.eqb_spec k' k) as [->|Hk]; simpl.
    + split; [by apply NoDup_cons|]. intros q. split; [intros [<-|H]|intros [->|[<-|H]]]; auto.
    + split.
      * apply NoDup_cons. split; [|done]. rewrite list_elem_of_In, IH2.
        rewrite list_elem_of_In in Hk'. intros [->|H]; auto.
      * intros q. rewrite IH2. tauto.
Qed.

(** What the loop of the backup script leaves in [baks]. *)
Lemma collect_in toText files m p t :
  Scripts.mapGet p (fold_left (Scripts.backUp toText) files m) = Some t ->
  (exists r, In r files /\ path r = p /\ t = toText (buffer (contents r))) \/
  Scripts.mapGet p m = Some t.
Proof.
  revert m. induction files as [|r files IH]; intros m; simpl; [by right|].
  intros H. destruct (IH _ H) as [(r' & Hin & Hp & Ht)|Hm].
  - left. exists r'. auto.
  - unfold Scripts.backUp in Hm. destruct (String.eqb_spec (path r) p) as [Hp|Hne].
    + rewrite Hp, mapGet_mapSet_same in Hm. left. exists r. split; [by left|].
      split; [done|congruence].
    + rewrite mapGet_mapSet_other in Hm by congruence. by right.
Qed.

Lemma collect_same toText files m p t :
  (forall r, In r files -> path r = p -> toText (buffer (contents r)) = t) ->
  (exists r, In r files /\ path r = p) \/ Scripts.mapGet p m = Some t ->
  Scripts.mapGet p (fold_left (Scripts.backUp toText) files m) = Some t.
Proof.
  revert m. induction files as [|r files IH]; intros m Hsame Hex; simpl.
  - destruct Hex as [(r & [] & _)|Hm]. done.
  - apply IH; [intros r' Hin; apply Hsame; by right|].
    unfold Scripts.backUp. destruct (String.eqb_spec (path r) p) as [Hp|Hne].
    + right. rewrite Hp, mapGet_mapSet_same. f_equal. apply Hsame; [by left|done].
    + rewrite mapGet_mapSet_other by congruence.
      destruct Hex as [(r' & [<-|Hin] & Hp')|Hm]; [done|left; eauto|by right].
Qed.

Lemma collect_keys toText files m :
  NoDup (map fst m) -> NoDup (map fst (fold_left (Scripts.backUp toText) files m)).
Proof.
  revert m. induction files as [|r files IH]; intros m Hnd; simpl; [done|].
  apply IH. unfold Scripts.backUp. by apply mapSet_keys.
Qed.

Lemma selectedNode_ext join e1 e2 r1 r2 y1 y2 :
  (forall d, e1 d = e2 d) -> (forall p, r1 p = r2 p) -> (forall r, y1 r = y2 r) ->
  forall t d, selectedNode join e1 r1 y1 d t = selectedNode join e2 r2 y2 d t.
Proof.
  intros He Hr Hy. induction t as [n b|n sub IH|n] using Tree_forall_ind; intros d; simpl.
  - by rewrite Hr, Hy.
  - rewrite He. destruct (e2 (join d n)); [|done].
    induction sub as [|c cs IHcs]; simpl; [done|].
    apply Forall_cons in IH as [IHc IHrest]. rewrite IHc. f_equal. by apply IHcs.
  - done.
Qed.

Lemma sources_expected path_join root extension dirPath children :
  expected path_join (Scripts.sourcesOptions root extension) dirPath children =
  selectedPaths path_join
    (fun d => negb (Scripts.endsWith d ".git") && negb (Scripts.endsWith d "node_modules"))
    (fun f => Scripts.endsWith f extension) (fun _ => true) dirPath children.
Proof.
  unfold expected, selectedPaths.
  induction children as [|c cs IH]; cbn [flat_map]; [done|]. rewrite IH. f_equal.
  apply selectedNode_ext; intros; simpl; by repeat case_match.
Qed.

Lemma sources_predicates_total root extension :
  nonThrowing (Scripts.sourcesOptions root extension).
Proof. repeat split; intros; eexists; reflexivity. Qed.

(** X16.  The backup scripts ([a4s-bak-create.ts]), whatever the root and the
    extension: over a finite tree, when the loop over the iterator has ended,
    [baks] holds each key once, and it maps a path to a text exactly when the
    path is a file of the tree whose path ends with the extension, none of the
    directories between the root and the file has a path ending with [.git]
    or [node_modules], and the text is the text of the bytes of that file.
    Eight workers have walked the tree. *)
Theorem backup_collects_the_text_of_the_selected_files
    (path_join : string -> string -> string)
    (fs_readdir : string -> Completion JsError (list Dirent))
    (fs_readFile : string -> Completion JsError (list Byte.byte))
    (toText : list Byte.byte -> string)
    (root extension : string) (children : list Tree) (sched : list Label) (s : State) :
  holdsTree path_join fs_readdir fs_readFile root children ->
  exec path_join fs_readdir fs_readFile (Scripts.sourcesOptions root extension)
    sched exploreFilesAsync = Some (Started s) ->
  gen s = GCompleted (Normal ()) ->
  length (workers s) = 8%nat /\
  NoDup (map fst (Scripts.collect toText (yielded s))) /\
  forall p t,
    Scripts.mapGet p (Scripts.collect toText (yielded s)) = Some t <->
    In p (selectedPaths path_join
            (fun d => negb (Scripts.endsWith d ".git") &&
                      negb (Scripts.endsWith d "node_modules"))
            (fun f => Scripts.endsWith f extension) (fun _ => true) root children) /\
    exists b, fs_readFile p = Normal b /\ t = toText b.
Proof.
  intros Htree Hex Hgen.
  set (options := Scripts.sourcesOptions root extension) in *.
  assert (Hvalid : workerCount options = None \/
                   exists n, workerCount options = Some n /\ positiveInteger n).
  { right. eexists. split; [reflexivity|]. exists (inject_Z 8), 8.
    split; [done|]. split; [reflexivity|lia]. }
  destruct (traversal_is_complete_and_sound path_join fs_readdir fs_readFile options
              children (sources_predicates_total root extension) Htree Hvalid)
    as (_ & _ & Hset).
  specialize (Hset sched s Hex Hgen).
  pose proof (exec_reachable _ _ _ _ sched s Hex) as Hr.
  pose proof (reachable_origins _ _ _ _ s Hr) as [_ _ _ _ _ _ Hy _ _].
  rewrite Forall_forall in Hy.
  assert (Hbytes : forall r, In r (yielded s) ->
            fs_readFile (path r) = Normal (buffer (contents r))).
  { intros r Hin. apply list_elem_of_In in Hin. by destruct (Hy r Hin) as [[_ ?] _]. }
  split; [|split].
  - destruct (reachable_accounting _ _ _ _ s Hr) as (N & Hv & _ & _ & Hlen).
    assert (validate options = Normal 8) as Hv8 by done. rewrite Hv8 in Hv.
    simplify_eq. lia.
  - apply collect_keys. constructor.
  - intros p t. rewrite <- (sources_expected path_join root extension root children).
    fold options. change root with (rootDir options) at 1. rewrite <- Hset. split.
    + intros Hget. apply collect_in in Hget as [(r & Hin & Hp & Ht)|Hm]; [|done].
      subst p. split; [by apply in_map|]. exists (buffer (contents r)). auto.
    + intros [Hin (b & Hb & ->)]. apply in_map_iff in Hin as (r & Hp & Hin).
      apply collect_same; [|left; eauto].
      intros r' Hin' Hp'. pose proof (Hbytes r' Hin') as Hb'. rewrite Hp', Hb in Hb'.
      congruence.
Qed.






(** * Instances of the properties of every run *)

(** [shouldExploreDir] does [throw undefined] on [r/sub]: the worker returns,
    no task is left, and the second pull of the consumer stays pending. *)
Lemma sequence_hangs_only_on_a_falsy_thrown_value_witness :
  exists s,
    exec Demo.join Demo.readdir Demo.readFile Faulty.hangingOptions
      Faulty.hangingSchedule exploreFilesAsync = Some (Started s) /\
    (forall l, istep Demo.join Demo.readdir Demo.readFile Faulty.hangingOptions
                 l (Started s) = None) /\
    gen s = GAwaiting /\ error s = Some VUndefined /\
    ~ truthyThrows Faulty.hangingOptions.
Proof.
  eexists. split; [vm_compute; reflexivity|].
  match goal with |- ?A /\ _ => assert (Hstuck : A) end.
  { intros [| |[|w]|[|w]]; reflexivity. }
  split; [exact Hstuck|]. split; [reflexivity|]. split; [reflexivity|].
  match goal with
  | |- ~ truthyThrows ?o =>
      destruct (sequence_hangs_only_on_a_falsy_thrown_value
                  Demo.join Demo.readdir Demo.readFile o Faulty.hangingSchedule _
                  ltac:(vm_compute; reflexivity) Hstuck) as [_ Hended]
  end.
  intros Htt. destruct (Hended Htt) as [[e He]|(s0 & r & Heq & Hg)]; [discriminate|].
  injection Heq as <-. discriminate Hg.
Defined.

Lemma recorded_error_is_never_swallowed_witness :
  exists s e,
    exec Demo.join Faulty.readdir Faulty.readFile Faulty.options
      Faulty.schedule exploreFilesAsync = Some (Started s) /\
    error s = Some e /\ truthy e = true /\
    gen s <> GAwaiting /\
    forall sched' s',
      execFrom Demo.join Faulty.readdir Faulty.readFile Faulty.options sched' s = Some s' ->
      gen s' <> GCompleted (Normal ()) /\
      (finished Demo.join Faulty.readdir Faulty.readFile Faulty.options s' ->
       exists e', gen s' = GCompleted (Throw e')).
Proof.
  do 2 eexists. split; [vm_compute; reflexivity|]. split; [reflexivity|].
  split; [reflexivity|].
  eapply (recorded_error_is_never_swallowed Demo.join Faulty.readdir Faulty.readFile
            Faulty.options Faulty.schedule);
    [vm_compute; reflexivity|reflexivity|reflexivity].
Defined.

Lemma records_are_delivered_in_acceptance_order_witness :
  exists s,
    exec Demo.join Demo.readdir Demo.readFile (Demo.options (Some Demo.three))
      Demo.schedule exploreFilesAsync = Some (Started s) /\
    yielded s ++ outputBuffer s = acceptedRecords (Demo.options (Some Demo.three)) (log s) /\
    (forall r, gen s = GCompleted r ->
       outputBuffer s = [] /\
       yielded s = acceptedRecords (Demo.options (Some Demo.three)) (log s)).
Proof.
  eexists. split; [vm_compute; reflexivity|].
  apply (records_are_delivered_in_acceptance_order Demo.join Demo.readdir Demo.readFile
           (Demo.options (Some Demo.three)) Demo.schedule).
  vm_compute; reflexivity.
Defined.

Lemma sequence_throws_only_what_a_call_has_thrown_witness :
  exists s e,
    exec Demo.join Faulty.readdir Faulty.readFile Faulty.options
      Faulty.schedule exploreFilesAsync = Some (Started s) /\
    error s = Some e /\
    exists ev, In ev (log s) /\ raises Faulty.readdir Faulty.readFile Faulty.options ev e.
Proof.
  do 2 eexists. split; [vm_compute; reflexivity|]. split; [reflexivity|].
  apply (sequence_throws_only_what_a_call_has_thrown Demo.join Faulty.readdir
           Faulty.readFile Faulty.options Faulty.schedule);
    [vm_compute; reflexivity|left; reflexivity].
Defined.

Lemma no_worker_sleeps_while_a_queue_holds_a_task_witness :
  exists s,
    exec Demo.join Demo.readdir Demo.readFile (Demo.options (Some Demo.three))
      [Next; IoDone 0%nat] exploreFilesAsync = Some (Started s) /\
    allQueuesEmpty s = false /\
    (allQueuesEmpty s = false -> forall w, workers s !! w <> Some WParked) /\
    (allQueuesEmpty s = false -> error s = None ->
       exists w st, workers s !! w = Some st /\ isAwaitingIo st = 1) /\
    (error s = None -> queueYieldCheck s = []).
Proof.
  eexists. split; [vm_compute; reflexivity|]. split; [reflexivity|].
  apply (no_worker_sleeps_while_a_queue_holds_a_task Demo.join Demo.readdir Demo.readFile
           (Demo.options (Some Demo.three)) [Next; IoDone 0%nat]).
  vm_compute; reflexivity.
Defined.

Lemma active_count_is_the_number_of_pending_fs_calls_witness :
  exists s,
    exec Demo.join Demo.readdir Demo.readFile (Demo.options (Some Demo.three))
      [Next; IoDone 0%nat; WorkerResume 1%nat] exploreFilesAsync = Some (Started s) /\
    error s = None /\
    activeWorkers s = sumWorkers isAwaitingIo (workers s).
Proof.
  eexists. split; [vm_compute; reflexivity|]. split; [reflexivity|].
  apply (active_count_is_the_number_of_pending_fs_calls Demo.join Demo.readdir
           Demo.readFile (Demo.options (Some Demo.three))
           [Next; IoDone 0%nat; WorkerResume 1%nat]);
    [vm_compute; reflexivity|reflexivity].
Defined.

Lemma worker_task_ends_within_the_queued_work_witness :
  let s := with_workers [WRunning]
             (with_queueFileCheck [{| ctx_path := "r/a.txt" |}; {| ctx_path := "r/b.log" |}]
                (initialState (Demo.options None))) in
  (syncWork s < 7)%nat /\
  workerLoop (Demo.options None) 7 0 s = Some (runWorker (Demo.options None) 0 s).
Proof.
  split; [vm_compute; lia|].
  apply (worker_task_ends_within_the_queued_work (Demo.options None)).
  vm_compute; lia.
Defined.

Lemma only_accepted_directories_and_files_reach_fs_witness :
  exists s,
    exec Demo.join Demo.readdir Demo.readFile (Demo.options (Some Demo.three))
      Demo.schedule exploreFilesAsync = Some (Started s) /\
    (forall dirPath, In (EvReaddir dirPath) (log s) ->
       explored Demo.join Demo.readdir (Demo.options (Some Demo.three)) dirPath) /\
    (forall f, In (EvShouldReadFile f) (log s) ->
       candidateFile Demo.join Demo.readdir (Demo.options (Some Demo.three)) f) /\
    (forall p, In (EvReadFile p) (log s) ->
       candidateFile Demo.join Demo.readdir (Demo.options (Some Demo.three))
         {| ctx_path := p |} /\
       shouldReadFile (Demo.options (Some Demo.three)) {| ctx_path := p |} = Normal true).
Proof.
  eexists. split; [vm_compute; reflexivity|].
  apply (only_accepted_directories_and_files_reach_fs Demo.join Demo.readdir Demo.readFile
           (Demo.options (Some Demo.three)) Demo.schedule).
  vm_compute; reflexivity.
Defined.

Lemma yielded_records_hold_the_bytes_read_for_their_path_witness :
  exists s r,
    exec Demo.join Demo.readdir Demo.readFile (Demo.options (Some Demo.three))
      Demo.schedule exploreFilesAsync = Some (Started s) /\
    In r (yielded s ++ outputBuffer s) /\
    candidateFile Demo.join Demo.readdir (Demo.options (Some Demo.three))
      {| ctx_path := path r |} /\
    shouldReadFile (Demo.options (Some Demo.three)) {| ctx_path := path r |} = Normal true /\
    Demo.readFile (path r) = Normal (buffer (contents r)) /\
    yieldPredicate (Demo.options (Some Demo.three)) r = Normal true.
Proof.
  do 2 eexists. split; [vm_compute; reflexivity|].
  split; [left; reflexivity|].
  eapply (yielded_records_hold_the_bytes_read_for_their_path Demo.join Demo.readdir
            Demo.readFile (Demo.options (Some Demo.three)) Demo.schedule);
    [vm_compute; reflexivity|left; reflexivity].
Defined.

Lemma single_worker_sequence_is_reproducible_witness :
  exists s1 s2,
    exec Demo.join Demo.readdir Demo.readFile (Demo.options None)
      Runs.eagerConsumer exploreFilesAsync = Some (Started s1) /\
    finished Demo.join Demo.readdir Demo.readFile (Demo.options None) s1 /\
    exec Demo.join Demo.readdir Demo.readFile (Demo.options None)
      Runs.lazyConsumer exploreFilesAsync = Some (Started s2) /\
    finished Demo.join Demo.readdir Demo.readFile (Demo.options None) s2 /\
    yielded s1 = yielded s2 /\ gen s1 = gen s2 /\ log s1 = log s2.
Proof.
  do 2 eexists. split; [vm_compute; reflexivity|].
  match goal with |- ?A /\ _ => assert (F1 : A) end.
  { intros [| |[|w]|[|w]]; reflexivity. }
  split; [exact F1|]. split; [vm_compute; reflexivity|].
  match goal with |- ?A /\ _ => assert (F2 : A) end.
  { intros [| |[|w]|[|w]]; reflexivity. }
  split; [exact F2|].
  apply (single_worker_sequence_is_reproducible Demo.join Demo.readdir Demo.readFile
           (Demo.options None) Runs.eagerConsumer Runs.lazyConsumer);
    [left; reflexivity|vm_compute; reflexivity|exact F1|vm_compute; reflexivity|exact F2].
Defined.

Lemma unlistable_root_fails_the_first_pull_witness :
  exists s,
    Demo.readdir (rootDir Runs.missingRoot) = Throw (Error "ENOTDIR") /\
    exec Demo.join Demo.readdir Demo.readFile Runs.missingRoot
      Runs.missingRootSchedule exploreFilesAsync = Some (Started s) /\
    (length Runs.missingRootSchedule <= 3)%nat /\
    yielded s = [] /\ outputBuffer s = [] /\ log s = [EvReaddir (rootDir Runs.missingRoot)] /\
    (finished Demo.join Demo.readdir Demo.readFile Runs.missingRoot s ->
     gen s = GCompleted (Throw (VError (Error "ENOTDIR")))) /\
    (forall r, gen s = GCompleted r -> r = Throw (VError (Error "ENOTDIR"))).
Proof.
  eexists. split; [reflexivity|]. split; [vm_compute; reflexivity|].
  apply (unlistable_root_fails_the_first_pull Demo.join Demo.readdir Demo.readFile
           Runs.missingRoot (Error "ENOTDIR") Runs.missingRootSchedule);
    [reflexivity|vm_compute; reflexivity].
Defined.

Lemma demo_count_three :
  workerCount (Demo.options (Some Demo.three)) = None \/
  exists n, workerCount (Demo.options (Some Demo.three)) = Some n /\ positiveInteger n.
Proof.
  right. exists Demo.three. split; [reflexivity|]. exists (3 # 1)%Q, 3.
  split; [reflexivity|]. split; [reflexivity|lia].
Qed.

Lemma every_call_is_made_exactly_once_witness :
  exists s,
    exec Demo.join Demo.readdir Demo.readFile (Demo.options (Some Demo.three))
      Demo.schedule exploreFilesAsync = Some (Started s) /\
    gen s = GCompleted (Normal ()) /\
    log s ≡ₚ expectedCalls Demo.join (Demo.options (Some Demo.three)) "r" Demo.tree /\
    (NoDup (expectedCalls Demo.join (Demo.options (Some Demo.three)) "r" Demo.tree) ->
     NoDup (log s)).
Proof.
  eexists. split; [vm_compute; reflexivity|]. split; [reflexivity|].
  apply (every_call_is_made_exactly_once Demo.join Demo.readdir Demo.readFile
           (Demo.options (Some Demo.three)) Demo.tree
           (demo_predicates_total _) demo_tree_holds Demo.schedule);
    [exact demo_count_three|vm_compute; reflexivity|reflexivity].
Defined.

Lemma each_selected_file_is_yielded_exactly_once_witness :
  exists s,
    exec Demo.join Demo.readdir Demo.readFile (Demo.options (Some Demo.three))
      Demo.schedule exploreFilesAsync = Some (Started s) /\
    gen s = GCompleted (Normal ()) /\
    map path (yielded s) ≡ₚ
      expected Demo.join (Demo.options (Some Demo.three)) "r" Demo.tree /\
    length (yielded s) =
      length (expected Demo.join (Demo.options (Some Demo.three)) "r" Demo.tree).
Proof.
  eexists. split; [vm_compute; reflexivity|]. split; [reflexivity|].
  apply (each_selected_file_is_yielded_exactly_once Demo.join Demo.readdir Demo.readFile
           (Demo.options (Some Demo.three)) Demo.tree
           (demo_predicates_total _) demo_tree_holds Demo.schedule);
    [exact demo_count_three|vm_compute; reflexivity|reflexivity].
Defined.

Lemma backup_tree_holds : holdsTree Demo.join Runs.readdir Runs.readFile "r" Runs.tree.
Proof. repeat split. Qed.

Lemma backup_collects_the_text_of_the_selected_files_witness :
  exists s,
    exec Demo.join Runs.readdir Runs.readFile (Scripts.sourcesOptions "r" ".user")
      Runs.backupSchedule exploreFilesAsync = Some (Started s) /\
    gen s = GCompleted (Normal ()) /\
    Scripts.collect Runs.latin1 (yielded s) =
      [("r/src/d.user", "d"); ("r/a.user", "a")]%string /\
    length (workers s) = 8%nat /\
    NoDup (map fst (Scripts.collect Runs.latin1 (yielded s))) /\
    forall p t,
      Scripts.mapGet p (Scripts.collect Runs.latin1 (yielded s)) = Some t <->
      In p (selectedPaths Demo.join
              (fun d => negb (Scripts.endsWith d ".git") &&
                        negb (Scripts.endsWith d "node_modules"))
              (fun f => Scripts.endsWith f ".user") (fun _ => true) "r" Runs.tree) /\
      exists b, Runs.readFile p = Normal b /\ t = Runs.latin1 b.
Proof.
  eexists. split; [vm_compute; reflexivity|]. split; [reflexivity|].
  split; [vm_compute; reflexivity|].
  apply (backup_collects_the_text_of_the_selected_files Demo.join Runs.readdir
           Runs.readFile Runs.latin1 "r" ".user" Runs.tree Runs.backupSchedule);
    [exact backup_tree_holds|vm_compute; reflexivity|reflexivity].
Defined.


(** Two entries whose paths name one file: both writes are fulfilled, the
    script runs to its end, and what the file holds is not determined. *)
Lemma restore_of_two_paths_to_one_file_races :
  let bak := [("a", "1"); ("./a", "2")]%string in
  ~ NoDup (map (fun q => Scripts.sameDirectory (fst q)) bak) /\
  exists r,
    Scripts.restore Scripts.sameDirectory bak
      [(0, Scripts.Fulfilled); (0, Scripts.Fulfilled)]%nat (fun _ => None)
    = Some (Scripts.Ended r) /\
    Scripts.disk r "a"%string = Some Scripts.Torn.
Proof.
  intros bak. split.
  - intros Hnd. apply NoDup_cons in Hnd as [Hnd _]. apply Hnd. vm_compute. by left.
  - eexists. split; [vm_compute; reflexivity|]. reflexivity.
Qed.

Lemma traversal_does_not_wait_for_the_consumer_witness :
  exists s,
    exec Demo.join Demo.readdir Demo.readFile (Demo.options None)
      [Next; IoDone 0; IoDone 0; IoDone 0; IoDone 0]%nat exploreFilesAsync
      = Some (Started s) /\
    error s = None /\
    (forall w, step Demo.join Demo.readdir Demo.readFile (Demo.options None)
                 (WorkerResume w) s = None /\
               step Demo.join Demo.readdir Demo.readFile (Demo.options None)
                 (IoDone w) s = None) /\
    length (outputBuffer s) = 2%nat /\ yielded s = [] /\
    isDone s = true /\ allQueuesEmpty s = true /\
    forall w st, workers s !! w = Some st -> st = WReturned.
Proof.
  eexists. split; [vm_compute; reflexivity|]. split; [reflexivity|].
  match goal with |- ?A /\ _ => assert (Hidle : A) end.
  { intros [|w]; split; reflexivity. }
  split; [exact Hidle|]. split; [reflexivity|]. split; [reflexivity|].
  apply (traversal_does_not_wait_for_the_consumer Demo.join Demo.readdir Demo.readFile
           (Demo.options None) [Next; IoDone 0; IoDone 0; IoDone 0; IoDone 0]%nat);
    [vm_compute; reflexivity|reflexivity|exact Hidle].
Defined.

Lemma first_pull_leaves_one_worker_listing_the_root_witness :
  exists s0,
    prologue (Demo.options (Some (Finite (100 # 1)))) = Normal s0 /\
    workers s0 = WAwaitReaddir "r" :: replicate 7 WParked /\
    activeWorkers s0 = 1 /\ allQueuesEmpty s0 = true /\ outputBuffer s0 = [] /\
    isDone s0 = false /\ error s0 = None /\ log s0 = [EvReaddir "r"] /\
    istep Demo.join Demo.readdir Demo.readFile (Demo.options (Some (Finite (100 # 1))))
      Next exploreFilesAsync = Some (Started (with_gen GAwaiting s0)).
Proof.
  apply (first_pull_leaves_one_worker_listing_the_root Demo.join Demo.readdir Demo.readFile
           (Demo.options (Some (Finite (100 # 1)))) (100 # 1) 100);
    [reflexivity|reflexivity|lia].
Defined.

Lemma throwing_predicates_throw_errors : truthyThrows Faulty.throwingOptions.
Proof.
  split; [|split].
  - intros dirPath e. simpl. case_match; intros [= <-]. reflexivity.
  - intros f e. simpl. case_match; intros [= <-]. reflexivity.
  - intros r e. discriminate.
Qed.

Lemma run_over_a_finite_tree_runs_out_of_tasks_witness :
  truthyThrows Faulty.throwingOptions /\
  exists it,
    exec Demo.join Demo.readdir Demo.readFile Faulty.throwingOptions
      Faulty.throwingSchedule exploreFilesAsync = Some it /\
    (length Faulty.throwingSchedule <= runBound Demo.tree)%nat /\
    exists rest it',
      exec Demo.join Demo.readdir Demo.readFile Faulty.throwingOptions
        (Faulty.throwingSchedule ++ rest) exploreFilesAsync = Some it' /\
      (forall l, istep Demo.join Demo.readdir Demo.readFile Faulty.throwingOptions l it'
                 = None) /\
      ((exists e, it' = ClosedAtStart e /\ validate Faulty.throwingOptions = Throw e) \/
       (exists s r, it' = Started s /\ gen s = GCompleted r /\ outputBuffer s = [] /\
          match r with
          | Normal _ => isDone s = true /\ setError s = None
          | Throw _ => is_Some (setError s) /\ isDone s = false
          end)).
Proof.
  split; [exact throwing_predicates_throw_errors|].
  eexists. split; [vm_compute; reflexivity|].
  destruct (run_over_a_finite_tree_runs_out_of_tasks
              Demo.join Demo.readdir Demo.readFile Faulty.throwingOptions Demo.tree
              demo_tree_holds Faulty.throwingSchedule _ ltac:(vm_compute; reflexivity))
    as (Hbound & rest & it' & Hrun & Hfin & Hend).
  split; [exact Hbound|]. exists rest, it'. split; [exact Hrun|]. split; [exact Hfin|].
  exact (Hend throwing_predicates_throw_errors).
Defined.

Lemma nothing_is_done_twice_during_a_traversal_witness :
  exists s,
    exec Demo.join Demo.readdir Demo.readFile (Demo.options (Some Demo.three))
      (take 6 Demo.schedule) exploreFilesAsync = Some (Started s) /\
    gen s = GWoken /\
    log s ⊆+ expectedCalls Demo.join (Demo.options (Some Demo.three)) "r" Demo.tree /\
    map path (yielded s ++ outputBuffer s)
      ⊆+ expected Demo.join (Demo.options (Some Demo.three)) "r" Demo.tree /\
    (NoDup (expectedCalls Demo.join (Demo.options (Some Demo.three)) "r" Demo.tree) ->
     NoDup (log s)) /\
    (NoDup (expected Demo.join (Demo.options (Some Demo.three)) "r" Demo.tree) ->
     NoDup (map path (yielded s))).
Proof.
  eexists. split; [vm_compute; reflexivity|]. split; [reflexivity|].
  apply (nothing_is_done_twice_during_a_traversal Demo.join Demo.readdir Demo.readFile
           (Demo.options (Some Demo.three)) Demo.tree
           (demo_predicates_total _) demo_tree_holds (take 6 Demo.schedule)).
  vm_compute; reflexivity.
Defined.
